(** * ChronoAI: the aggregation engine of [App] and its mapping mutator

    A shallow embedding of the [displayProjects] memo and of
    [handleUpdateProject] (App.tsx), with the properties of the engine
    stated and proved over it.

    Modelling conventions.
    - A JavaScript string is a [string]; [toLowerCase] is a parameter of
      the development (class [JsCase]), so every result holds for any
      case-folding function, Unicode lower-casing included.
    - A JavaScript number is an abstract type with [0] and [+] (class
      [JsNumber]), of which no law is assumed; the examples run on its
      instance [float_JsNumber], the IEEE 754 binary64 numbers.
    - A plain object used as a dictionary ([Record<string, V>]) that the
      engine enumerates is a [jsobj]: its own properties in the order of
      [Object.keys] / [Object.entries] (array-index keys in ascending numeric
      order, then the other keys in insertion order).  A read [o[k]] of a key
      that is no own property falls through to [Object.prototype], whose
      members ([OBJECT_PROTOTYPE]) all read as truthy values.
    - The engine writes to a member of [Object.prototype] only on two paths:
      in Stage 3 it adds to the property [duration] of the member, whose
      value is then [NaN], which reads as falsy wherever the code reads it;
      in Stage 4 the same write is followed by a [TypeError].  So a call
      that returns behaves as on the initial [Object.prototype]; a call that
      throws is [None].
    - [userMappings] is only ever read by key or updated key by key, so it
      is a [gmap] of its own properties; [usedColors] is a [gset]. *)

From stdpp Require Import base decidable option list strings gmap.
From Stdlib Require Import Ascii NArith DecimalString DecimalN Sorted Floats.

#[local] Set Warnings "-clear-no-such-hyp".
#[local] Set Warnings "-inexact-float".

Open Scope string_scope.
Open Scope list_scope.

(** ** Host language *)

Class JsNumber (num : Type) := { num_zero : num; num_add : num → num → num }.

Class JsCase := { toLowerCase : string → string }.

(** [s.startsWith(sub)] *)
Fixpoint startsWith (s sub : string) : bool :=
  match sub, s with
  | EmptyString, _ => true
  | String _ _, EmptyString => false
  | String c sub', String d s' => if Ascii.eqb c d then startsWith s' sub' else false
  end.

(** [s.includes(sub)] on strings *)
Fixpoint String_includes (s sub : string) : bool :=
  startsWith s sub ||
  match s with
  | EmptyString => false
  | String _ s' => String_includes s' sub
  end.

(** [l.includes(x)] on arrays of strings *)
Definition Array_includes (l : list string) (x : string) : bool :=
  bool_decide (x ∈ l).

(** [a || b] on strings: the empty string is falsy *)
Definition or_else (a b : string) : string :=
  if decide (a = "") then b else a.

(** *** Property order of ordinary objects *)

(** A property key is an array index when it is the canonical decimal
    numeral (no sign, no leading zero) of an integer in [0, 2^32 - 2]. *)
Definition array_index (k : string) : option N :=
  match NilEmpty.uint_of_string k with
  | Some d =>
      if Decimal.uint_beq (Decimal.unorm d) d then
        let n := N.of_uint d in
        if (n <=? 4294967294)%N then Some n else None
      else None
  | None => None
  end.

(** [key_before k k']: a new key [k] is enumerated before the existing
    key [k']. *)
Definition key_before (k k' : string) : bool :=
  match array_index k, array_index k' with
  | Some n, Some n' => (n <? n')%N
  | Some _, None => true
  | None, _ => false
  end.

Abbreviation jsobj V := (list (string * V)).

Section jsobj.
Context {V : Type}.

  (** [o[k]] *)
Fixpoint obj_get (o : jsobj V) (k : string) : option V :=
    match o with
    | [] => None
    | (k', v) :: o' => if decide (k' = k) then Some v else obj_get o' k
    end.

  (** [o[k] = v] for a key [o] already has: the key keeps its place *)
Fixpoint obj_replace (k : string) (v : V) (o : jsobj V) : jsobj V :=
    match o with
    | [] => []
    | (k', v') :: o' =>
        if decide (k' = k) then (k, v) :: o' else (k', v') :: obj_replace k v o'
    end.

  (** [o[k] = v] for a key [o] does not have *)
Fixpoint obj_insert (k : string) (v : V) (o : jsobj V) : jsobj V :=
    match o with
    | [] => [(k, v)]
    | (k', v') :: o' =>
        if key_before k k' then (k, v) :: o else (k', v') :: obj_insert k v o'
    end.

  (** [o[k] = v] *)
Definition obj_set (k : string) (v : V) (o : jsobj V) : jsobj V :=
    match obj_get o k with
    | Some _ => obj_replace k v o
    | None => obj_insert k v o
    end.

Definition Object_keys (o : jsobj V) : list string := o.*1.

Definition Object_entries (o : jsobj V) : list (string * V) := o.
End jsobj.

Arguments Object_keys {V} o : simpl never.

(** *** Properties inherited from [Object.prototype] *)

(** The members of [Object.prototype].  On a plain object that has no own
    property of that name, each reads as a truthy value: a function, and for
    [__proto__] the prototype object itself. *)
Definition OBJECT_PROTOTYPE : list string :=
  [ "constructor"; "__defineGetter__"; "__defineSetter__"; "hasOwnProperty";
    "__lookupGetter__"; "__lookupSetter__"; "isPrototypeOf";
    "propertyIsEnumerable"; "toString"; "valueOf"; "__proto__";
    "toLocaleString" ].

Definition inherited (k : string) : bool := bool_decide (k ∈ OBJECT_PROTOTYPE).

(** [Object.prototype[k]?.name], with the empty string for [undefined]
    (both are falsy): the member [constructor] is the function [Object]; the
    other functions are named after their key; [__proto__] reads the
    prototype object, which has no [name]. *)
Definition inheritedName (k : string) : string :=
  if decide (k = "constructor") then "Object"
  else if decide (k = "__proto__") then ""
  else if inherited k then k else "".

(** [l.forEach(f)] for a callback that updates the variables it captures
    and can throw *)
Fixpoint forEach {S A : Type} (f : S → A → option S) (l : list A) (st : S)
    : option S :=
  match l with
  | [] => Some st
  | x :: l' =>
      match f st x with
      | Some st' => forEach f l' st'
      | None => None
      end
  end.

(** ** Data model (types.ts and the state of [App]) *)

Module AnalyzedEvent.
Record t (num : Type) : Type :=
    mk { title : string; durationHours : num; color : string }.
Arguments mk {num}.
Arguments title {num}.
Arguments durationHours {num}.
Arguments color {num}.
End AnalyzedEvent.

Module CalendarImage.
Record t (num : Type) : Type :=
    mk { id : string; base64 : string; events : list (AnalyzedEvent.t num) }.
Arguments mk {num}.
Arguments id {num}.
Arguments base64 {num}.
Arguments events {num}.
End CalendarImage.

Module Project.
Record t (num : Type) : Type :=
    mk { name : string; duration : num; color : string;
         originalNames : list string }.
Arguments mk {num}.
Arguments name {num}.
Arguments duration {num}.
Arguments color {num}.
Arguments originalNames {num}.
End Project.

(** A value of [userMappings] *)
Module Mapping.
Record t : Type := mk { name : string; color : string }.
End Mapping.

(** A value of [aggregatedByOriginal] *)
Module ByOriginal.
Record t (num : Type) : Type := mk { duration : num; color : string }.
Arguments mk {num}.
Arguments duration {num}.
Arguments color {num}.
End ByOriginal.

(** A value of [aggregatedByDisplay] *)
Module ByDisplay.
Record t (num : Type) : Type :=
    mk { duration : num; color : string; originalNames : list string }.
Arguments mk {num}.
Arguments duration {num}.
Arguments color {num}.
Arguments originalNames {num}.
End ByDisplay.

Definition COLORS : list string :=
  [ "#0088FE"; "#00C49F"; "#FFBB28"; "#FF8042"; "#AF19FF"; "#FF1969";
    "#19D4FF"; "#FFD700"; "#32CD32"; "#FF4500"; "#9932CC"; "#FF69B4" ].

(** The color the extraction service reports when it detects none *)
Definition SENTINEL : string := "#808080".

(** ** The aggregation engine: the [displayProjects] memo *)

Section engine.
Context {num : Type} `{!JsNumber num} `{!JsCase}.

(** [Object.keys(projectRules).find(keyword =>
      event.title.toLowerCase().includes(keyword.toLowerCase()))] *)
Definition matchingRuleKey (projectRules : jsobj string)
    (event : AnalyzedEvent.t num) : option string :=
  List.find
    (λ keyword,
       String_includes (toLowerCase (AnalyzedEvent.title event))
                       (toLowerCase keyword))
    (Object_keys projectRules).

(** The callback of [.map] that builds [processedEvents]:
    [matchingRuleKey ? { ...event, title: projectRules[matchingRuleKey] } : event].
    The empty string is falsy.  The last branch is never taken: a key found
    in [Object.keys(projectRules)] has a value. *)
Definition applyRules (projectRules : jsobj string)
    (event : AnalyzedEvent.t num) : AnalyzedEvent.t num :=
  match matchingRuleKey projectRules event with
  | Some k =>
      if decide (k = "") then event
      else match obj_get projectRules k with
           | Some target =>
               AnalyzedEvent.mk target (AnalyzedEvent.durationHours event)
                                (AnalyzedEvent.color event)
           | None => event
           end
  | None => event
  end.

Definition processedEvents (calendarImages : list (CalendarImage.t num))
    (projectRules : jsobj string) : list (AnalyzedEvent.t num) :=
  map (applyRules projectRules) (flat_map CalendarImage.events calendarImages).

(** The body of [processedEvents.forEach].  The guard
    [!aggregatedByOriginal[event.title]] reads the own entry of the title,
    which is an object, or else the inherited member, which is truthy too: a
    title that names a member of [Object.prototype] gets no entry, and
    [+=] then writes to the member, not to [aggregatedByOriginal]. *)
Definition addOriginal (ignoredProjects : list string)
    (agg : jsobj (ByOriginal.t num)) (event : AnalyzedEvent.t num)
    : jsobj (ByOriginal.t num) :=
  let title := AnalyzedEvent.title event in
  if Array_includes ignoredProjects title then agg
  else
    let agg1 :=
      match obj_get agg title with
      | Some _ => agg
      | None =>
          if inherited title then agg
          else obj_set title (ByOriginal.mk num_zero (AnalyzedEvent.color event)) agg
      end in
    match obj_get agg1 title with
    | Some d =>
        obj_set title
          (ByOriginal.mk
             (num_add (ByOriginal.duration d) (AnalyzedEvent.durationHours event))
             (ByOriginal.color d))
          agg1
    | None => agg1
    end.

Definition aggregatedByOriginal (ignoredProjects : list string)
    (processed : list (AnalyzedEvent.t num)) : jsobj (ByOriginal.t num) :=
  fold_left (addOriginal ignoredProjects) processed [].

(** [mapping?.name || originalName], where [mapping] is
    [userMappings[originalName]]: the own entry, or else the inherited
    member. *)
Definition displayNameOf (userMappings : gmap string Mapping.t)
    (originalName : string) : string :=
  match userMappings !! originalName with
  | Some mapping => or_else (Mapping.name mapping) originalName
  | None => or_else (inheritedName originalName) originalName
  end.

(** [mapping?.color || data.color]: no member of [Object.prototype] has a
    property [color]. *)
Definition displayColorOf (userMappings : gmap string Mapping.t)
    (originalName : string) (data : ByOriginal.t num) : string :=
  match userMappings !! originalName with
  | Some mapping => or_else (Mapping.color mapping) (ByOriginal.color data)
  | None => ByOriginal.color data
  end.

(** The body of [Object.entries(aggregatedByOriginal).forEach]: the three
    updates of the entry of [displayName] are one [obj_set].  The guard
    [!aggregatedByDisplay[displayName]] reads the own entry or else the
    inherited member, which is truthy: for a display name that names a member
    of [Object.prototype] no entry is created, the member has no
    [originalNames], and [.originalNames.includes] throws a [TypeError]. *)
Definition addDisplay (userMappings : gmap string Mapping.t)
    (agg : jsobj (ByDisplay.t num)) (entry : string * ByOriginal.t num)
    : option (jsobj (ByDisplay.t num)) :=
  let '(originalName, data) := entry in
  let displayName := displayNameOf userMappings originalName in
  let displayColor := displayColorOf userMappings originalName data in
  let agg1 :=
    match obj_get agg displayName with
    | Some _ => agg
    | None =>
        if inherited displayName then agg
        else obj_set displayName (ByDisplay.mk num_zero displayColor []) agg
    end in
  match obj_get agg1 displayName with
  | Some d =>
      Some
        (obj_set displayName
           (ByDisplay.mk
              (num_add (ByDisplay.duration d) (ByOriginal.duration data))
              displayColor
              (if Array_includes (ByDisplay.originalNames d) originalName
               then ByDisplay.originalNames d
               else ByDisplay.originalNames d ++ [originalName]))
           agg1)
  | None => None
  end.

Definition aggregatedByDisplay (userMappings : gmap string Mapping.t)
    (byOriginal : jsobj (ByOriginal.t num)) : option (jsobj (ByDisplay.t num)) :=
  forEach (addDisplay userMappings) (Object_entries byOriginal) [].

(** [Object.entries(aggregatedByDisplay).map(([name, data]) => ({ name, ...data }))] *)
Definition finalProjects (calendarImages : list (CalendarImage.t num))
    (userMappings : gmap string Mapping.t) (ignoredProjects : list string)
    (projectRules : jsobj string) : option (list (Project.t num)) :=
  (λ aggregatedByDisplay,
     map (λ '(name, data),
            Project.mk name (ByDisplay.duration data) (ByDisplay.color data)
                       (ByDisplay.originalNames data))
         (Object_entries aggregatedByDisplay))
  <$> aggregatedByDisplay userMappings
        (aggregatedByOriginal ignoredProjects
           (processedEvents calendarImages projectRules)).

(** The [while] loop of the fallback pass, run on the palette entries from
    [colorIndex] on:
    [while (colorIndex < COLORS.length && usedColors.has(COLORS[colorIndex])) colorIndex++]. *)
Fixpoint skipUsed (usedColors : gset string) (rest : list string)
    (colorIndex : nat) : nat :=
  match rest with
  | [] => colorIndex
  | c :: rest' =>
      if bool_decide (c ∈ usedColors) then skipUsed usedColors rest' (S colorIndex)
      else colorIndex
  end.

Definition nextFree (usedColors : gset string) (colorIndex : nat) : nat :=
  skipUsed usedColors (drop colorIndex COLORS) colorIndex.

(** [userMappings[originalName]?.color] is truthy: the color of the own
    entry; no member of [Object.prototype] has a property [color]. *)
Definition hasUserColor (userMappings : gmap string Mapping.t)
    (originalName : string) : bool :=
  match userMappings !! originalName with
  | Some mapping => bool_decide (Mapping.color mapping ≠ "")
  | None => false
  end.

(** [p.originalNames[0]], used as a property key *)
Definition firstOriginalName (p : Project.t num) : string :=
  default "undefined" (head (Project.originalNames p)).

(** The condition of the fallback pass. *)
Definition wantsFallback (userMappings : gmap string Mapping.t)
    (p : Project.t num) : bool :=
  negb (hasUserColor userMappings (firstOriginalName p))
  && bool_decide (Project.color p = SENTINEL).

Definition withColor (p : Project.t num) (newColor : string) : Project.t num :=
  Project.mk (Project.name p) (Project.duration p) newColor
             (Project.originalNames p).

(** The callback of the last [finalProjects.map], with the two variables it
    closes over, [usedColors] and [colorIndex], passed as state. *)
Definition assignColor (userMappings : gmap string Mapping.t)
    (st : gset string * nat) (p : Project.t num)
    : (gset string * nat) * Project.t num :=
  let '(usedColors, colorIndex) := st in
  if wantsFallback userMappings p then
    let colorIndex' := nextFree usedColors colorIndex in
    match COLORS !! colorIndex' with
    | Some newColor =>
        (({[newColor]} ∪ usedColors, S colorIndex'), withColor p newColor)
    | None => ((usedColors, colorIndex'), p)
    end
  else (st, p).

(** [l.map(f)] for a callback that reads and writes captured variables *)
Fixpoint mapWithState {S A B : Type} (f : S → A → S * B) (st : S)
    (l : list A) : list B :=
  match l with
  | [] => []
  | x :: l' => let '(st', y) := f st x in y :: mapWithState f st' l'
  end.

Definition assignFallbackColors (userMappings : gmap string Mapping.t)
    (projects : list (Project.t num)) : list (Project.t num) :=
  mapWithState (assignColor userMappings)
    (list_to_set (map Project.color projects), 0) projects.

(** The value of the memo, [None] when the computation throws *)
Definition displayProjects (calendarImages : list (CalendarImage.t num))
    (userMappings : gmap string Mapping.t) (ignoredProjects : list string)
    (projectRules : jsobj string) : option (list (Project.t num)) :=
  assignFallbackColors userMappings
  <$> finalProjects calendarImages userMappings ignoredProjects projectRules.

End engine.

(** ** The rename / recolor mutator: [handleUpdateProject] *)

(** [Object.keys(newMappings).forEach(key => { if (newMappings[key].name ===
    displayName) newMappings[key] = { ...newMappings[key], color: newColor } })] *)
Definition recolorAll (displayName newColor : string)
    (newMappings : gmap string Mapping.t) : gmap string Mapping.t :=
  (λ mapping,
     if decide (Mapping.name mapping = displayName)
     then Mapping.mk (Mapping.name mapping) newColor
     else mapping) <$> newMappings.

(** The body of [originalNames.forEach].  [userMappings] is the state the
    handler closed over, [newMappings] the copy of [prev] being built.  The
    assignment [newMappings[originalName] = ...] adds or replaces the own
    entry of [originalName]; [ProjectRanking] passes the original names of a
    project of the output, none of which names a member of
    [Object.prototype]. *)
Definition updateOne (userMappings : gmap string Mapping.t)
    (newName newColor : string) (newMappings : gmap string Mapping.t)
    (originalName : string) : gmap string Mapping.t :=
  let displayName := displayNameOf userMappings originalName in
  let newMappings1 :=
    if decide (displayName = newName)
    then recolorAll displayName newColor newMappings
    else newMappings in
  <[originalName := Mapping.mk newName newColor]> newMappings1.

(** The updater passed to [setUserMappings], applied to [prev]. *)
Definition handleUpdateProject (userMappings : gmap string Mapping.t)
    (originalNames : list string) (newName newColor : string)
    (prev : gmap string Mapping.t) : gmap string Mapping.t :=
  fold_left (updateOne userMappings newName newColor) originalNames prev.

(** ** Instances used by the examples *)

(** The numbers of JavaScript: IEEE 754 binary64, with its addition *)
#[export] Instance float_JsNumber : JsNumber float :=
  {| num_zero := 0%float; num_add := PrimFloat.add |}.

Definition ascii_lower (c : ascii) : ascii :=
  let n := N_of_ascii c in
  if ((65 <=? n) && (n <=? 90))%N then ascii_of_N (n + 32) else c.

Fixpoint ascii_toLowerCase (s : string) : string :=
  match s with
  | EmptyString => EmptyString
  | String c s' => String (ascii_lower c) (ascii_toLowerCase s')
  end.

(** [toLowerCase] on strings of ASCII characters *)
#[export] Instance ascii_JsCase : JsCase := {| toLowerCase := ascii_toLowerCase |}.


(** ** Notions used to state the properties *)

(** The key order of an object, on the list of its keys: where [o[k] = v]
    puts a key [o] does not have. *)
Fixpoint key_insert (k : string) (ks : list string) : list string :=
  match ks with
  | [] => [k]
  | k' :: ks' => if key_before k k' then k :: ks else k' :: key_insert k ks'
  end.

(** The guarded creation [if (!o[k]) o[k] = ...], on the list of keys *)
Definition addKey (ks : list string) (k : string) : list string :=
  if decide (k ∈ ks) then ks else key_insert k ks.

(** The keys of an object, initially [{}], after guarded creations *)
Definition keysOf (created : list string) : list string :=
  fold_left addKey created [].

Definition isArrayIndex (k : string) : bool :=
  bool_decide (is_Some (array_index k)).

(** [may_precede k k']: [Object.keys] may list [k] before [k']. *)
Definition may_precede (k k' : string) : Prop :=
  match array_index k, array_index k' with
  | Some n, Some n' => (n < n')%N
  | None, Some _ => False
  | _, None => True
  end.

(** The distinct elements of a list, in order of first appearance *)
Fixpoint firstOccurrences (l : list string) : list string :=
  match l with
  | [] => []
  | x :: l' => x :: filter (λ y, y ≠ x) (firstOccurrences l')
  end.

(** [keys] lists the keys created in the order [created] the way
    [Object.keys] does: array indices first, in ascending numeric order, then
    the other keys in order of creation. *)
Definition ownKeyOrder (created keys : list string) : Prop :=
  NoDup keys
  ∧ (∀ k, k ∈ keys ↔ k ∈ created)
  ∧ StronglySorted may_precede keys
  ∧ filter (λ k, ¬ isArrayIndex k) keys
    = filter (λ k, ¬ isArrayIndex k) (firstOccurrences created).

(** No own key of the object names a member of [Object.prototype]. *)
Definition shadowsNothing {V : Type} (o : jsobj V) : Prop :=
  ∀ k, k ∈ Object_keys o → ¬ inherited k.

Section notions.
Context {num : Type} `{!JsNumber num} `{!JsCase}.

(** The sum of a list of numbers, added from [0] on, left to right, as
    [l.reduce((sum, x) => sum + x, 0)] adds them *)
Definition total (l : list num) : num := fold_left num_add l num_zero.

(** [keyword] occurs in [title] as a case-insensitive substring. *)
Definition occursIn (keyword title : string) : bool :=
  String_includes (toLowerCase title) (toLowerCase keyword).

(** Stage 1 as the specification words it: the target of the first rule
    whose keyword occurs in the title, and the title itself when there is
    none. *)
Definition specLabel (projectRules : jsobj string) (title : string) : string :=
  match List.find (λ rule, occursIn rule.1 title) (Object_entries projectRules) with
  | Some rule => rule.2
  | None => title
  end.

(** The rule-resolved events that Stage 3 counts: those whose label is not
    ignored and names no member of [Object.prototype] *)
Definition survivingEvents (ignoredProjects : list string)
    (processed : list (AnalyzedEvent.t num)) : list (AnalyzedEvent.t num) :=
  filter (λ e, (AnalyzedEvent.title e ∉ ignoredProjects)
               ∧ ¬ inherited (AnalyzedEvent.title e))
         processed.

(** The rule-resolved events with effective label [k] *)
Definition eventsLabelled (k : string)
    (processed : list (AnalyzedEvent.t num)) : list (AnalyzedEvent.t num) :=
  filter (λ e, AnalyzedEvent.title e = k) processed.

(** The color Stage 3 carries for an original key *)
Definition carriedColor (ignoredProjects : list string)
    (processed : list (AnalyzedEvent.t num)) (k : string) : option string :=
  ByOriginal.color <$> obj_get (aggregatedByOriginal ignoredProjects processed) k.

(** The input without the events whose effective label is [K] *)
Definition withoutLabel (projectRules : jsobj string) (K : string)
    (calendarImages : list (CalendarImage.t num)) : list (CalendarImage.t num) :=
  map (λ image,
         CalendarImage.mk (CalendarImage.id image) (CalendarImage.base64 image)
           (filter (λ e, AnalyzedEvent.title (applyRules projectRules e) ≠ K)
                   (CalendarImage.events image)))
      calendarImages.

(** The first palette entry that is not in [used] *)
Definition firstFree (used : gset string) : option string :=
  List.find (λ c, bool_decide (c ∉ used)) COLORS.

Definition colorsOf (projects : list (Project.t num)) : gset string :=
  list_to_set (map Project.color projects).

(** The fallback pass as the specification words it: each project that
    wants a fallback color takes the first palette entry not in use, and
    keeps its color when there is none left. *)
Fixpoint specFallback (userMappings : gmap string Mapping.t)
    (used : gset string) (projects : list (Project.t num))
    : list (Project.t num) :=
  match projects with
  | [] => []
  | p :: rest =>
      if wantsFallback userMappings p then
        match firstFree used with
        | Some c => withColor p c :: specFallback userMappings ({[c]} ∪ used) rest
        | None => p :: specFallback userMappings used rest
        end
      else p :: specFallback userMappings used rest
  end.

(** The variables of the fallback pass are sound when the palette entries
    before the cursor are all in use. *)
Definition cursorSound (used : gset string) (colorIndex : nat) : Prop :=
  (colorIndex ≤ length COLORS)%nat
  ∧ ∀ c, c ∈ take colorIndex COLORS → c ∈ used.

End notions.

(** ** Example inputs *)

Definition ev (title : string) (durationHours : float) (color : string)
    : AnalyzedEvent.t float :=
  AnalyzedEvent.mk title durationHours color.

Definition image {num : Type} (events : list (AnalyzedEvent.t num))
    : list (CalendarImage.t num) :=
  [CalendarImage.mk "1" "" events].

(** Thirteen events with distinct titles and no detected color: one more
    than the palette has entries *)
Definition thirteenEvents : list (AnalyzedEvent.t float) :=
  map (λ title, ev title 1 "#808080")
      ["a"; "b"; "c"; "d"; "e"; "f"; "g"; "h"; "i"; "j"; "k"; "l"; "m"].

(** A closed decidable proposition, by evaluation *)
Ltac by_evaluation := apply (bool_decide_unpack _); vm_compute; exact I.

(** ** The other handlers of [App] and of its panels *)

(** [delete o[k]] *)
Definition obj_delete {V : Type} (k : string) (o : jsobj V) : jsobj V :=
  filter (λ entry, entry.1 ≠ k) o.

(** [setIgnoredProjects(prev => [...new Set([...prev, ...originalNames])])]:
    a [Set] lists its elements in order of first insertion. *)
Definition handleDeleteProject (originalNames prev : list string) : list string :=
  firstOccurrences (prev ++ originalNames).

(** [setProjectRules(prev => ({ ...prev, [keyword]: targetProject }))]: the
    copy of [prev] has the keys of [prev] in their order. *)
Definition handleAddRule (keyword targetProject : string) (prev : jsobj string)
    : jsobj string :=
  obj_set keyword targetProject prev.

(** [setProjectRules(prev => { const newRules = {...prev};
    delete newRules[keyword]; return newRules; })] *)
Definition handleDeleteRule (keyword : string) (prev : jsobj string)
    : jsobj string :=
  obj_delete keyword prev.

(** [setCalendarImages(prev => prev.filter(img => img.id !== id))] *)
Definition handleDeleteImage {num : Type} (id : string)
    (prev : list (CalendarImage.t num)) : list (CalendarImage.t num) :=
  filter (λ img, CalendarImage.id img ≠ id) prev.

(** What [handleImageUpload] does to [calendarImages]: when the extraction
    service answers, [setCalendarImages(prev => [...prev, newImage])]; when it
    fails, nothing.  The service and the clock that names the image are
    outside: [outcome] is the image they produce, if any. *)
Definition handleImageUpload {num : Type} (outcome : option (CalendarImage.t num))
    (prev : list (CalendarImage.t num)) : list (CalendarImage.t num) :=
  match outcome with
  | Some newImage => prev ++ [newImage]
  | None => prev
  end.

(** [s.trim()], a parameter like [toLowerCase] *)
Class JsTrim := { trim : string → string }.

(** A string used as a condition: the empty string is falsy. *)
Definition truthy (s : string) : bool := bool_decide (s ≠ "").

(** [handleAdd] of [ProjectRulesManager], on the rules it is given through
    [onAddRule] and on its two input fields:
    [if (keyword.trim() && targetProject.trim()) {
       onAddRule(keyword.trim(), targetProject.trim());
       setKeyword(''); setTargetProject(''); }] *)
Definition ProjectRulesManager_handleAdd `{!JsTrim} (keyword targetProject : string)
    (rules : jsobj string) : jsobj string * (string * string) :=
  if truthy (trim keyword) && truthy (trim targetProject)
  then (handleAddRule (trim keyword) (trim targetProject) rules, ("", ""))
  else (rules, (keyword, targetProject)).

(** [handleEdit] of [ProjectRanking]: the new values of [editingProject],
    [newName] and [newColor]. *)
Definition ProjectRanking_handleEdit {num : Type} (project : Project.t num)
    : option (Project.t num) * (string * string) :=
  (Some project, (Project.name project, Project.color project)).

(** [handleSave] of [ProjectRanking], on the mappings it updates through
    [onUpdateProject] and on [editingProject]:
    [if (editingProject && newName.trim())
       onUpdateProject(editingProject.originalNames, newName.trim(), newColor);
     setEditingProject(null)] *)
Definition ProjectRanking_handleSave {num : Type} `{!JsTrim}
    (editingProject : option (Project.t num)) (newName newColor : string)
    (userMappings : gmap string Mapping.t)
    : gmap string Mapping.t * option (Project.t num) :=
  (match editingProject with
   | Some project =>
       if truthy (trim newName)
       then handleUpdateProject userMappings (Project.originalNames project)
              (trim newName) newColor userMappings
       else userMappings
   | None => userMappings
   end,
   None).

(** *** The state of [App] under its handlers *)

Module AppState.
Record t (num : Type) : Type :=
  mk { calendarImages : list (CalendarImage.t num);
       userMappings : gmap string Mapping.t;
       projectRules : jsobj string;
       ignoredProjects : list string }.
Arguments mk {num}.
Arguments calendarImages {num}.
Arguments userMappings {num}.
Arguments projectRules {num}.
Arguments ignoredProjects {num}.
End AppState.

(** What the user does, with what the panels pass to the handlers. *)
Inductive Action (num : Type) : Type :=
  | Upload (outcome : option (CalendarImage.t num))
  | DeleteImage (id : string)
  | SaveProject (editingProject : option (Project.t num)) (newName newColor : string)
  | DeleteProject (originalNames : list string)
  | AddRule (keyword targetProject : string)
  | DeleteRule (keyword : string).
Arguments Upload {num}.
Arguments DeleteImage {num}.
Arguments SaveProject {num}.
Arguments DeleteProject {num}.
Arguments AddRule {num}.
Arguments DeleteRule {num}.

Section app.
Context {num : Type} `{!JsNumber num} `{!JsCase} `{!JsTrim}.

(** [useState] of [App] *)
Definition initialState : AppState.t num := AppState.mk [] ∅ [] [].

Definition dispatch (s : AppState.t num) (a : Action num) : AppState.t num :=
  match a with
  | Upload outcome =>
      AppState.mk (handleImageUpload outcome (AppState.calendarImages s))
        (AppState.userMappings s) (AppState.projectRules s)
        (AppState.ignoredProjects s)
  | DeleteImage id =>
      AppState.mk (handleDeleteImage id (AppState.calendarImages s))
        (AppState.userMappings s) (AppState.projectRules s)
        (AppState.ignoredProjects s)
  | SaveProject editingProject newName newColor =>
      AppState.mk (AppState.calendarImages s)
        (ProjectRanking_handleSave editingProject newName newColor
           (AppState.userMappings s)).1
        (AppState.projectRules s) (AppState.ignoredProjects s)
  | DeleteProject originalNames =>
      AppState.mk (AppState.calendarImages s) (AppState.userMappings s)
        (AppState.projectRules s)
        (handleDeleteProject originalNames (AppState.ignoredProjects s))
  | AddRule keyword targetProject =>
      AppState.mk (AppState.calendarImages s) (AppState.userMappings s)
        (ProjectRulesManager_handleAdd keyword targetProject
           (AppState.projectRules s)).1
        (AppState.ignoredProjects s)
  | DeleteRule keyword =>
      AppState.mk (AppState.calendarImages s) (AppState.userMappings s)
        (handleDeleteRule keyword (AppState.projectRules s))
        (AppState.ignoredProjects s)
  end.

(** The state after a session that starts from [initialState] *)
Definition session (actions : list (Action num)) : AppState.t num :=
  fold_left dispatch actions initialState.

End app.

(** [trim] on strings of ASCII characters: spaces, tabs and line breaks *)
Definition ascii_space (c : ascii) : bool :=
  let n := N_of_ascii c in
  (n =? 32)%N || ((9 <=? n) && (n <=? 13))%N.

Fixpoint ascii_trimStart (s : string) : string :=
  match s with
  | EmptyString => EmptyString
  | String c s' => if ascii_space c then ascii_trimStart s' else s
  end.

Fixpoint ascii_trimEnd (s : string) : string :=
  match s with
  | EmptyString => EmptyString
  | String c s' =>
      match ascii_trimEnd s' with
      | EmptyString => if ascii_space c then EmptyString else String c EmptyString
      | rest => String c rest
      end
  end.

#[export] Instance ascii_JsTrim : JsTrim :=
  {| trim := λ s, ascii_trimEnd (ascii_trimStart s) |}.

(** * Properties *)

(** ** Objects *)

Section jsobj_facts.
Context {V : Type}.
Implicit Types (o : jsobj V) (k : string) (v : V).

Lemma Object_keys_cons k v o : Object_keys ((k, v) :: o) = k :: Object_keys o.
Proof. reflexivity. Qed.

Lemma obj_get_None o k : obj_get o k = None ↔ k ∉ Object_keys o.
Proof.
  unfold Object_keys. induction o as [|[k' v'] o IH]; simpl.
  - split; [intros _; apply not_elem_of_nil | done].
  - rewrite not_elem_of_cons.
    destruct (decide (k' = k)) as [-> | Hne].
    + split; [done | by intros [? _]].
    + rewrite IH. split; [by intros; split | by intros [_ ?]].
Qed.

Lemma obj_get_is_Some o k : is_Some (obj_get o k) ↔ k ∈ Object_keys o.
Proof.
  rewrite <- not_eq_None_Some, obj_get_None.
  split; [apply dec_stable | auto].
Qed.

Lemma obj_get_elem_of o k v : obj_get o k = Some v → (k, v) ∈ o.
Proof.
  induction o as [|[k' v'] o IH]; simpl; [done |].
  case_decide; subst.
  - intros [= ->]. left.
  - intros H'. right. auto.
Qed.

Lemma elem_of_obj_get o k v :
  NoDup (Object_keys o) → (k, v) ∈ o → obj_get o k = Some v.
Proof.
  unfold Object_keys.
  induction o as [|[k' v'] o IH]; simpl; [by intros _ ?%elem_of_nil |].
  rewrite NoDup_cons. intros [Hk' Hnd] Hin.
  apply elem_of_cons in Hin as [[= -> ->] | Hin].
  - by rewrite decide_True.
  - case_decide; subst; [| auto].
    exfalso. apply Hk'. apply (list_elem_of_fmap_2 fst) in Hin. done.
Qed.

Lemma obj_get_replace o k v k' :
  obj_get (obj_replace k v o) k'
  = if decide (k = k') then (λ _, v) <$> obj_get o k else obj_get o k'.
Proof.
  induction o as [|[k0 v0] o IH]; simpl; [by case_decide |].
  destruct (decide (k0 = k)) as [-> | Hne]; simpl.
  - destruct (decide (k = k')); simpl; done.
  - rewrite IH. destruct (decide (k = k')) as [<- | ?]; [by rewrite decide_False |].
    done.
Qed.

Lemma obj_get_insert o k v k' :
  obj_get o k = None →
  obj_get (obj_insert k v o) k' = if decide (k = k') then Some v else obj_get o k'.
Proof.
  induction o as [|[k0 v0] o IH]; simpl; [done |].
  destruct (decide (k0 = k)) as [-> | Hne]; [done |]. intros Hnone.
  destruct (key_before k k0); simpl; [done |].
  rewrite IH by done.
  destruct (decide (k = k')) as [<- | ?]; [by rewrite decide_False | done].
Qed.

Lemma obj_get_set o k v k' :
  obj_get (obj_set k v o) k' = if decide (k = k') then Some v else obj_get o k'.
Proof.
  unfold obj_set. destruct (obj_get o k) eqn:Hk.
  - rewrite obj_get_replace, Hk. done.
  - by apply obj_get_insert.
Qed.

Lemma obj_get_set_eq o k v : obj_get (obj_set k v o) k = Some v.
Proof. rewrite obj_get_set. by rewrite decide_True. Qed.

Lemma obj_get_set_ne o k v k' :
  k ≠ k' → obj_get (obj_set k v o) k' = obj_get o k'.
Proof. intros. rewrite obj_get_set. by rewrite decide_False. Qed.

Lemma Object_keys_replace o k v : Object_keys (obj_replace k v o) = Object_keys o.
Proof.
  unfold Object_keys. induction o as [|[k0 v0] o IH]; simpl; [done |].
  case_decide; subst; simpl; [done | f_equal; exact IH].
Qed.

Lemma Object_keys_insert o k v :
  Object_keys (obj_insert k v o) = key_insert k (Object_keys o).
Proof.
  unfold Object_keys. induction o as [|[k0 v0] o IH]; simpl; [done |].
  destruct (key_before k k0); simpl; [done | f_equal; exact IH].
Qed.

Lemma Object_keys_set_old o k v :
  k ∈ Object_keys o → Object_keys (obj_set k v o) = Object_keys o.
Proof.
  intros [w Hw]%obj_get_is_Some. unfold obj_set. rewrite Hw.
  apply Object_keys_replace.
Qed.

Lemma Object_keys_set_new o k v :
  k ∉ Object_keys o → Object_keys (obj_set k v o) = key_insert k (Object_keys o).
Proof.
  intros Hk%obj_get_None. unfold obj_set. rewrite Hk.
  apply Object_keys_insert.
Qed.

End jsobj_facts.

(** ** The order of keys *)

Lemma array_index_Some k n :
  array_index k = Some n →
  ∃ d, NilEmpty.uint_of_string k = Some d ∧ Decimal.unorm d = d
       ∧ N.of_uint d = n ∧ (n ≤ 4294967294)%N.
Proof.
  unfold array_index. destruct (NilEmpty.uint_of_string k) as [d|]; [| done].
  destruct (Decimal.uint_beq (Decimal.unorm d) d) eqn:Hnorm; [| done].
  apply Decimal.internal_uint_dec_bl in Hnorm.
  destruct (N.leb_spec (N.of_uint d) 4294967294); [| done].
  intros [= <-]. eauto.
Qed.

Lemma array_index_inj k k' n :
  array_index k = Some n → array_index k' = Some n → k = k'.
Proof.
  intros (d & Hd & Hnorm & Hn & _)%array_index_Some
         (d' & Hd' & Hnorm' & Hn' & _)%array_index_Some.
  assert (d = d') as <-.
  { rewrite <- Hnorm, <- Hnorm'. apply DecimalN.Unsigned.of_iff. congruence. }
  apply NilEmpty.sus in Hd, Hd'. congruence.
Qed.

Lemma key_before_may_precede k k' : key_before k k' = true → may_precede k k'.
Proof.
  unfold key_before, may_precede.
  destruct (array_index k), (array_index k'); try done.
  by intros ?%N.ltb_lt.
Qed.

Lemma not_key_before_may_precede k k' :
  k ≠ k' → key_before k k' = false → may_precede k' k.
Proof.
  unfold key_before, may_precede. intros Hne.
  destruct (array_index k) as [n|] eqn:Hk, (array_index k') as [n'|] eqn:Hk';
    try done.
  intros Hlt%N.ltb_ge. apply N.le_neq. split; [done |].
  intros ->. apply Hne. eauto using array_index_inj.
Qed.

Lemma may_precede_trans k1 k2 k3 :
  may_precede k1 k2 → may_precede k2 k3 → may_precede k1 k3.
Proof.
  unfold may_precede.
  destruct (array_index k1), (array_index k2), (array_index k3); try done.
  apply N.lt_trans.
Qed.

Lemma key_insert_perm k ks : key_insert k ks ≡ₚ k :: ks.
Proof.
  induction ks as [|k' ks IH]; simpl; [done |].
  destruct (key_before k k'); [done |].
  rewrite IH. apply Permutation_swap.
Qed.

Lemma elem_of_key_insert k ks x : x ∈ key_insert k ks ↔ x = k ∨ x ∈ ks.
Proof. rewrite key_insert_perm. apply elem_of_cons. Qed.

Lemma key_insert_not_index k ks :
  array_index k = None → key_insert k ks = ks ++ [k].
Proof.
  intros Hk. induction ks as [|k' ks IH]; simpl; [done |].
  unfold key_before. rewrite Hk. by rewrite IH.
Qed.

Lemma isArrayIndex_true k : isArrayIndex k ↔ is_Some (array_index k).
Proof. unfold isArrayIndex. apply bool_decide_spec. Qed.

Lemma isArrayIndex_false k : ¬ isArrayIndex k ↔ array_index k = None.
Proof. rewrite isArrayIndex_true. symmetry. apply eq_None_not_Some. Qed.

Lemma filter_not_index_key_insert k ks :
  filter (λ x, ¬ isArrayIndex x) (key_insert k ks)
  = filter (λ x, ¬ isArrayIndex x) ks ++ (if isArrayIndex k then [] else [k]).
Proof.
  destruct (isArrayIndex k) eqn:Hk.
  - rewrite app_nil_r. apply Is_true_true in Hk.
    induction ks as [|k' ks IH]; simpl.
    + by rewrite filter_cons_False by auto.
    + destruct (key_before k k').
      * by rewrite (filter_cons_False _ k) by auto.
      * rewrite !(filter_cons _ k'). by rewrite IH.
  - apply Is_true_false in Hk.
    rewrite key_insert_not_index by by apply isArrayIndex_false.
    rewrite filter_app. by rewrite (filter_cons_True _ k) by done.
Qed.

Lemma key_insert_sorted k ks :
  k ∉ ks → StronglySorted may_precede ks →
  StronglySorted may_precede (key_insert k ks).
Proof.
  intros Hk Hs. induction Hs as [|k' ks Hs IH Hall]; simpl.
  - repeat constructor.
  - apply not_elem_of_cons in Hk as [Hne Hk].
    destruct (key_before k k') eqn:Hb.
    + constructor; [by constructor |].
      apply key_before_may_precede in Hb.
      constructor; [done |].
      eapply Forall_impl; [exact Hall |]. eauto using may_precede_trans.
    + constructor; [auto |].
      apply Forall_forall. intros x [-> | Hx]%elem_of_key_insert.
      * by apply not_key_before_may_precede.
      * by eapply Forall_forall in Hall.
Qed.

Lemma elem_of_firstOccurrences l x : x ∈ firstOccurrences l ↔ x ∈ l.
Proof.
  revert x. induction l as [|a l IH]; intros x; simpl; [done |].
  rewrite !elem_of_cons, list_elem_of_filter, IH.
  destruct (decide (x = a)); naive_solver.
Qed.

Lemma NoDup_firstOccurrences l : NoDup (firstOccurrences l).
Proof.
  induction l as [|a l IH]; simpl; constructor.
  - rewrite list_elem_of_filter. naive_solver.
  - by apply NoDup_filter.
Qed.

Lemma firstOccurrences_snoc l x :
  firstOccurrences (l ++ [x])
  = if decide (x ∈ l) then firstOccurrences l else firstOccurrences l ++ [x].
Proof.
  induction l as [|a l IH]; simpl.
  - done.
  - rewrite IH. destruct (decide (x = a)) as [-> | Hne].
    + rewrite (decide_True (P := a ∈ a :: l)) by left.
      destruct (decide (a ∈ l)); [done |].
      rewrite filter_app. rewrite (filter_cons_False _ a) by auto.
      by rewrite app_nil_r.
    + destruct (decide (x ∈ l)) as [Hin | Hnin].
      * by rewrite decide_True by by right.
      * rewrite decide_False by (rewrite elem_of_cons; naive_solver).
        rewrite filter_app. by rewrite (filter_cons_True _ x) by done.
Qed.

Lemma keysOf_snoc l k : keysOf (l ++ [k]) = addKey (keysOf l) k.
Proof. unfold keysOf. by rewrite fold_left_app. Qed.

Lemma keysOf_ownKeyOrder created : ownKeyOrder created (keysOf created).
Proof.
  unfold ownKeyOrder.
  induction created as [|k l (Hnd & Hin & Hs & Hf)] using rev_ind.
  - split; [constructor | split; [done | split; [constructor | done]]].
  - rewrite keysOf_snoc, firstOccurrences_snoc. unfold addKey.
    destruct (decide (k ∈ keysOf l)) as [Hk | Hk].
    + rewrite decide_True by by apply Hin.
      split; [done | split; [| done]].
      intros x. rewrite elem_of_app, list_elem_of_singleton, Hin.
      split; [auto | intros [? | ->]; [done | by apply Hin]].
    + rewrite decide_False by by rewrite <- Hin.
      split; [| split; [| split]].
      * rewrite key_insert_perm. by constructor.
      * intros x.
        rewrite elem_of_key_insert, elem_of_app, list_elem_of_singleton, Hin.
        tauto.
      * by apply key_insert_sorted.
      * rewrite filter_not_index_key_insert, filter_app, Hf. f_equal.
        destruct (isArrayIndex k) eqn:Hidx.
        -- apply Is_true_true in Hidx. by rewrite filter_cons_False by auto.
        -- apply Is_true_false in Hidx. by rewrite filter_cons_True by done.
Qed.

Lemma elem_of_keysOf l k : k ∈ keysOf l ↔ k ∈ l.
Proof. apply keysOf_ownKeyOrder. Qed.

Lemma NoDup_keysOf l : NoDup (keysOf l).
Proof. apply keysOf_ownKeyOrder. Qed.

(** ** Stage 1: rule resolution *)

Section stage1.
Context {num : Type} `{!JsNumber num} `{!JsCase}.
Implicit Types (event e : AnalyzedEvent.t num) (projectRules : jsobj string).

Lemma matchingRuleKey_occursIn projectRules event k :
  matchingRuleKey projectRules event = Some k →
  k ∈ Object_keys projectRules ∧ occursIn k (AnalyzedEvent.title event) = true.
Proof.
  intros [Hin Hocc]%find_some. split; [by apply list_elem_of_In | done].
Qed.

Lemma matchingRuleKey_has_target projectRules event k :
  matchingRuleKey projectRules event = Some k →
  is_Some (obj_get projectRules k).
Proof. intros [Hin _]%matchingRuleKey_occursIn. by apply obj_get_is_Some. Qed.

Lemma find_rule projectRules title :
  match List.find (λ rule, occursIn rule.1 title) projectRules with
  | Some rule =>
      List.find (λ keyword, occursIn keyword title) (Object_keys projectRules)
      = Some rule.1
      ∧ obj_get projectRules rule.1 = Some rule.2
  | None =>
      List.find (λ keyword, occursIn keyword title) (Object_keys projectRules)
      = None
  end.
Proof.
  unfold Object_keys.
  induction projectRules as [|[k0 t0] rules IH]; simpl; [done |].
  destruct (occursIn k0 title) eqn:Hk0; simpl.
  - by rewrite decide_True.
  - destruct (List.find _ rules) as [[k t]|] eqn:Hfind; [| done].
    destruct IH as [IH1 IH2]. split; [done |].
    simpl in *. rewrite decide_False; [done |].
    intros ->. apply find_some in Hfind as [_ Hk]. simpl in Hk. congruence.
Qed.

Lemma applyRules_durationHours projectRules event :
  AnalyzedEvent.durationHours (applyRules projectRules event)
  = AnalyzedEvent.durationHours event.
Proof.
  unfold applyRules. destruct (matchingRuleKey _ _); [| done].
  case_decide; [done |]. by destruct (obj_get _ _).
Qed.

Lemma applyRules_color projectRules event :
  AnalyzedEvent.color (applyRules projectRules event) = AnalyzedEvent.color event.
Proof.
  unfold applyRules. destruct (matchingRuleKey _ _); [| done].
  case_decide; [done |]. by destruct (obj_get _ _).
Qed.

(** What [applyRules] does to the title, the falsy empty keyword included. *)
Lemma applyRules_title projectRules event :
  AnalyzedEvent.title (applyRules projectRules event)
  = match List.find (λ rule, occursIn rule.1 (AnalyzedEvent.title event))
                    (Object_entries projectRules) with
    | Some rule => if decide (rule.1 = "") then AnalyzedEvent.title event else rule.2
    | None => AnalyzedEvent.title event
    end.
Proof.
  pose proof (find_rule projectRules (AnalyzedEvent.title event)) as Hrule.
  unfold applyRules, matchingRuleKey, Object_entries.
  unfold occursIn in *.
  destruct (List.find _ projectRules) as [[k t]|]; simpl in *.
  - destruct Hrule as [-> ->]. by case_decide.
  - by rewrite Hrule.
Qed.

Lemma applyRules_specLabel projectRules event :
  "" ∉ Object_keys projectRules →
  AnalyzedEvent.title (applyRules projectRules event)
  = specLabel projectRules (AnalyzedEvent.title event).
Proof.
  intros Hempty. rewrite applyRules_title. unfold specLabel.
  destruct (List.find _ _) as [[k t]|] eqn:Hfind; [| done]. simpl.
  rewrite decide_False; [done |]. intros ->. apply Hempty.
  apply find_some in Hfind as [Hin _]. apply list_elem_of_In in Hin.
  by apply (list_elem_of_fmap_2 fst) in Hin.
Qed.

End stage1.

(** ** Stage 3: aggregation by original key *)

Lemma inherited_spec k : inherited k ↔ k ∈ OBJECT_PROTOTYPE.
Proof. unfold inherited. apply bool_decide_spec. Qed.

Lemma inheritedName_not_inherited k : ¬ inherited k → inheritedName k = "".
Proof.
  intros Hk%Is_true_false. unfold inheritedName. rewrite Hk.
  case_decide as H1; [by subst |]. by case_decide.
Qed.

(** A key that has no mapping entry and names no member of
    [Object.prototype] displays under its own name. *)
Lemma displayNameOf_unmapped (m : gmap string Mapping.t) k :
  m !! k = None → ¬ inherited k → displayNameOf m k = k.
Proof.
  intros Hm Hk. unfold displayNameOf, or_else.
  rewrite Hm, inheritedName_not_inherited by done. by rewrite decide_True.
Qed.

Section stage3.
Context {num : Type} `{!JsNumber num}.
Implicit Types (agg : jsobj (ByOriginal.t num)) (e : AnalyzedEvent.t num).
Implicit Types (ign : list string) (P : list (AnalyzedEvent.t num)).

Lemma addOriginal_ignored ign agg e :
  AnalyzedEvent.title e ∈ ign → addOriginal ign agg e = agg.
Proof. intros Hin. unfold addOriginal, Array_includes. by rewrite bool_decide_eq_true_2. Qed.

(** A title that names a member of [Object.prototype] is not counted. *)
Lemma addOriginal_inherited ign agg e :
  inherited (AnalyzedEvent.title e) → AnalyzedEvent.title e ∉ Object_keys agg →
  addOriginal ign agg e = agg.
Proof.
  intros Hinh%Is_true_true Hk%obj_get_None. unfold addOriginal.
  destruct (Array_includes ign _); [done |].
  rewrite Hk, Hinh. by rewrite Hk.
Qed.

Lemma addOriginal_get ign agg e k :
  AnalyzedEvent.title e ∉ ign → ¬ inherited (AnalyzedEvent.title e) →
  obj_get (addOriginal ign agg e) k
  = if decide (AnalyzedEvent.title e = k) then
      let d := default (ByOriginal.mk num_zero (AnalyzedEvent.color e))
                       (obj_get agg k) in
      Some (ByOriginal.mk
              (num_add (ByOriginal.duration d) (AnalyzedEvent.durationHours e))
              (ByOriginal.color d))
    else obj_get agg k.
Proof.
  intros Hin Hinh%Is_true_false. unfold addOriginal, Array_includes.
  rewrite bool_decide_eq_false_2 by done.
  destruct (obj_get agg (AnalyzedEvent.title e)) as [d|] eqn:Hget.
  - rewrite Hget, obj_get_set. case_decide; [subst; by rewrite Hget | done].
  - rewrite Hinh, obj_get_set_eq, !obj_get_set.
    case_decide; [subst; by rewrite Hget | done].
Qed.

Lemma addOriginal_get_ne ign agg e k :
  AnalyzedEvent.title e ≠ k → obj_get (addOriginal ign agg e) k = obj_get agg k.
Proof.
  intros Hne. unfold addOriginal.
  destruct (Array_includes ign _); [done |].
  destruct (obj_get agg (AnalyzedEvent.title e)) as [d|] eqn:Hget.
  - rewrite Hget. by apply obj_get_set_ne.
  - destruct (inherited _); [by rewrite Hget |].
    rewrite obj_get_set_eq. by rewrite !obj_get_set_ne.
Qed.

(** The entry of the title after an event that is not ignored *)
Lemma addOriginal_get_title ign agg e :
  AnalyzedEvent.title e ∉ ign →
  obj_get (addOriginal ign agg e) (AnalyzedEvent.title e)
  = match obj_get agg (AnalyzedEvent.title e) with
    | Some d =>
        Some (ByOriginal.mk
                (num_add (ByOriginal.duration d) (AnalyzedEvent.durationHours e))
                (ByOriginal.color d))
    | None =>
        if inherited (AnalyzedEvent.title e) then None
        else Some (ByOriginal.mk
                     (num_add num_zero (AnalyzedEvent.durationHours e))
                     (AnalyzedEvent.color e))
    end.
Proof.
  intros Hin. unfold addOriginal, Array_includes.
  rewrite bool_decide_eq_false_2 by done.
  destruct (obj_get agg (AnalyzedEvent.title e)) as [d|] eqn:Hget.
  - by rewrite Hget, obj_get_set_eq.
  - destruct (inherited (AnalyzedEvent.title e)); [by rewrite Hget |].
    by rewrite !obj_get_set_eq.
Qed.

(** The entry of a title keeps its color. *)
Lemma addOriginal_get_own ign agg e d :
  obj_get agg (AnalyzedEvent.title e) = Some d →
  ∃ d', obj_get (addOriginal ign agg e) (AnalyzedEvent.title e) = Some d'
        ∧ ByOriginal.color d' = ByOriginal.color d.
Proof.
  intros Hget. unfold addOriginal.
  destruct (Array_includes ign _); [by exists d |].
  rewrite !Hget, obj_get_set_eq. by eexists.
Qed.

Lemma addOriginal_get_skipped ign agg e k :
  k ∈ ign ∨ inherited k → obj_get agg k = None →
  obj_get (addOriginal ign agg e) k = None.
Proof.
  intros Hskip Hnone.
  destruct (decide (AnalyzedEvent.title e = k)) as [<- | Hne];
    [| by rewrite addOriginal_get_ne].
  destruct Hskip as [Hin | Hinh].
  - by rewrite addOriginal_ignored.
  - rewrite addOriginal_inherited; [done | done |]. by apply obj_get_None.
Qed.

Lemma Object_keys_addOriginal ign agg e :
  Object_keys (addOriginal ign agg e)
  = if decide ((AnalyzedEvent.title e ∉ ign) ∧ ¬ inherited (AnalyzedEvent.title e))
    then addKey (Object_keys agg) (AnalyzedEvent.title e)
    else Object_keys agg.
Proof.
  destruct (decide (AnalyzedEvent.title e ∈ ign)) as [Hin | Hin].
  { rewrite addOriginal_ignored by done. rewrite decide_False; [done | tauto]. }
  unfold addOriginal, Array_includes, addKey.
  rewrite bool_decide_eq_false_2 by done.
  destruct (obj_get agg (AnalyzedEvent.title e)) as [d|] eqn:Hget.
  - rewrite Hget. assert (AnalyzedEvent.title e ∈ Object_keys agg) as Hk
      by (apply obj_get_is_Some; eauto).
    rewrite (decide_True (P := _ ∈ Object_keys agg)) by done.
    rewrite Object_keys_set_old by done. by case_decide.
  - apply obj_get_None in Hget as Hk.
    destruct (inherited (AnalyzedEvent.title e)) eqn:Hinh.
    + rewrite Hget. rewrite decide_False; [done |]. intros [_ Hn]. by apply Hn.
    + rewrite decide_True by (split; [done | by intros ?]).
      rewrite (decide_False (P := _ ∈ Object_keys agg)) by done.
      rewrite obj_get_set_eq.
      rewrite Object_keys_set_old, Object_keys_set_new; [done | done |].
      apply obj_get_is_Some. rewrite obj_get_set_eq. eauto.
Qed.

Lemma Object_keys_fold_addOriginal ign P agg :
  Object_keys (fold_left (addOriginal ign) P agg)
  = fold_left addKey (map AnalyzedEvent.title (survivingEvents ign P))
              (Object_keys agg).
Proof.
  revert agg. induction P as [|e P IH]; intros agg; simpl; [done |].
  rewrite IH, Object_keys_addOriginal. unfold survivingEvents.
  case_decide.
  - by rewrite filter_cons_True by done.
  - by rewrite filter_cons_False by done.
Qed.

Lemma Object_keys_aggregatedByOriginal ign P :
  Object_keys (aggregatedByOriginal ign P)
  = keysOf (map AnalyzedEvent.title (survivingEvents ign P)).
Proof. apply Object_keys_fold_addOriginal. Qed.

Lemma elem_of_survivingEvents ign P k :
  k ∈ map AnalyzedEvent.title (survivingEvents ign P)
  ↔ (k ∉ ign) ∧ (¬ inherited k) ∧ (k ∈ map AnalyzedEvent.title P).
Proof.
  unfold survivingEvents. rewrite !list_elem_of_fmap. split.
  - intros (e & -> & [[? ?] ?]%list_elem_of_filter). eauto.
  - intros (? & ? & e & -> & ?). exists e. by rewrite list_elem_of_filter.
Qed.

(** The keys of [aggregatedByOriginal] are the labels Stage 3 counts. *)
Lemma elem_of_Object_keys_aggregatedByOriginal ign P k :
  k ∈ Object_keys (aggregatedByOriginal ign P)
  ↔ (k ∉ ign) ∧ (¬ inherited k) ∧ (k ∈ map AnalyzedEvent.title P).
Proof.
  by rewrite Object_keys_aggregatedByOriginal, elem_of_keysOf,
    elem_of_survivingEvents.
Qed.

Lemma shadowsNothing_aggregatedByOriginal ign P :
  shadowsNothing (aggregatedByOriginal ign P).
Proof. intros k Hk%elem_of_Object_keys_aggregatedByOriginal. tauto. Qed.

Lemma color_fold_addOriginal ign P agg k :
  ByOriginal.color <$> obj_get (fold_left (addOriginal ign) P agg) k
  = match obj_get agg k with
    | Some d => Some (ByOriginal.color d)
    | None =>
        if decide (k ∈ ign ∨ inherited k) then None
        else AnalyzedEvent.color <$> head (eventsLabelled k P)
    end.
Proof.
  revert agg. induction P as [|e P IH]; intros agg; simpl.
  - destruct (obj_get agg k); [done |]. by case_decide.
  - rewrite IH. unfold eventsLabelled.
    destruct (decide (AnalyzedEvent.title e = k)) as [<- | Hne].
    + rewrite filter_cons_True by done.
      destruct (obj_get agg (AnalyzedEvent.title e)) as [d|] eqn:Hget.
      * destruct (addOriginal_get_own ign agg e d Hget) as (d' & -> & ->). done.
      * case_decide as Hskip.
        -- by rewrite addOriginal_get_skipped.
        -- rewrite addOriginal_get, Hget by tauto. by rewrite decide_True.
    + rewrite addOriginal_get_ne by done. by rewrite filter_cons_False.
Qed.

Lemma carriedColor_first ign P k :
  carriedColor ign P k
  = if decide (k ∈ ign ∨ inherited k) then None
    else AnalyzedEvent.color <$> head (eventsLabelled k P).
Proof. unfold carriedColor, aggregatedByOriginal. by rewrite color_fold_addOriginal. Qed.

(** The duration of an entry is the running sum of the durations of the
    events with its label. *)
Lemma duration_fold_addOriginal ign P agg k d :
  k ∉ ign → ¬ inherited k →
  obj_get (fold_left (addOriginal ign) P agg) k = Some d →
  ByOriginal.duration d
  = fold_left num_add (map AnalyzedEvent.durationHours (eventsLabelled k P))
      (default num_zero (ByOriginal.duration <$> obj_get agg k)).
Proof.
  intros Hk Hinh. unfold eventsLabelled. revert agg.
  induction P as [|e P IH]; intros agg; cbn [fold_left].
  - by intros ->.
  - intros Hd. apply IH in Hd. rewrite Hd. clear Hd IH.
    destruct (decide (AnalyzedEvent.title e = k)) as [<- | Hne].
    + rewrite addOriginal_get, decide_True by done.
      rewrite filter_cons_True by done. cbn [map fold_left].
      by destruct (obj_get agg _).
    + rewrite addOriginal_get_ne by done. by rewrite filter_cons_False.
Qed.

Lemma duration_aggregatedByOriginal ign P k d :
  obj_get (aggregatedByOriginal ign P) k = Some d →
  ByOriginal.duration d
  = total (map AnalyzedEvent.durationHours (eventsLabelled k P)).
Proof.
  intros Hd.
  assert (k ∈ Object_keys (aggregatedByOriginal ign P)) as Hk
    by (apply obj_get_is_Some; eauto).
  apply elem_of_Object_keys_aggregatedByOriginal in Hk as (? & ? & _).
  by apply (duration_fold_addOriginal ign P [] k d).
Qed.

End stage3.

(** ** Stage 4: aggregation by display name *)

Lemma fmap_fst_filter {V : Type} (P : string → Prop) (Q : string * V → Prop)
    `{!∀ k, Decision (P k)} `{!∀ entry, Decision (Q entry)}
    (o : list (string * V)) :
  (∀ entry, Q entry ↔ P entry.1) →
  (filter Q o).*1 = filter P o.*1.
Proof.
  intros HPQ. induction o as [|[k v] o IH]; [done |].
  rewrite fmap_cons. simpl fst.
  destruct (decide (P k)) as [HP | HP].
  - rewrite !filter_cons_True by (done || by apply HPQ).
    rewrite fmap_cons. by rewrite IH.
  - rewrite (filter_cons_False P) by done.
    rewrite (filter_cons_False Q); [done |]. by intros ?%HPQ.
Qed.

Lemma forEach_app {S A : Type} (f : S → A → option S) (l1 l2 : list A) (st : S) :
  forEach f (l1 ++ l2) st = forEach f l1 st ≫= forEach f l2.
Proof.
  revert st. induction l1 as [|x l1 IH]; intros st; simpl; [done |].
  destruct (f st x); simpl; [apply IH | done].
Qed.

Lemma forEach_snoc {S A : Type} (f : S → A → option S) (l : list A) (x : A)
    (st st' : S) :
  forEach f (l ++ [x]) st = Some st'
  ↔ ∃ st0, forEach f l st = Some st0 ∧ f st0 x = Some st'.
Proof.
  rewrite forEach_app. destruct (forEach f l st) as [st0|]; simpl.
  - destruct (f st0 x) as [st1|] eqn:Hx.
    + split; [intros [= <-]; eauto | by intros (? & [= <-] & ?); simplify_eq].
    + split; [done | by intros (? & [= <-] & ?); simplify_eq].
  - split; [done | by intros (? & ? & _)].
Qed.

Section stage4.
Context {num : Type} `{!JsNumber num}.
Implicit Types (agg : jsobj (ByDisplay.t num)) (data : ByOriginal.t num).
Implicit Types (m : gmap string Mapping.t) (L : jsobj (ByOriginal.t num)).

(** What the body of the loop does: it throws exactly when the display name
    names a member of [Object.prototype] that no own entry shadows. *)
Lemma addDisplay_spec m agg k data :
  match addDisplay m agg (k, data) with
  | Some agg' =>
      (displayNameOf m k ∈ Object_keys agg ∨ ¬ inherited (displayNameOf m k))
      ∧ Object_keys agg' = addKey (Object_keys agg) (displayNameOf m k)
      ∧ ∀ n,
          obj_get agg' n
          = if decide (displayNameOf m k = n) then
              let d := default (ByDisplay.mk num_zero (displayColorOf m k data) [])
                               (obj_get agg n) in
              Some (ByDisplay.mk
                      (num_add (ByDisplay.duration d) (ByOriginal.duration data))
                      (displayColorOf m k data)
                      (if Array_includes (ByDisplay.originalNames d) k
                       then ByDisplay.originalNames d
                       else ByDisplay.originalNames d ++ [k]))
            else obj_get agg n
  | None =>
      inherited (displayNameOf m k) ∧ displayNameOf m k ∉ Object_keys agg
  end.
Proof.
  unfold addDisplay, addKey.
  destruct (obj_get agg (displayNameOf m k)) as [d|] eqn:Hget.
  - rewrite Hget.
    assert (displayNameOf m k ∈ Object_keys agg) as Hk
      by (apply obj_get_is_Some; eauto).
    split; [by left | split].
    + rewrite decide_True by done. by apply Object_keys_set_old.
    + intros n. rewrite obj_get_set. case_decide; [subst; by rewrite Hget | done].
  - apply obj_get_None in Hget as Hk.
    destruct (inherited (displayNameOf m k)) eqn:Hinh.
    + rewrite Hget. split; [done | done].
    + rewrite obj_get_set_eq. split; [right; by intros ? | split].
      * rewrite decide_False by done.
        rewrite Object_keys_set_old, Object_keys_set_new; [done | done |].
        apply obj_get_is_Some. rewrite obj_get_set_eq. eauto.
      * intros n. rewrite !obj_get_set.
        case_decide; [subst; by rewrite Hget | done].
Qed.

Lemma addDisplay_Some m agg k data agg' :
  addDisplay m agg (k, data) = Some agg' →
  (displayNameOf m k ∈ Object_keys agg ∨ ¬ inherited (displayNameOf m k))
  ∧ Object_keys agg' = addKey (Object_keys agg) (displayNameOf m k)
  ∧ ∀ n,
      obj_get agg' n
      = if decide (displayNameOf m k = n) then
          let d := default (ByDisplay.mk num_zero (displayColorOf m k data) [])
                           (obj_get agg n) in
          Some (ByDisplay.mk
                  (num_add (ByDisplay.duration d) (ByOriginal.duration data))
                  (displayColorOf m k data)
                  (if Array_includes (ByDisplay.originalNames d) k
                   then ByDisplay.originalNames d
                   else ByDisplay.originalNames d ++ [k]))
        else obj_get agg n.
Proof.
  intros Hagg. pose proof (addDisplay_spec m agg k data) as Hspec.
  by rewrite Hagg in Hspec.
Qed.

Lemma addDisplay_is_Some m agg k data :
  displayNameOf m k ∈ Object_keys agg ∨ ¬ inherited (displayNameOf m k) →
  is_Some (addDisplay m agg (k, data)).
Proof.
  intros Hok. pose proof (addDisplay_spec m agg k data) as Hspec.
  destruct (addDisplay m agg (k, data)); [by eexists |].
  destruct Hspec as [Hinh Hk]. by destruct Hok.
Qed.

Lemma elem_of_addKey ks k x : x ∈ addKey ks k ↔ x = k ∨ x ∈ ks.
Proof.
  unfold addKey. case_decide; [| apply elem_of_key_insert].
  split; [auto | by intros [-> | ?]].
Qed.

Lemma forEach_addDisplay_keys m L agg agg' :
  forEach (addDisplay m) L agg = Some agg' →
  Object_keys agg'
  = fold_left addKey (map (displayNameOf m) (Object_keys L)) (Object_keys agg).
Proof.
  revert agg. induction L as [|[k data] L IH]; intros agg; [by intros [= <-] |].
  rewrite Object_keys_cons. cbn [forEach fold_left map].
  destruct (addDisplay m agg (k, data)) as [agg1|] eqn:H1; [| done].
  intros Hagg%IH. rewrite Hagg.
  by apply addDisplay_Some in H1 as (_ & -> & _).
Qed.

(** The loop returns exactly when no display name names a member of
    [Object.prototype]. *)
Lemma forEach_addDisplay_is_Some m L agg :
  shadowsNothing agg →
  is_Some (forEach (addDisplay m) L agg)
  ↔ ∀ k, k ∈ Object_keys L → ¬ inherited (displayNameOf m k).
Proof.
  revert agg. induction L as [|[k data] L IH]; intros agg Hagg.
  - split; [by intros _ k ?%elem_of_nil | by eexists].
  - rewrite Object_keys_cons. cbn [forEach].
    pose proof (addDisplay_spec m agg k data) as Hspec.
    destruct (addDisplay m agg (k, data)) as [agg1|].
    + destruct Hspec as (Hok & Hkeys & _).
      assert (¬ inherited (displayNameOf m k)) as Hk
        by (destruct Hok; [by apply Hagg | done]).
      rewrite IH.
      * split; [| by intros H k' ?; apply H; right].
        by intros H k' [-> | ?]%elem_of_cons; [| apply H].
      * intros k'. rewrite Hkeys, elem_of_addKey. intros [-> | ?]; [done |].
        by apply Hagg.
    + destruct Hspec as [Hinh _]. split; [by intros [? ?] |].
      intros H. exfalso. apply (H k); [left | done].
Qed.

Lemma aggregatedByDisplay_keys m L agg :
  aggregatedByDisplay m L = Some agg →
  Object_keys agg = keysOf (map (displayNameOf m) (Object_keys L)).
Proof. apply forEach_addDisplay_keys. Qed.

Lemma aggregatedByDisplay_is_Some m L :
  is_Some (aggregatedByDisplay m L)
  ↔ ∀ k, k ∈ Object_keys L → ¬ inherited (displayNameOf m k).
Proof. apply forEach_addDisplay_is_Some. by intros k ?%elem_of_nil. Qed.

(** The entry of a display name after the original entries [L]. *)
Lemma aggregatedByDisplay_get m L agg n :
  NoDup (Object_keys L) → aggregatedByDisplay m L = Some agg →
  match obj_get agg n with
  | None => filter (λ entry, displayNameOf m entry.1 = n) L = []
  | Some d =>
      ByDisplay.originalNames d
      = (filter (λ entry, displayNameOf m entry.1 = n) L).*1
      ∧ ByDisplay.duration d
        = total (map (λ entry, ByOriginal.duration entry.2)
                   (filter (λ entry, displayNameOf m entry.1 = n) L))
      ∧ ∃ k data,
          last (filter (λ entry, displayNameOf m entry.1 = n) L) = Some (k, data)
          ∧ ByDisplay.color d = displayColorOf m k data
  end.
Proof.
  unfold aggregatedByDisplay, Object_entries, Object_keys. revert agg.
  induction L as [|[k data] L IH] using rev_ind; intros agg Hnd;
    [by intros [= <-] |].
  rewrite fmap_app in Hnd. apply NoDup_app in Hnd as (Hnd & Hk & _).
  intros (agg0 & Hagg0 & Hagg)%forEach_snoc.
  specialize (IH agg0 Hnd Hagg0).
  apply addDisplay_Some in Hagg as (_ & _ & Hget). rewrite Hget. clear Hget.
  rewrite filter_app.
  destruct (decide (displayNameOf m k = n)) as [Hn | Hn].
  - rewrite (filter_cons_True _ (k, data)) by done. rewrite filter_nil.
    assert (k ∉ (filter (λ entry, displayNameOf m entry.1 = n) L).*1) as Hfresh.
    { intros ([k0 d0] & -> & [_ Hin]%list_elem_of_filter)%list_elem_of_fmap.
      apply (Hk k0); [| left]. by apply (list_elem_of_fmap_2 fst) in Hin. }
    assert (∀ x : num,
              total (map (λ entry, ByOriginal.duration entry.2)
                       (filter (λ entry, displayNameOf m entry.1 = n) L
                        ++ [(k, data)]))
              = x
              ↔ num_add
                  (total (map (λ entry, ByOriginal.duration entry.2)
                            (filter (λ entry, displayNameOf m entry.1 = n) L)))
                  (ByOriginal.duration data)
                = x) as Htotal.
    { intros x. unfold total. by rewrite map_app, fold_left_app. }
    destruct (obj_get agg0 n) as [d|]; cbn [default from_option id
      ByDisplay.originalNames ByDisplay.color ByDisplay.duration].
    + destruct IH as (Hnames & Hdur & _). rewrite Hnames.
      unfold Array_includes. rewrite bool_decide_eq_false_2 by done.
      rewrite fmap_app. split; [done | split].
      * symmetry. apply Htotal. by rewrite Hdur.
      * exists k, data. by rewrite last_snoc.
    + split; [by rewrite IH | split].
      * symmetry. apply Htotal. by rewrite IH.
      * exists k, data. by rewrite last_snoc.
  - rewrite (filter_cons_False _ (k, data)) by done. rewrite filter_nil, app_nil_r.
    done.
Qed.

End stage4.

(** ** The projects before the fallback pass *)

Section final_projects.
Context {num : Type} `{!JsNumber num} `{!JsCase}.
Implicit Types (calendarImages : list (CalendarImage.t num)).
Implicit Types (userMappings : gmap string Mapping.t) (p : Project.t num).
Implicit Types (ignoredProjects : list string) (projectRules : jsobj string).
Implicit Types (before output : list (Project.t num)).

Lemma NoDup_Object_keys_aggregatedByOriginal ignoredProjects
    (P : list (AnalyzedEvent.t num)) :
  NoDup (Object_keys (aggregatedByOriginal ignoredProjects P)).
Proof. rewrite Object_keys_aggregatedByOriginal. apply NoDup_keysOf. Qed.

Lemma NoDup_Object_keys_aggregatedByDisplay userMappings
    (L : jsobj (ByOriginal.t num)) (agg : jsobj (ByDisplay.t num)) :
  aggregatedByDisplay userMappings L = Some agg → NoDup (Object_keys agg).
Proof. intros ->%aggregatedByDisplay_keys. apply NoDup_keysOf. Qed.

Lemma finalProjects_Some calendarImages userMappings ignoredProjects
    projectRules before :
  finalProjects calendarImages userMappings ignoredProjects projectRules
  = Some before
  ↔ ∃ agg,
      aggregatedByDisplay userMappings
        (aggregatedByOriginal ignoredProjects
           (processedEvents calendarImages projectRules))
      = Some agg
      ∧ before
        = map (λ '(name, data),
                 Project.mk name (ByDisplay.duration data) (ByDisplay.color data)
                            (ByDisplay.originalNames data))
              agg.
Proof. unfold finalProjects, Object_entries. apply fmap_Some. Qed.

(** The engine throws exactly when an original key displays under a name
    that names a member of [Object.prototype]. *)
Lemma finalProjects_is_Some calendarImages userMappings ignoredProjects
    projectRules :
  is_Some (finalProjects calendarImages userMappings ignoredProjects projectRules)
  ↔ ∀ k, k ∈ Object_keys
               (aggregatedByOriginal ignoredProjects
                  (processedEvents calendarImages projectRules)) →
         ¬ inherited (displayNameOf userMappings k).
Proof.
  unfold finalProjects. rewrite fmap_is_Some. apply aggregatedByDisplay_is_Some.
Qed.

Lemma displayProjects_Some calendarImages userMappings ignoredProjects
    projectRules output :
  displayProjects calendarImages userMappings ignoredProjects projectRules
  = Some output
  ↔ ∃ before,
      finalProjects calendarImages userMappings ignoredProjects projectRules
      = Some before
      ∧ output = assignFallbackColors userMappings before.
Proof. unfold displayProjects. apply fmap_Some. Qed.

Lemma displayProjects_is_Some calendarImages userMappings ignoredProjects
    projectRules :
  is_Some (displayProjects calendarImages userMappings ignoredProjects
             projectRules)
  ↔ is_Some (finalProjects calendarImages userMappings ignoredProjects
               projectRules).
Proof. unfold displayProjects. apply fmap_is_Some. Qed.

Lemma finalProjects_names calendarImages userMappings ignoredProjects
    projectRules before :
  finalProjects calendarImages userMappings ignoredProjects projectRules
  = Some before →
  map Project.name before
  = keysOf
      (map (displayNameOf userMappings)
         (Object_keys
            (aggregatedByOriginal ignoredProjects
               (processedEvents calendarImages projectRules)))).
Proof.
  intros (agg & Hagg & ->)%finalProjects_Some.
  rewrite <- (aggregatedByDisplay_keys _ _ _ Hagg). unfold Object_keys.
  rewrite map_map. apply map_ext. by intros [n d].
Qed.

Lemma elem_of_finalProjects calendarImages userMappings ignoredProjects
    projectRules before p :
  finalProjects calendarImages userMappings ignoredProjects projectRules
  = Some before →
  p ∈ before →
  ∃ agg,
    aggregatedByDisplay userMappings
      (aggregatedByOriginal ignoredProjects
         (processedEvents calendarImages projectRules))
    = Some agg
    ∧ obj_get agg (Project.name p)
      = Some (ByDisplay.mk (Project.duration p) (Project.color p)
                           (Project.originalNames p)).
Proof.
  intros (agg & Hagg & ->)%finalProjects_Some
         ([n [d c ns]] & -> & Hin)%list_elem_of_fmap.
  exists agg. split; [done |]. simpl.
  apply elem_of_obj_get; [by eapply NoDup_Object_keys_aggregatedByDisplay | done].
Qed.

(** The original names, the duration and the color of a project before the
    fallback pass, from the keys and entries of [aggregatedByOriginal]. *)
Lemma finalProjects_project calendarImages userMappings ignoredProjects
    projectRules before p :
  finalProjects calendarImages userMappings ignoredProjects projectRules
  = Some before →
  p ∈ before →
  let processed := processedEvents calendarImages projectRules in
  let byOriginal := aggregatedByOriginal ignoredProjects processed in
  Project.originalNames p
  = filter (λ k, displayNameOf userMappings k = Project.name p)
           (Object_keys byOriginal)
  ∧ Project.duration p
    = total
        (map (λ k, total (map AnalyzedEvent.durationHours
                            (eventsLabelled k processed)))
             (Project.originalNames p))
  ∧ ∃ k data,
      last (Project.originalNames p) = Some k
      ∧ obj_get byOriginal k = Some data
      ∧ Project.color p = displayColorOf userMappings k data.
Proof.
  intros Hfinal Hp processed byOriginal.
  destruct (elem_of_finalProjects _ _ _ _ _ _ Hfinal Hp) as (agg & Hagg & Hpget).
  pose proof (aggregatedByDisplay_get userMappings byOriginal agg (Project.name p)
                (NoDup_Object_keys_aggregatedByOriginal _ _) Hagg) as Hget.
  rewrite Hpget in Hget. simpl in Hget.
  destruct Hget as (Hnames & Hdur & k & data & Hlast & Hcolor).
  split; [| split].
  - rewrite Hnames. unfold Object_keys. by apply fmap_fst_filter.
  - rewrite Hdur, Hnames. f_equal. rewrite (map_map fst). apply map_ext_in.
    intros [k' data'] [_ Hin]%list_elem_of_In%list_elem_of_filter. simpl.
    apply (duration_aggregatedByOriginal ignoredProjects).
    apply elem_of_obj_get; [apply NoDup_Object_keys_aggregatedByOriginal | done].
  - exists k, data. split; [| split; [| done]].
    + by rewrite Hnames, fmap_last, Hlast.
    + apply elem_of_obj_get; [apply NoDup_Object_keys_aggregatedByOriginal |].
      apply last_Some_elem_of in Hlast.
      by apply list_elem_of_filter in Hlast as [_ ?].
Qed.

End final_projects.
(** ** Stage 5: the fallback pass *)

Section stage5.
Context {num : Type}.
Implicit Types (m : gmap string Mapping.t) (p q : Project.t num).
Implicit Types (used : gset string) (ps : list (Project.t num)).

Lemma firstFree_Some used c : firstFree used = Some c → c ∈ COLORS ∧ c ∉ used.
Proof.
  intros [Hin Hc]%find_some. split; [by apply list_elem_of_In |].
  by apply bool_decide_eq_true in Hc.
Qed.

Lemma firstFree_None used c : firstFree used = None → c ∈ COLORS → c ∈ used.
Proof.
  intros Hnone Hin%list_elem_of_In.
  apply (find_none _ _ Hnone) in Hin. apply bool_decide_eq_false in Hin.
  by apply dec_stable.
Qed.

(** The loop stops at the first palette entry that is not in use, given
    that the entries it starts after are all in use. *)
Lemma skipUsed_find used pre rest :
  (∀ c, c ∈ pre → c ∈ used) →
  let j := skipUsed used rest (length pre) in
  (pre ++ rest) !! j = List.find (λ c, bool_decide (c ∉ used)) (pre ++ rest)
  ∧ (j ≤ length (pre ++ rest))%nat
  ∧ ∀ c, c ∈ take j (pre ++ rest) → c ∈ used.
Proof.
  revert pre. induction rest as [|c rest IH]; intros pre Hpre; simpl.
  - rewrite app_nil_r. split; [| split].
    + rewrite lookup_ge_None_2 by done. symmetry.
      induction pre as [|a pre IHpre]; simpl; [done |].
      rewrite bool_decide_eq_false_2; [apply IHpre | ].
      * intros ? ?. apply Hpre. by right.
      * intros Hna. apply Hna, Hpre. left.
    + done.
    + by rewrite firstn_all.
  - destruct (bool_decide (c ∈ used)) eqn:Hc.
    + apply bool_decide_eq_true in Hc.
      specialize (IH (pre ++ [c])). rewrite length_app, Nat.add_1_r in IH.
      rewrite <- app_assoc in IH. apply IH.
      intros x [? | ->%list_elem_of_singleton]%elem_of_app; auto.
    + apply bool_decide_eq_false in Hc. split; [| split].
      * rewrite list_lookup_middle by done. symmetry.
        clear IH. induction pre as [|a pre IHpre]; simpl.
        -- by rewrite bool_decide_eq_true_2.
        -- rewrite bool_decide_eq_false_2; [apply IHpre | ].
           ++ intros ? ?. apply Hpre. by right.
           ++ intros Hna. apply Hna, Hpre. left.
      * rewrite length_app. lia.
      * by rewrite take_app_length.
Qed.

Lemma nextFree_cursorSound used colorIndex :
  cursorSound used colorIndex →
  COLORS !! nextFree used colorIndex = firstFree used
  ∧ cursorSound used (nextFree used colorIndex).
Proof.
  intros [Hle Hpre]. unfold nextFree, firstFree, cursorSound.
  pose proof (skipUsed_find used (take colorIndex COLORS)
                (drop colorIndex COLORS) Hpre) as Hskip.
  rewrite take_drop, length_take_le in Hskip by done.
  destruct Hskip as (? & ? & ?). done.
Qed.

Lemma cursorSound_next used j c :
  cursorSound used j → COLORS !! j = Some c →
  cursorSound ({[c]} ∪ used) (S j).
Proof.
  intros [Hle Hpre] Hc. split.
  - by apply lookup_lt_Some in Hc.
  - intros x. rewrite (take_S_r _ _ c) by done.
    intros [? | ->%list_elem_of_singleton]%elem_of_app; set_solver.
Qed.

Lemma assignFallbackColors_specFallback_from m used colorIndex ps :
  cursorSound used colorIndex →
  mapWithState (assignColor m) (used, colorIndex) ps = specFallback m used ps.
Proof.
  revert used colorIndex.
  induction ps as [|p ps IH]; intros used colorIndex Hok; simpl; [done |].
  destruct (wantsFallback m p); [| by rewrite (IH _ _ Hok)].
  destruct (nextFree_cursorSound _ _ Hok) as [Hnext Hok']. rewrite Hnext.
  destruct (firstFree used) as [c|].
  - by rewrite (IH _ _ (cursorSound_next _ _ _ Hok' Hnext)).
  - by rewrite (IH _ _ Hok').
Qed.

(** The pass with its cursor computes what the specification says. *)
Lemma assignFallbackColors_specFallback m ps :
  assignFallbackColors m ps = specFallback m (colorsOf ps) ps.
Proof.
  apply assignFallbackColors_specFallback_from. split; [simpl; lia | ].
  by intros c ?%elem_of_nil.
Qed.

Lemma specFallback_length m used ps :
  length (specFallback m used ps) = length ps.
Proof.
  revert used. induction ps as [|p ps IH]; intros used; simpl; [done |].
  destruct (wantsFallback m p); [destruct (firstFree used) |]; simpl;
    by rewrite IH.
Qed.

Lemma specFallback_name m used ps :
  map Project.name (specFallback m used ps) = map Project.name ps.
Proof.
  revert used. induction ps as [|p ps IH]; intros used; simpl; [done |].
  destruct (wantsFallback m p); [destruct (firstFree used) |]; simpl;
    by rewrite IH.
Qed.

Lemma specFallback_duration m used ps :
  map Project.duration (specFallback m used ps) = map Project.duration ps.
Proof.
  revert used. induction ps as [|p ps IH]; intros used; simpl; [done |].
  destruct (wantsFallback m p); [destruct (firstFree used) |]; simpl;
    by rewrite IH.
Qed.

Lemma specFallback_originalNames m used ps :
  map Project.originalNames (specFallback m used ps)
  = map Project.originalNames ps.
Proof.
  revert used. induction ps as [|p ps IH]; intros used; simpl; [done |].
  destruct (wantsFallback m p); [destruct (firstFree used) |]; simpl;
    by rewrite IH.
Qed.

Lemma colorsOf_cons p ps : colorsOf (p :: ps) = {[Project.color p]} ∪ colorsOf ps.
Proof. done. Qed.

(** Position by position: the color a project takes is the first palette
    entry that is neither in [used] nor the color of an earlier project of
    the output. *)
Lemma specFallback_lookup m used ps i p :
  colorsOf ps ⊆ used → ps !! i = Some p →
  specFallback m used ps !! i
  = Some (if wantsFallback m p then
            match firstFree (used ∪ colorsOf (take i (specFallback m used ps))) with
            | Some c => withColor p c
            | None => p
            end
          else p).
Proof.
  revert used i. induction ps as [|p0 ps IH]; intros used i Hsub Hi; [done |].
  rewrite colorsOf_cons in Hsub.
  destruct i as [|i]; simpl in Hi.
  - injection Hi as ->. simpl.
    replace (used ∪ colorsOf (@nil (Project.t num))) with used
      by (unfold colorsOf; set_solver).
    destruct (wantsFallback m p); [destruct (firstFree used) |]; done.
  - simpl.
    destruct (wantsFallback m p0) eqn:Hw0; [destruct (firstFree used) as [c|] |];
      simpl; rewrite colorsOf_cons; simpl.
    + rewrite (IH ({[c]} ∪ used) i) by (done || set_solver).
      by replace (used ∪ ({[c]} ∪ colorsOf (take i (specFallback m ({[c]} ∪ used) ps))))
        with ({[c]} ∪ used ∪ colorsOf (take i (specFallback m ({[c]} ∪ used) ps)))
        by set_solver.
    + rewrite (IH used i) by (done || set_solver).
      by replace (used ∪ ({[Project.color p0]} ∪ colorsOf (take i (specFallback m used ps))))
        with (used ∪ colorsOf (take i (specFallback m used ps)))
        by set_solver.
    + rewrite (IH used i) by (done || set_solver).
      by replace (used ∪ ({[Project.color p0]} ∪ colorsOf (take i (specFallback m used ps))))
        with (used ∪ colorsOf (take i (specFallback m used ps)))
        by set_solver.
Qed.

End stage5.

(** ** Re-applying the rules *)

Section reapply.
Context {num : Type} `{!JsNumber num} `{!JsCase}.

Lemma applyRules_stable (projectRules : jsobj string) (e : AnalyzedEvent.t num) :
  (∀ k t k', obj_get projectRules k = Some t → k' ∈ Object_keys projectRules →
             occursIn k' t = true → obj_get projectRules k' = Some t) →
  applyRules projectRules (applyRules projectRules e) = applyRules projectRules e.
Proof.
  intros Hstable.
  assert (applyRules projectRules e = e
          ∨ ∃ k t, obj_get projectRules k = Some t
                   ∧ applyRules projectRules e
                     = AnalyzedEvent.mk t (AnalyzedEvent.durationHours e)
                                        (AnalyzedEvent.color e))
    as [Hsame | (k & t & Ht & Hnew)].
  { unfold applyRules. destruct (matchingRuleKey projectRules e) as [k|]; [| by left].
    case_decide; [by left |].
    destruct (obj_get projectRules k) as [t|] eqn:Ht; [| by left].
    right. by exists k, t. }
  - by rewrite !Hsame.
  - rewrite Hnew. unfold applyRules.
    destruct (matchingRuleKey projectRules _) as [k1|] eqn:Hk1; [| done].
    case_decide; [done |].
    apply matchingRuleKey_occursIn in Hk1 as [Hin Hocc]. simpl in Hocc.
    by rewrite (Hstable k t k1 Ht Hin Hocc).
Qed.

End reapply.

(** ** Ignored keys *)

Section ignore.
Context {num : Type} `{!JsNumber num} `{!JsCase}.
Implicit Types (ign : list string) (P : list (AnalyzedEvent.t num)).

Lemma processedEvents_withoutLabel projectRules K
    (calendarImages : list (CalendarImage.t num)) :
  processedEvents (withoutLabel projectRules K calendarImages) projectRules
  = filter (λ e, AnalyzedEvent.title e ≠ K)
           (processedEvents calendarImages projectRules).
Proof.
  unfold processedEvents, withoutLabel.
  induction calendarImages as [|image images IH]; [done |].
  cbn [map flat_map CalendarImage.events]. rewrite !map_app, filter_app, IH.
  f_equal. clear IH.
  induction (CalendarImage.events image) as [|e es IHes]; [done |].
  cbn [map]. destruct (decide (AnalyzedEvent.title (applyRules projectRules e) = K)).
  - rewrite !filter_cons_False by auto. done.
  - rewrite !filter_cons_True by done. cbn [map]. by rewrite IHes.
Qed.

Lemma fold_addOriginal_filter ign P K (agg : jsobj (ByOriginal.t num)) :
  K ∈ ign →
  fold_left (addOriginal ign) (filter (λ e, AnalyzedEvent.title e ≠ K) P) agg
  = fold_left (addOriginal ign) P agg.
Proof.
  intros HK. revert agg. induction P as [|e P IH]; intros agg; [done |].
  destruct (decide (AnalyzedEvent.title e = K)) as [He | He].
  - rewrite filter_cons_False by auto. cbn [fold_left].
    rewrite addOriginal_ignored by by rewrite He. apply IH.
  - rewrite filter_cons_True by done. cbn [fold_left]. apply IH.
Qed.

Lemma displayProjects_withoutLabel calendarImages userMappings ign projectRules K :
  K ∈ ign →
  displayProjects (withoutLabel projectRules K calendarImages) userMappings ign
    projectRules
  = displayProjects calendarImages userMappings ign projectRules.
Proof.
  intros HK. unfold displayProjects, finalProjects.
  rewrite processedEvents_withoutLabel. unfold aggregatedByOriginal.
  by rewrite fold_addOriginal_filter.
Qed.

End ignore.

(** ** The output and the projects before the fallback pass *)

Section output.
Context {num : Type} `{!JsNumber num} `{!JsCase}.

Lemma elem_of_specFallback m used (ps : list (Project.t num)) q :
  q ∈ specFallback m used ps →
  ∃ p, p ∈ ps ∧ (q = p ∨ ∃ c, q = withColor p c).
Proof.
  revert used. induction ps as [|p ps IH]; intros used; simpl;
    [by intros ?%elem_of_nil |].
  assert (∀ used', q ∈ specFallback m used' ps →
                   ∃ p', p' ∈ p :: ps ∧ (q = p' ∨ ∃ c, q = withColor p' c)) as IH'.
  { intros used' (p' & ? & ?)%IH. exists p'. split; [by right | done]. }
  destruct (wantsFallback m p); [destruct (firstFree used) as [c|] |];
    (intros [-> | Hq]%elem_of_cons; [| by eapply IH']); exists p.
  - split; [left | right; by exists c].
  - split; [left | by left].
  - split; [left | by left].
Qed.

(** Every project of the pass is a project it was given with, at most,
    another color. *)
Lemma elem_of_assignFallbackColors m (ps : list (Project.t num)) q :
  q ∈ assignFallbackColors m ps →
  ∃ p, p ∈ ps
       ∧ Project.name q = Project.name p
       ∧ Project.duration q = Project.duration p
       ∧ Project.originalNames q = Project.originalNames p.
Proof.
  rewrite assignFallbackColors_specFallback.
  intros (p & Hp & [-> | [c ->]])%elem_of_specFallback; exists p; done.
Qed.

(** Every project of the output is a project of [finalProjects] with, at
    most, another color. *)
Lemma elem_of_displayProjects calendarImages userMappings ignoredProjects
    projectRules (output : list (Project.t num)) (q : Project.t num) :
  displayProjects calendarImages userMappings ignoredProjects projectRules
  = Some output →
  q ∈ output →
  ∃ before p,
    finalProjects calendarImages userMappings ignoredProjects projectRules
    = Some before
    ∧ p ∈ before
    ∧ Project.name q = Project.name p
    ∧ Project.duration q = Project.duration p
    ∧ Project.originalNames q = Project.originalNames p.
Proof.
  intros (before & Hfinal & ->)%displayProjects_Some
         (p & ? & ?)%elem_of_assignFallbackColors.
  by exists before, p.
Qed.

End output.
(** ** The mutator *)

Section mutator.
Implicit Types (m prev : gmap string Mapping.t) (k : string).

(** Every entry named [newName] has the color [newColor]. *)
Lemma recolorAll_lookup displayName newColor m k :
  recolorAll displayName newColor m !! k
  = (λ mapping,
       if decide (Mapping.name mapping = displayName)
       then Mapping.mk (Mapping.name mapping) newColor
       else mapping) <$> m !! k.
Proof. unfold recolorAll. apply lookup_fmap. Qed.

Lemma updateOne_keeps_recolored userMappings newName newColor m originalName :
  (∀ k e, m !! k = Some e → Mapping.name e = newName → Mapping.color e = newColor) →
  ∀ k e, updateOne userMappings newName newColor m originalName !! k = Some e →
         Mapping.name e = newName → Mapping.color e = newColor.
Proof.
  intros Hm k e. unfold updateOne.
  destruct (decide (originalName = k)) as [-> | Hne].
  - rewrite lookup_insert_eq. by intros [= <-].
  - rewrite lookup_insert_ne by done.
    case_decide as Hdn; [| exact (Hm k e)].
    rewrite recolorAll_lookup.
    destruct (m !! k) as [e0|] eqn:Hk; [| done]. simpl.
    case_decide; intros [= <-]; [done |]. by apply (Hm k).
Qed.

Lemma updateOne_recolors userMappings newName newColor m originalName :
  displayNameOf userMappings originalName = newName →
  ∀ k e, updateOne userMappings newName newColor m originalName !! k = Some e →
         Mapping.name e = newName → Mapping.color e = newColor.
Proof.
  intros Hdn k e. unfold updateOne. rewrite decide_True by done.
  destruct (decide (originalName = k)) as [-> | Hne].
  - rewrite lookup_insert_eq. by intros [= <-].
  - rewrite lookup_insert_ne by done. rewrite recolorAll_lookup.
    destruct (m !! k) as [e0|] eqn:Hk; [| done]. simpl.
    case_decide; intros [= <-]; [done | congruence].
Qed.

Lemma handleUpdateProject_keeps_recolored userMappings originalNames newName
    newColor prev :
  (∀ k e, prev !! k = Some e → Mapping.name e = newName → Mapping.color e = newColor) →
  ∀ k e, handleUpdateProject userMappings originalNames newName newColor prev !! k
         = Some e →
         Mapping.name e = newName → Mapping.color e = newColor.
Proof.
  unfold handleUpdateProject. revert prev.
  induction originalNames as [|o names IH]; intros prev Hprev; [done |].
  cbn [fold_left]. apply IH. by apply updateOne_keeps_recolored.
Qed.

Lemma handleUpdateProject_recolors userMappings originalNames newName newColor
    prev A :
  A ∈ originalNames → displayNameOf userMappings A = newName →
  ∀ k e, handleUpdateProject userMappings originalNames newName newColor prev !! k
         = Some e →
         Mapping.name e = newName → Mapping.color e = newColor.
Proof.
  unfold handleUpdateProject. revert prev.
  induction originalNames as [|o names IH]; intros prev HA Hdn;
    [by apply elem_of_nil in HA |].
  cbn [fold_left]. apply elem_of_cons in HA as [<- | HA].
  - apply (handleUpdateProject_keeps_recolored userMappings names).
    by apply updateOne_recolors.
  - by apply IH.
Qed.

Lemma updateOne_keeps_name userMappings newName newColor m originalName k :
  (∃ e, m !! k = Some e ∧ Mapping.name e = newName) →
  ∃ e, updateOne userMappings newName newColor m originalName !! k = Some e
       ∧ Mapping.name e = newName.
Proof.
  intros (e & Hk & Hname). unfold updateOne.
  destruct (decide (originalName = k)) as [-> | Hne].
  - rewrite lookup_insert_eq. eauto.
  - rewrite lookup_insert_ne by done.
    case_decide; [| eauto]. rewrite recolorAll_lookup, Hk. simpl.
    case_decide; eauto.
Qed.

Lemma handleUpdateProject_keeps_name userMappings originalNames newName newColor
    prev k :
  (∃ e, prev !! k = Some e ∧ Mapping.name e = newName) →
  ∃ e, handleUpdateProject userMappings originalNames newName newColor prev !! k
       = Some e
       ∧ Mapping.name e = newName.
Proof.
  unfold handleUpdateProject. revert prev.
  induction originalNames as [|o names IH]; intros prev Hprev; [done |].
  cbn [fold_left]. apply IH. by apply updateOne_keeps_name.
Qed.

End mutator.

(** ** The output, position by position *)

Section positions.
Context {num : Type} `{!JsNumber num} `{!JsCase}.
Implicit Types (calendarImages : list (CalendarImage.t num)).
Implicit Types (userMappings : gmap string Mapping.t) (p q : Project.t num).
Implicit Types (ignoredProjects : list string) (projectRules : jsobj string).
Implicit Types (before : list (Project.t num)).

Lemma elem_of_colorsOf (ps : list (Project.t num)) c :
  c ∈ colorsOf ps ↔ ∃ p, p ∈ ps ∧ Project.color p = c.
Proof.
  unfold colorsOf. rewrite elem_of_list_to_set, list_elem_of_fmap.
  split; intros (p & ? & ?); exists p; done.
Qed.

Lemma assignFallbackColors_length userMappings before :
  length (assignFallbackColors userMappings before) = length before.
Proof. by rewrite assignFallbackColors_specFallback, specFallback_length. Qed.

Lemma assignFallbackColors_lookup userMappings before i p :
  let output := assignFallbackColors userMappings before in
  before !! i = Some p →
  output !! i
  = Some (if wantsFallback userMappings p then
            match firstFree (colorsOf before ∪ colorsOf (take i output)) with
            | Some c => withColor p c
            | None => p
            end
          else p).
Proof.
  intros output Hp. unfold output.
  rewrite assignFallbackColors_specFallback.
  by apply specFallback_lookup.
Qed.

(** A color the pass assigns is the color of no other project of the output. *)
Lemma assignFallbackColors_assigned_unique userMappings before i j p q' c :
  let output := assignFallbackColors userMappings before in
  before !! i = Some p → wantsFallback userMappings p = true →
  firstFree (colorsOf before ∪ colorsOf (take i output)) = Some c →
  i ≠ j → output !! j = Some q' →
  Project.color q' ≠ c.
Proof.
  intros output Hp Hw Hc Hij Hq'.
  apply firstFree_Some in Hc as Hfree. destruct Hfree as [_ Hfree].
  apply not_elem_of_union in Hfree as [Hbefore Hearlier].
  destruct (decide (j < i)%nat) as [Hlt | Hge].
  - intros Heq. apply Hearlier, elem_of_colorsOf. exists q'. split; [| done].
    apply list_elem_of_lookup. exists j. by rewrite lookup_take_lt.
  - assert (i < j)%nat as Hlt by lia.
    assert (is_Some (before !! j)) as [p' Hp'].
    { apply lookup_lt_is_Some.
      rewrite <- (assignFallbackColors_length userMappings).
      by eapply lookup_lt_Some. }
    pose proof (assignFallbackColors_lookup userMappings before j p' Hp') as Hj.
    fold output in Hj. rewrite Hq' in Hj. injection Hj as Hj.
    assert (Project.color p' ≠ c) as Hp'c.
    { intros Heq. apply Hbefore, elem_of_colorsOf. exists p'. split; [| done].
      by eapply list_elem_of_lookup_2. }
    destruct (wantsFallback userMappings p'); [| by subst].
    destruct (firstFree (colorsOf before ∪ colorsOf (take j output)))
      as [c'|] eqn:Hc'; [| by subst].
    subst q'. simpl. apply firstFree_Some in Hc' as [_ Hfree'].
    intros ->. apply Hfree', elem_of_union. right.
    apply elem_of_colorsOf. exists (withColor p c). split; [| done].
    apply list_elem_of_lookup. exists i. rewrite lookup_take_lt by done.
    pose proof (assignFallbackColors_lookup userMappings before i p Hp) as Hi.
    fold output in Hi. by rewrite Hw, Hc in Hi.
Qed.

(** A list that is given position by position, from a list of the same
    length and from its own earlier elements, is determined. *)
Lemma positionwise_unique {A B : Type} (g : A → list B → B) (l : list A)
    (out out' : list B) :
  length out = length l → length out' = length l →
  (∀ i x, l !! i = Some x → out !! i = Some (g x (take i out))) →
  (∀ i x, l !! i = Some x → out' !! i = Some (g x (take i out'))) →
  out = out'.
Proof.
  intros Hlen Hlen' Hout Hout'.
  assert (∀ n, (n ≤ length l)%nat → take n out = take n out') as Htake.
  { induction n as [|n IH]; intros Hn; [done |].
    destruct (lookup_lt_is_Some_2 l n) as [x Hx]; [lia |].
    rewrite (take_S_r out n (g x (take n out))) by by apply Hout.
    rewrite (take_S_r out' n (g x (take n out'))) by by apply Hout'.
    by rewrite IH by lia. }
  rewrite <- (take_ge out (length l)), <- (take_ge out' (length l)) by lia.
  by apply Htake.
Qed.

Lemma wantsFallback_true userMappings p :
  wantsFallback userMappings p = true
  ↔ (∀ mapping, userMappings !! firstOriginalName p = Some mapping →
                Mapping.color mapping = "")
    ∧ Project.color p = SENTINEL.
Proof.
  unfold wantsFallback, hasUserColor.
  rewrite andb_true_iff, negb_true_iff, bool_decide_eq_true.
  destruct (userMappings !! firstOriginalName p) as [mapping|].
  - rewrite bool_decide_eq_false. split.
    + intros [Hc ?]. split; [| done]. intros ? [= <-]. by apply dec_stable.
    + intros [Hc ?]. split; [| done]. intros Hne. by apply Hne, Hc.
  - split; intros [_ ?]; done.
Qed.

(** Every project before the fallback pass is in the output, with its name,
    duration and original names. *)
Lemma assignFallbackColors_of_final userMappings before p :
  p ∈ before →
  ∃ q, q ∈ assignFallbackColors userMappings before
       ∧ Project.name q = Project.name p
       ∧ Project.duration q = Project.duration p
       ∧ Project.originalNames q = Project.originalNames p.
Proof.
  intros [i Hi]%list_elem_of_lookup.
  pose proof (assignFallbackColors_lookup userMappings before i p Hi) as Hq.
  simpl in Hq.
  eexists. split; [by eapply list_elem_of_lookup_2 |].
  destruct (wantsFallback userMappings p); [destruct (firstFree _) |]; done.
Qed.

(** The project an original key is folded into. *)
Lemma finalProjects_of_key calendarImages userMappings ignoredProjects
    projectRules before k :
  finalProjects calendarImages userMappings ignoredProjects projectRules
  = Some before →
  k ∈ Object_keys
        (aggregatedByOriginal ignoredProjects
           (processedEvents calendarImages projectRules)) →
  ∃ p, p ∈ before
       ∧ Project.name p = displayNameOf userMappings k
       ∧ k ∈ Project.originalNames p.
Proof.
  intros Hfinal Hk.
  assert (displayNameOf userMappings k ∈ map Project.name before)
    as (p & Hname & Hp)%list_elem_of_fmap.
  { rewrite (finalProjects_names _ _ _ _ _ Hfinal), elem_of_keysOf.
    by apply list_elem_of_fmap_2. }
  exists p. split; [done | split; [done |]].
  apply (finalProjects_project _ _ _ _ _ _ Hfinal) in Hp as [-> _].
  by apply list_elem_of_filter.
Qed.

End positions.

(** ** Every counted event is counted once *)

Lemma flat_map_filter_ext {A B : Type} (f g : B → list A) (bs : list B) :
  (∀ b, b ∈ bs → f b = g b) → flat_map f bs = flat_map g bs.
Proof.
  induction bs as [|b bs IH]; intros Hext; [done |]. cbn [flat_map].
  rewrite Hext by left. f_equal. apply IH. intros b' ?. apply Hext. by right.
Qed.

Lemma flat_map_flat_map {A B C : Type} (f : A → list B) (g : B → list C)
    (l : list A) :
  flat_map g (flat_map f l) = flat_map (λ a, flat_map g (f a)) l.
Proof.
  induction l as [|a l IH]; [done |]. cbn [flat_map].
  by rewrite flat_map_app, IH.
Qed.

(** Grouping a list by a key, over keys without repetition that cover the
    list, rearranges the list. *)
Lemma flat_map_filter_by_key {A B : Type} `{!EqDecision B} (f : A → B)
    (bs : list B) (l : list A) :
  NoDup bs → (∀ a, a ∈ l → f a ∈ bs) →
  flat_map (λ b, filter (λ a, f a = b) l) bs ≡ₚ l.
Proof.
  intros Hnd. revert l. induction Hnd as [|b bs Hb Hnd IH]; intros l Hl.
  - destruct l as [|a l]; [done |].
    specialize (Hl a). by apply elem_of_nil in Hl; [| left].
  - cbn [flat_map].
    etrans; [| apply (filter_app_complement (λ a, f a = b) l)].
    apply Permutation_app_head.
    rewrite (flat_map_filter_ext _
               (λ b', filter (λ a, f a = b') (filter (λ a, f a ≠ b) l))).
    + apply IH. intros a [Hne Ha]%list_elem_of_filter.
      apply Hl in Ha. by apply elem_of_cons in Ha as [? | ?].
    + intros b' Hb'. symmetry. apply list_filter_filter_l.
      intros a -> ->. done.
Qed.

Lemma flat_map_fmap {A B C : Type} (f : B → list C) (g : A → B)
    (h : A → list C) (l : list A) :
  (∀ a, a ∈ l → h a = f (g a)) → flat_map h l = flat_map f (map g l).
Proof.
  induction l as [|a l IH]; intros Hext; [done |]. cbn [map flat_map].
  rewrite Hext by left. f_equal. apply IH. intros a' ?. apply Hext. by right.
Qed.

Section contributions.
Context {num : Type} `{!JsNumber num} `{!JsCase}.

Lemma eventsLabelled_surviving ign (P : list (AnalyzedEvent.t num)) k :
  k ∉ ign → ¬ inherited k →
  eventsLabelled k (survivingEvents ign P) = eventsLabelled k P.
Proof.
  intros Hk Hinh. unfold eventsLabelled, survivingEvents.
  apply list_filter_filter_l. by intros e ->.
Qed.

(** The events that the projects add up, project by project and original
    name by original name, are the counted events, each once. *)
Lemma finalProjects_contributions (calendarImages : list (CalendarImage.t num))
    userMappings ignoredProjects projectRules before :
  finalProjects calendarImages userMappings ignoredProjects projectRules
  = Some before →
  flat_map
    (λ p, flat_map
            (λ k, eventsLabelled k (processedEvents calendarImages projectRules))
            (Project.originalNames p))
    before
  ≡ₚ survivingEvents ignoredProjects
       (processedEvents calendarImages projectRules).
Proof.
  intros Hfinal.
  set (P := processedEvents calendarImages projectRules).
  set (keys := Object_keys (aggregatedByOriginal ignoredProjects P)).
  rewrite (flat_map_fmap
    (λ n, flat_map (λ k, eventsLabelled k P)
            (filter (λ k, displayNameOf userMappings k = n) keys))
    Project.name).
  2: { intros p Hp.
       by destruct (finalProjects_project _ _ _ _ _ _ Hfinal Hp) as [-> _]. }
  rewrite (finalProjects_names _ _ _ _ _ Hfinal). fold P keys.
  rewrite <- (flat_map_flat_map
    (λ n, filter (λ k, displayNameOf userMappings k = n) keys)).
  rewrite (flat_map_filter_by_key (displayNameOf userMappings)).
  - rewrite (flat_map_filter_ext _
      (λ k, filter (λ e, AnalyzedEvent.title e = k)
              (survivingEvents ignoredProjects P))).
    + apply flat_map_filter_by_key.
      * apply NoDup_Object_keys_aggregatedByOriginal.
      * intros e He. unfold keys.
        rewrite Object_keys_aggregatedByOriginal, elem_of_keysOf.
        by apply list_elem_of_fmap_2.
    + intros k (? & ? & _)%elem_of_Object_keys_aggregatedByOriginal.
      symmetry. by apply eventsLabelled_surviving.
  - apply NoDup_keysOf.
  - intros k Hk. rewrite elem_of_keysOf. by apply list_elem_of_fmap_2.
Qed.

End contributions.

Lemma flat_map_originalNames {num X : Type} m (before : list (Project.t num))
    (F : list string → list X) :
  flat_map (λ p, F (Project.originalNames p)) (assignFallbackColors m before)
  = flat_map (λ p, F (Project.originalNames p)) before.
Proof.
  rewrite !(flat_map_fmap F Project.originalNames) by done.
  by rewrite assignFallbackColors_specFallback, specFallback_originalNames.
Qed.
(** ** The first free palette entry *)

Lemma find_Some_lookup {A : Type} (P : A → bool) (l : list A) (x : A) :
  List.find P l = Some x
  ↔ ∃ n, l !! n = Some x ∧ P x = true
         ∧ ∀ n' x', (n' < n)%nat → l !! n' = Some x' → P x' = false.
Proof.
  induction l as [|a l IH]; simpl.
  - split; [done | by intros (n & ? & _)].
  - destruct (P a) eqn:Ha.
    + split.
      * intros [= <-]. exists 0%nat. split; [done | split; [done |]]. lia.
      * intros (n & Hn & Hx & Hbefore).
        destruct n as [|n]; [simpl in Hn; by injection Hn as -> |].
        specialize (Hbefore 0%nat a). rewrite Ha in Hbefore.
        by discriminate Hbefore; [lia |].
    + rewrite IH. split.
      * intros (n & Hn & Hx & Hbefore). exists (S n).
        split; [done | split; [done |]]. intros [|n'] x' Hlt Hx'.
        -- simpl in Hx'. by simplify_eq.
        -- apply (Hbefore n'); [lia | done].
      * intros (n & Hn & Hx & Hbefore). destruct n as [|n].
        -- simpl in Hn. injection Hn as ->. congruence.
        -- exists n. split; [done | split; [done |]]. intros n' x' Hlt Hx'.
           apply (Hbefore (S n')); [lia | done].
Qed.

(** [firstFree] is the first entry of the palette, in its order, that is
    not in use. *)
Lemma firstFree_spec (used : gset string) :
  match firstFree used with
  | Some c =>
      ∃ n, COLORS !! n = Some c ∧ (c ∉ used)
           ∧ ∀ n' c', (n' < n)%nat → COLORS !! n' = Some c' → c' ∈ used
  | None => ∀ c, c ∈ COLORS → c ∈ used
  end.
Proof.
  destruct (firstFree used) as [c|] eqn:Hfree.
  - apply find_Some_lookup in Hfree as (n & Hn & Hc & Hbefore).
    exists n. split; [done | split].
    + by apply bool_decide_eq_true in Hc.
    + intros n' c' Hlt Hc'. specialize (Hbefore n' c' Hlt Hc').
      apply bool_decide_eq_false in Hbefore. by apply dec_stable.
  - intros c. by apply firstFree_None.
Qed.
Lemma filter_all {A : Type} (P : A → Prop) `{!∀ x, Decision (P x)} (l : list A) :
  (∀ x, x ∈ l → P x) → filter P l = l.
Proof.
  induction l as [|a l IH]; intros Hall; [done |].
  rewrite filter_cons_True by (apply Hall; left).
  f_equal. apply IH. intros x Hx. apply Hall. by right.
Qed.

(** * The claims *)

(** ** Examples: the two scenarios of the specification *)

Example scenario_rule :
  displayProjects
    (image [ev "Gym" 1 "#808080"; ev "Portugues Class" 2 "#808080"])
    ∅ [] [("Portugues", "Idiomas")]
  = Some [ Project.mk "Gym" 1%float "#0088FE" ["Gym"];
           Project.mk "Idiomas" 2%float "#00C49F" ["Idiomas"] ].
Proof. vm_compute. reflexivity. Qed.

Example scenario_rule_and_ignore :
  displayProjects
    (image [ev "Gym" 1 "#808080"; ev "Portugues Class" 2 "#808080"])
    ∅ ["Gym"] [("Portugues", "Idiomas")]
  = Some [ Project.mk "Idiomas" 2%float "#0088FE" ["Idiomas"] ].
Proof. vm_compute. reflexivity. Qed.

(** ** Examples: keys, palette and [Object.prototype] *)

Example array_index_examples :
  array_index "10" = Some 10%N ∧ array_index "0" = Some 0%N
  ∧ array_index "4294967294" = Some 4294967294%N
  ∧ array_index "4294967295" = None ∧ array_index "007" = None
  ∧ array_index "1a" = None ∧ array_index "" = None.
Proof. vm_compute. repeat split. Qed.

Example keysOf_example :
  keysOf ["b"; "10"; "a"; "9"; "b"; "007"; "0"] = ["0"; "9"; "10"; "b"; "a"; "007"].
Proof. vm_compute. reflexivity. Qed.

Example palette_exhausted :
  map Project.color <$> displayProjects (image thirteenEvents) ∅ [] []
  = Some (COLORS ++ ["#808080"]).
Proof. vm_compute. reflexivity. Qed.

Example user_color_kept :
  map Project.color
  <$> displayProjects (image [ev "a" 1 "#808080"; ev "b" 1 "#808080"])
        {["a" := Mapping.mk "" "#808080"]} [] []
  = Some ["#808080"; "#0088FE"].
Proof. vm_compute. reflexivity. Qed.

(** An event whose label names a member of [Object.prototype] is dropped. *)
Example inherited_label_dropped :
  displayProjects
    (image [ev "constructor" 1 "#808080"; ev "Gym" 2 "#808080";
            ev "toString" 4 "#808080"])
    ∅ [] []
  = Some [ Project.mk "Gym" 2%float "#0088FE" ["Gym"] ].
Proof. vm_compute. reflexivity. Qed.

(** A key renamed to the name of a member of [Object.prototype] makes the
    engine throw. *)
Example inherited_name_throws :
  displayProjects (image [ev "Gym" 1 "#808080"])
    {["Gym" := Mapping.mk "constructor" ""]} [] []
  = None.
Proof. vm_compute. reflexivity. Qed.

(** Durations in fractions of an hour are added in floating point. *)
Example fractions_of_hours :
  displayProjects
    (image [ev "Gym" 0.1 "#808080"; ev "Lunch" 0.2 "#808080";
            ev "Gym" 0.4 "#808080"])
    ∅ [] []
  = Some [ Project.mk "Gym" 0.5%float "#0088FE" ["Gym"];
           Project.mk "Lunch" 0.2%float "#00C49F" ["Lunch"] ].
Proof. vm_compute. reflexivity. Qed.

(** ** C6: rule resolution *)

(** C6, as stated, fails: an empty keyword occurs in every title, so the
    rule [("", "Misc")] is the first rule that matches "Gym"; the engine
    finds the key [""], which is falsy, and leaves the title as it is. *)
Lemma rule_resolution_counterexample :
  AnalyzedEvent.title (applyRules [("", "Misc")] (ev "Gym" 1 "#808080"))
  ≠ specLabel [("", "Misc")] "Gym".
Proof. vm_compute. discriminate. Qed.

(** C6 (amended): when no rule has the empty keyword, the effective label
    of an event is the target of the first rule, in the order of
    [Object.keys(projectRules)], whose keyword occurs in the title as a
    case-insensitive substring, and the title itself when no keyword occurs;
    resolution changes nothing else of the event. *)
Theorem rule_resolution {num : Type} `{!JsNumber num} `{!JsCase}
    (projectRules : jsobj string) (event : AnalyzedEvent.t num) :
  "" ∉ Object_keys projectRules →
  AnalyzedEvent.title (applyRules projectRules event)
  = specLabel projectRules (AnalyzedEvent.title event)
  ∧ AnalyzedEvent.durationHours (applyRules projectRules event)
    = AnalyzedEvent.durationHours event
  ∧ AnalyzedEvent.color (applyRules projectRules event)
    = AnalyzedEvent.color event.
Proof.
  intros Hempty. split; [by apply applyRules_specLabel |].
  split; [apply applyRules_durationHours | apply applyRules_color].
Qed.

(** The theorem at two rules that both match: the first one wins. *)
Lemma rule_resolution_witness :
  ("" ∉ Object_keys [("class", "Study"); ("Portugues", "Idiomas")])
  ∧ AnalyzedEvent.title
      (applyRules [("class", "Study"); ("Portugues", "Idiomas")]
                  (ev "Portugues Class" 2 "#808080"))
    = "Study".
Proof.
  assert ("" ∉ Object_keys [("class", "Study"); ("Portugues", "Idiomas")]) as H
    by by_evaluation.
  split; [exact H |].
  exact (proj1 (rule_resolution (num := float) _ (ev "Portugues Class" 2 "#808080") H)).
Defined.

(** ** C7: re-applying the rules *)

(** C7, as stated, fails: with the rules [a -> b] and [b -> c], the label
    "a" resolves to "b", and resolving "b" again gives "c". *)
Lemma rule_idempotence_counterexample :
  map AnalyzedEvent.title
    (map (applyRules [("a", "b"); ("b", "c")])
       (map (applyRules [("a", "b"); ("b", "c")]) [ev "a" 1 "#808080"]))
  ≠ map AnalyzedEvent.title
      (map (applyRules [("a", "b"); ("b", "c")]) [ev "a" 1 "#808080"]).
Proof. vm_compute. discriminate. Qed.

(** C7 (amended): for a rule set in which every keyword that occurs, as a
    case-insensitive substring, in the target of a rule has that same target
    (so in particular when no keyword occurs in any target), resolving the
    events a second time gives the events of the first resolution. *)
Theorem rule_idempotence {num : Type} `{!JsNumber num} `{!JsCase}
    (projectRules : jsobj string) (events : list (AnalyzedEvent.t num)) :
  (∀ k t k', obj_get projectRules k = Some t → k' ∈ Object_keys projectRules →
             occursIn k' t = true → obj_get projectRules k' = Some t) →
  map (applyRules projectRules) (map (applyRules projectRules) events)
  = map (applyRules projectRules) events.
Proof.
  intros Hstable. rewrite map_map. apply map_ext. intros e.
  by apply applyRules_stable.
Qed.

(** The theorem at a rule whose keyword occurs in its own target. *)
Lemma rule_idempotence_witness :
  map (applyRules [("gym", "Gym"); ("Portugues", "Idiomas")])
    (map (applyRules [("gym", "Gym"); ("Portugues", "Idiomas")])
       [ev "GYM session" 1 "#808080"; ev "Portugues Class" 2 "#808080";
        ev "Lunch" 1 "#808080"])
  = map (applyRules [("gym", "Gym"); ("Portugues", "Idiomas")])
      [ev "GYM session" 1 "#808080"; ev "Portugues Class" 2 "#808080";
       ev "Lunch" 1 "#808080"].
Proof.
  apply (rule_idempotence (num := float) [("gym", "Gym"); ("Portugues", "Idiomas")]
           [ev "GYM session" 1 "#808080"; ev "Portugues Class" 2 "#808080";
            ev "Lunch" 1 "#808080"]).
  intros k t k' Hk Hk' Hocc. simpl in Hk.
  repeat (apply elem_of_cons in Hk' as [-> | Hk']);
    [| | by apply elem_of_nil in Hk'];
    repeat case_decide; simplify_eq; try done; vm_compute in Hocc; discriminate.
Defined.

(** ** C2: the color Stage 3 carries *)

(** C2, as stated, fails: of two events with the label "A", the engine
    carries the color of the first one, not of the last one. *)
Lemma carried_color_counterexample :
  carriedColor []
    (processedEvents (image [ev "A" 1 "#111111"; ev "A" 1 "#222222"]) []) "A"
  ≠ AnalyzedEvent.color
      <$> last (eventsLabelled "A"
                  (processedEvents
                     (image [ev "A" 1 "#111111"; ev "A" 1 "#222222"]) [])).
Proof. vm_compute. discriminate. Qed.

(** C2 (amended): the color carried into Stage 4 for an original key is the
    color of the first rule-resolved event with that effective label; an
    ignored key, a key that names a member of [Object.prototype] (such as
    "constructor"), and a key no event resolves to, carry none, because they
    are no keys of [aggregatedByOriginal].  Later events with the same label
    only add their duration. *)
Theorem carried_color {num : Type} `{!JsNumber num} `{!JsCase}
    (calendarImages : list (CalendarImage.t num)) (projectRules : jsobj string)
    (ignoredProjects : list string) (k : string) :
  carriedColor ignoredProjects (processedEvents calendarImages projectRules) k
  = if decide (k ∈ ignoredProjects ∨ inherited k) then None
    else AnalyzedEvent.color
           <$> head (eventsLabelled k (processedEvents calendarImages projectRules)).
Proof. apply carriedColor_first. Qed.

(** ** C3: the color Stage 4 resolves *)

(** C3, as stated, fails: "A" is renamed to "X" with the color "#ff0000" and
    an unmapped key "X" follows it; the project "X" takes the carried color
    of the key "X", the last key added to it, although the contributing key
    "A" has a mapping entry. *)
Lemma display_color_counterexample :
  let userMappings : gmap string Mapping.t := {["A" := Mapping.mk "X" "#ff0000"]} in
  let p := Project.mk "X" 2%float "#222222" ["A"; "X"] in
  (∃ before,
     finalProjects (image [ev "A" 1 "#111111"; ev "X" 1 "#222222"])
       userMappings [] []
     = Some before
     ∧ p ∈ before)
  ∧ (∃ k, k ∈ Project.originalNames p ∧ is_Some (userMappings !! k))
  ∧ ∀ k mapping, k ∈ Project.originalNames p → userMappings !! k = Some mapping →
                 Project.color p ≠ Mapping.color mapping.
Proof.
  intros userMappings p. split; [| split].
  - eexists. split; [vm_compute; reflexivity | left].
  - exists "A". split; [by_evaluation | by eexists].
  - intros k mapping Hk Hm. simpl in Hk.
    repeat (apply elem_of_cons in Hk as [-> | Hk]);
      [| | by apply elem_of_nil in Hk]; vm_compute in Hm; simplify_eq.
    vm_compute. discriminate.
Qed.

(** C3 (amended): the color of a project before the fallback pass is the
    display color of the last original key added to it, the last of its
    [originalNames]: the color of that key's mapping entry when it has an
    entry with a non-empty color, and the Stage-3 carried color of that key
    otherwise. *)
Theorem display_color {num : Type} `{!JsNumber num} `{!JsCase}
    (calendarImages : list (CalendarImage.t num))
    (userMappings : gmap string Mapping.t) (ignoredProjects : list string)
    (projectRules : jsobj string) (before : list (Project.t num))
    (p : Project.t num) :
  finalProjects calendarImages userMappings ignoredProjects projectRules
  = Some before →
  p ∈ before →
  ∃ k carried,
    last (Project.originalNames p) = Some k
    ∧ carriedColor ignoredProjects
        (processedEvents calendarImages projectRules) k = Some carried
    ∧ Project.color p
      = match userMappings !! k with
        | Some mapping =>
            if decide (Mapping.color mapping = "") then carried
            else Mapping.color mapping
        | None => carried
        end.
Proof.
  intros Hfinal Hp.
  destruct (finalProjects_project _ _ _ _ _ _ Hfinal Hp)
    as (_ & _ & k & data & Hlast & Hget & Hcolor).
  exists k, (ByOriginal.color data). split; [done |].
  unfold carriedColor. rewrite Hget. split; [done |].
  rewrite Hcolor. unfold displayColorOf, or_else. by destruct (userMappings !! k).
Qed.

(** The theorem at the project of the counterexample. *)
Lemma display_color_witness :
  ∃ k carried,
    last ["A"; "X"] = Some k
    ∧ carriedColor []
        (processedEvents (image [ev "A" 1 "#111111"; ev "X" 1 "#222222"]) [])
        k = Some carried
    ∧ "#222222"
      = match ({["A" := Mapping.mk "X" "#ff0000"]} : gmap string Mapping.t) !! k with
        | Some mapping =>
            if decide (Mapping.color mapping = "") then carried
            else Mapping.color mapping
        | None => carried
        end.
Proof.
  refine (display_color (image [ev "A" 1 "#111111"; ev "X" 1 "#222222"])
            {["A" := Mapping.mk "X" "#ff0000"]} [] []
            [Project.mk "X" 2%float "#222222" ["A"; "X"]]
            (Project.mk "X" 2%float "#222222" ["A"; "X"]) _ _).
  - vm_compute. reflexivity.
  - left.
Defined.

(** ** C9: the original names of a project *)

(** C9, as stated, fails on the order: the keys "10" and "9" are array
    indices, so [Object.entries(aggregatedByOriginal)] lists "9" before "10"
    although "10" appeared first, and so does [originalNames]. *)
Lemma original_names_counterexample :
  let calendarImages := image [ev "10" 1 "#111111"; ev "9" 2 "#111111"] in
  let userMappings : gmap string Mapping.t :=
    {["10" := Mapping.mk "X" "#00ff00"; "9" := Mapping.mk "X" "#00ff00"]} in
  ∃ output p,
    displayProjects calendarImages userMappings [] [] = Some output
    ∧ p ∈ output
    ∧ Project.originalNames p
      ≠ filter (λ k, displayNameOf userMappings k = Project.name p)
          (firstOccurrences
             (map AnalyzedEvent.title
                (survivingEvents [] (processedEvents calendarImages [])))).
Proof.
  intros calendarImages userMappings.
  exists [Project.mk "X" 3%float "#00ff00" ["9"; "10"]],
         (Project.mk "X" 3%float "#00ff00" ["9"; "10"]).
  split; [vm_compute; reflexivity | split; [left | vm_compute; discriminate]].
Qed.

(** C9 (amended): when the engine returns, every project of the output has a
    non-empty [originalNames] list, whose elements are exactly the original
    aggregation keys that resolve to the project's name (the name of the
    key's mapping entry when it has one with a non-empty name, the key itself
    otherwise), in the order in which [Object.entries] lists the keys of
    [aggregatedByOriginal]: without repetition, the keys that are array
    indices first, in ascending numeric order, then the other keys in order
    of first appearance among the events that Stage 3 counts, those whose
    label is neither ignored nor the name of a member of [Object.prototype].
    The fallback pass leaves [name], [duration] and [originalNames] as they
    are. *)
Theorem original_names {num : Type} `{!JsNumber num} `{!JsCase}
    (calendarImages : list (CalendarImage.t num))
    (userMappings : gmap string Mapping.t) (ignoredProjects : list string)
    (projectRules : jsobj string) (before output : list (Project.t num)) :
  finalProjects calendarImages userMappings ignoredProjects projectRules
  = Some before →
  displayProjects calendarImages userMappings ignoredProjects projectRules
  = Some output →
  let processed := processedEvents calendarImages projectRules in
  let keys := Object_keys (aggregatedByOriginal ignoredProjects processed) in
  ownKeyOrder
    (map AnalyzedEvent.title
       (filter (λ e, (AnalyzedEvent.title e ∉ ignoredProjects)
                     ∧ ¬ inherited (AnalyzedEvent.title e))
               processed))
    keys
  ∧ (∀ p, p ∈ output →
          Project.originalNames p ≠ []
          ∧ Project.originalNames p
            = filter (λ k, displayNameOf userMappings k = Project.name p) keys)
  ∧ map Project.name output = map Project.name before
  ∧ map Project.duration output = map Project.duration before
  ∧ map Project.originalNames output = map Project.originalNames before.
Proof.
  intros Hfinal Hout processed keys. split; [| split].
  - unfold keys. rewrite Object_keys_aggregatedByOriginal.
    apply keysOf_ownKeyOrder.
  - intros q Hq.
    destruct (elem_of_displayProjects _ _ _ _ _ _ Hout Hq)
      as (before' & p & Hfinal' & Hp & Hname & _ & Hnames).
    destruct (finalProjects_project _ _ _ _ _ _ Hfinal' Hp)
      as (Hfilter & _ & k & _ & Hlast & _).
    rewrite Hnames, Hname. split; [| done].
    intros Hnil. by rewrite Hnil in Hlast.
  - apply displayProjects_Some in Hout as (before' & Hfinal' & ->).
    assert (before' = before) as -> by congruence.
    rewrite assignFallbackColors_specFallback.
    by rewrite specFallback_name, specFallback_duration,
      specFallback_originalNames.
Qed.

(** The theorem at the keys "10" and "9" of the counterexample, merged into
    one project. *)
Lemma original_names_witness :
  ["9"; "10"]
  = filter
      (λ k, displayNameOf
              {["10" := Mapping.mk "X" "#00ff00"; "9" := Mapping.mk "X" "#00ff00"]}
              k
            = "X")
      (Object_keys
         (aggregatedByOriginal []
            (processedEvents (image [ev "10" 1 "#111111"; ev "9" 2 "#111111"])
               []))).
Proof.
  refine (proj2 (proj1 (proj2
    (original_names (image [ev "10" 1 "#111111"; ev "9" 2 "#111111"])
       {["10" := Mapping.mk "X" "#00ff00"; "9" := Mapping.mk "X" "#00ff00"]}
       [] []
       [Project.mk "X" 3%float "#00ff00" ["9"; "10"]]
       [Project.mk "X" 3%float "#00ff00" ["9"; "10"]] _ _))
    (Project.mk "X" 3%float "#00ff00" ["9"; "10"]) _)).
  - vm_compute. reflexivity.
  - vm_compute. reflexivity.
  - left.
Defined.

(** ** C5: ignored keys *)

(** C5, as stated, fails on the name: "Gym" is ignored, yet the key "Sport",
    which is not, is renamed to "Gym", and the output has a project of that
    name. *)
Lemma ignored_keys_counterexample :
  "Gym" ∈ ["Gym"]
  ∧ ¬ (∀ output p,
         displayProjects (image [ev "Sport" 1 "#111111"])
           {["Sport" := Mapping.mk "Gym" "#00ff00"]} ["Gym"] []
         = Some output →
         p ∈ output → Project.name p ≠ "Gym").
Proof.
  split; [left |]. intros H.
  apply (H [Project.mk "Gym" 1%float "#00ff00" ["Sport"]]
           (Project.mk "Gym" 1%float "#00ff00" ["Sport"]));
    [vm_compute; reflexivity | left | done].
Qed.

(** C5 (amended): for a key [K] of the ignore list, the events whose
    effective label is [K] are dropped before aggregation: [K] is no key
    of [aggregatedByOriginal], the output is the output of the engine on
    the input without these events, and no project of the output has [K]
    among its [originalNames].  A project of the output is named [K] only
    when a mapping entry renames another key, one that is not ignored, to
    [K]. *)
Theorem ignored_keys {num : Type} `{!JsNumber num} `{!JsCase}
    (calendarImages : list (CalendarImage.t num))
    (userMappings : gmap string Mapping.t) (ignoredProjects : list string)
    (projectRules : jsobj string) (K : string) :
  K ∈ ignoredProjects →
  obj_get (aggregatedByOriginal ignoredProjects
             (processedEvents calendarImages projectRules)) K = None
  ∧ displayProjects (withoutLabel projectRules K calendarImages) userMappings
      ignoredProjects projectRules
    = displayProjects calendarImages userMappings ignoredProjects projectRules
  ∧ ∀ output p,
      displayProjects calendarImages userMappings ignoredProjects projectRules
      = Some output →
      p ∈ output →
      (K ∉ Project.originalNames p)
      ∧ (Project.name p = K →
         ∃ k mapping, k ∈ Project.originalNames p ∧ k ≠ K
                      ∧ (k ∉ ignoredProjects)
                      ∧ userMappings !! k = Some mapping
                      ∧ Mapping.name mapping = K).
Proof.
  intros HK.
  assert (∀ k, k ∈ Object_keys
                     (aggregatedByOriginal ignoredProjects
                        (processedEvents calendarImages projectRules)) →
               (k ∉ ignoredProjects) ∧ ¬ inherited k) as Hkeys.
  { intros k (? & ? & _)%elem_of_Object_keys_aggregatedByOriginal. done. }
  split; [| split].
  - apply obj_get_None. intros Hin. by apply Hkeys in Hin as [? _].
  - by apply displayProjects_withoutLabel.
  - intros output q Hout Hq.
    destruct (elem_of_displayProjects _ _ _ _ _ _ Hout Hq)
      as (before & p & Hfinal & Hp & Hname & _ & Hnames).
    destruct (finalProjects_project _ _ _ _ _ _ Hfinal Hp)
      as (Hfilter & _ & k & _ & Hlast & _).
    rewrite Hnames, Hname. split.
    + rewrite Hfilter. intros [_ Hin]%list_elem_of_filter.
      by apply Hkeys in Hin as [? _].
    + intros HpK. apply last_Some_elem_of in Hlast as Hk.
      rewrite Hfilter in Hk. apply list_elem_of_filter in Hk as [Hdn Hk].
      apply Hkeys in Hk as [Hk Hinh]. assert (k ≠ K) as Hne by (by intros ->).
      rewrite HpK in Hdn.
      destruct (userMappings !! k) as [mapping|] eqn:Hm.
      * unfold displayNameOf, or_else in Hdn. rewrite Hm in Hdn.
        case_decide; [done |].
        exists k, mapping. split; [by eapply last_Some_elem_of | done].
      * by rewrite displayNameOf_unmapped in Hdn.
Qed.

(** The theorem at the second scenario of the specification. *)
Lemma ignored_keys_witness :
  displayProjects
    (withoutLabel [("Portugues", "Idiomas")] "Gym"
       (image [ev "Gym" 1 "#808080"; ev "Portugues Class" 2 "#808080"]))
    ∅ ["Gym"] [("Portugues", "Idiomas")]
  = displayProjects
      (image [ev "Gym" 1 "#808080"; ev "Portugues Class" 2 "#808080"])
      ∅ ["Gym"] [("Portugues", "Idiomas")].
Proof.
  refine (proj1 (proj2 (ignored_keys
           (image [ev "Gym" 1 "#808080"; ev "Portugues Class" 2 "#808080"])
           ∅ ["Gym"] [("Portugues", "Idiomas")] "Gym" _))).
  by_evaluation.
Defined.

(** ** C10: empty fields of a mapping entry *)

(** C10: a mapping entry with an empty [name] leaves its key as display
    name: the key is folded into the project of the output that is named
    after the key.  A mapping entry with an empty [color] leaves the choice
    of color to Stage 3: the display color of its key is the carried color,
    which is the color of the project before the fallback pass when the key
    is the last one folded into it; and the fallback pass treats a first key
    with such an entry as one without a user color, so a project with the
    sentinel color takes the first free palette entry, if there is one. *)
Theorem empty_mapping_fields {num : Type} `{!JsNumber num} `{!JsCase}
    (calendarImages : list (CalendarImage.t num))
    (userMappings : gmap string Mapping.t) (ignoredProjects : list string)
    (projectRules : jsobj string) (before output : list (Project.t num)) :
  finalProjects calendarImages userMappings ignoredProjects projectRules
  = Some before →
  displayProjects calendarImages userMappings ignoredProjects projectRules
  = Some output →
  let processed := processedEvents calendarImages projectRules in
  let byOriginal := aggregatedByOriginal ignoredProjects processed in
  (∀ k mapping,
     userMappings !! k = Some mapping → Mapping.name mapping = "" →
     displayNameOf userMappings k = k
     ∧ (k ∈ Object_keys byOriginal →
        ∃ p, p ∈ output ∧ Project.name p = k ∧ k ∈ Project.originalNames p))
  ∧ (∀ k mapping,
       userMappings !! k = Some mapping → Mapping.color mapping = "" →
       (∀ data : ByOriginal.t num,
          displayColorOf userMappings k data = ByOriginal.color data)
       ∧ (∀ p, p ∈ before → last (Project.originalNames p) = Some k →
               carriedColor ignoredProjects processed k = Some (Project.color p))
       ∧ (∀ i p, before !! i = Some p →
                 head (Project.originalNames p) = Some k →
                 Project.color p = SENTINEL →
                 wantsFallback userMappings p = true
                 ∧ output !! i
                   = Some match firstFree (colorsOf before
                                           ∪ colorsOf (take i output)) with
                          | Some c => withColor p c
                          | None => p
                          end)).
Proof.
  intros Hfinal Hout processed byOriginal.
  apply displayProjects_Some in Hout as (before' & Hfinal' & ->).
  assert (before' = before) as -> by congruence. clear Hfinal'.
  split.
  - intros k mapping Hm Hname.
    assert (displayNameOf userMappings k = k) as Hdn.
    { unfold displayNameOf, or_else. rewrite Hm, Hname. by rewrite decide_True. }
    split; [done |]. intros Hk.
    destruct (finalProjects_of_key calendarImages userMappings ignoredProjects
                projectRules before k Hfinal Hk) as (p & Hp & Hpname & Hin).
    destruct (assignFallbackColors_of_final userMappings before p Hp)
      as (q & Hq & Hqname & _ & Hqnames).
    exists q. by rewrite Hqname, Hqnames, Hpname, Hdn.
  - intros k mapping Hm Hcolor.
    assert (∀ data : ByOriginal.t num,
              displayColorOf userMappings k data = ByOriginal.color data) as Hdc.
    { intros data. unfold displayColorOf, or_else.
      rewrite Hm, Hcolor. by rewrite decide_True. }
    split; [done | split].
    + intros p Hp Hk.
      destruct (finalProjects_project _ _ _ _ _ _ Hfinal Hp)
        as (_ & _ & k' & data & Hlast & Hget & Hpc).
      rewrite Hlast in Hk. injection Hk as ->.
      unfold carriedColor, processed. rewrite Hget. simpl.
      by rewrite Hpc, Hdc.
    + intros i p Hp Hhead Hsentinel.
      assert (wantsFallback userMappings p = true) as Hw.
      { apply wantsFallback_true. split; [| done].
        unfold firstOriginalName. rewrite Hhead. simpl.
        rewrite Hm. by intros ? [= <-]. }
      split; [done |].
      pose proof (assignFallbackColors_lookup userMappings before i p Hp) as Hi.
      simpl in Hi. by rewrite Hw in Hi.
Qed.

(** The theorem at a key whose mapping entry has both fields empty. *)
Lemma empty_mapping_fields_witness :
  ∃ p : Project.t float,
    p ∈ [Project.mk "a" 1%float "#0088FE" ["a"]; Project.mk "b" 1%float "#111111" ["b"]]
    ∧ Project.name p = "a" ∧ "a" ∈ Project.originalNames p.
Proof.
  refine (proj2 (proj1
    (empty_mapping_fields (image [ev "a" 1 "#808080"; ev "b" 1 "#111111"])
       {["a" := Mapping.mk "" ""]} [] []
       [Project.mk "a" 1%float "#808080" ["a"]; Project.mk "b" 1%float "#111111" ["b"]]
       [Project.mk "a" 1%float "#0088FE" ["a"]; Project.mk "b" 1%float "#111111" ["b"]]
       _ _)
    "a" (Mapping.mk "" "") _ _) _).
  - vm_compute. reflexivity.
  - vm_compute. reflexivity.
  - vm_compute. reflexivity.
  - reflexivity.
  - by_evaluation.
Defined.

(** ** C4: the fallback pass *)

(** C4: when the engine returns, the output has the projects of Stage 4, in
    their order, with their names, durations and original names.  The
    condition of the pass holds for a project exactly when the mapping entry
    of its first original key, if any, has an empty color, and its color is
    "#808080".  The color of such a project in the output is the first entry
    of the palette, in palette order, that is neither the Stage-4 color of a
    project nor the color of an earlier project of the output, and it is
    "#808080" when the palette has no such entry; the color of every other
    project is its Stage-4 color.  These equations determine the output: a
    list that satisfies them is the output, so two runs on the same inputs
    agree.  A color the pass assigns is the color of no other project of the
    output. *)
Theorem fallback_colors {num : Type} `{!JsNumber num} `{!JsCase}
    (calendarImages : list (CalendarImage.t num))
    (userMappings : gmap string Mapping.t) (ignoredProjects : list string)
    (projectRules : jsobj string) (before output : list (Project.t num)) :
  finalProjects calendarImages userMappings ignoredProjects projectRules
  = Some before →
  displayProjects calendarImages userMappings ignoredProjects projectRules
  = Some output →
  length output = length before
  ∧ (∀ i p, before !! i = Some p →
       (wantsFallback userMappings p = true
        ↔ (∃ k, head (Project.originalNames p) = Some k
                ∧ ∀ mapping, userMappings !! k = Some mapping →
                             Mapping.color mapping = "")
          ∧ Project.color p = "#808080")
       ∧ output !! i
         = Some
             (Project.mk (Project.name p) (Project.duration p)
                (if wantsFallback userMappings p then
                   match firstFree (colorsOf before ∪ colorsOf (take i output)) with
                   | Some c => c
                   | None => "#808080"
                   end
                 else Project.color p)
                (Project.originalNames p)))
  ∧ (∀ output' : list (Project.t num),
       length output' = length before →
       (∀ i p, before !! i = Some p →
          output' !! i
          = Some
              (Project.mk (Project.name p) (Project.duration p)
                 (if wantsFallback userMappings p then
                    match firstFree (colorsOf before ∪ colorsOf (take i output')) with
                    | Some c => c
                    | None => "#808080"
                    end
                  else Project.color p)
                 (Project.originalNames p))) →
       output' = output)
  ∧ (∀ used : gset string,
       match firstFree used with
       | Some c =>
           ∃ n, COLORS !! n = Some c ∧ (c ∉ used)
                ∧ ∀ n' c', (n' < n)%nat → COLORS !! n' = Some c' → c' ∈ used
       | None => ∀ c, c ∈ COLORS → c ∈ used
       end)
  ∧ (∀ i j p q' c,
       before !! i = Some p → wantsFallback userMappings p = true →
       firstFree (colorsOf before ∪ colorsOf (take i output)) = Some c →
       i ≠ j → output !! j = Some q' →
       Project.color q' ≠ c).
Proof.
  intros Hfinal Hout.
  apply displayProjects_Some in Hout as (before' & Hfinal' & ->).
  assert (before' = before) as -> by congruence. clear Hfinal'.
  assert (∀ i p, before !! i = Some p →
            assignFallbackColors userMappings before !! i
            = Some
                (Project.mk (Project.name p) (Project.duration p)
                   (if wantsFallback userMappings p then
                      match firstFree
                              (colorsOf before
                               ∪ colorsOf (take i (assignFallbackColors
                                                     userMappings before))) with
                      | Some c => c
                      | None => "#808080"
                      end
                    else Project.color p)
                   (Project.originalNames p))) as Hlookup.
  { intros i p Hp.
    pose proof (assignFallbackColors_lookup userMappings before i p Hp) as Hi.
    simpl in Hi. rewrite Hi. f_equal.
    destruct (wantsFallback userMappings p) eqn:Hw; [| by destruct p].
    destruct (firstFree _) as [c|]; [done |].
    apply wantsFallback_true in Hw as [_ Hw]. destruct p. simpl in *. by subst. }
  split; [apply assignFallbackColors_length | split; [| split; [| split]]].
  - intros i p Hp. split; [| by apply Hlookup].
    rewrite wantsFallback_true. unfold firstOriginalName.
    assert (p ∈ before) as Hin by by eapply list_elem_of_lookup_2.
    destruct (finalProjects_project _ _ _ _ _ _ Hfinal Hin)
      as (_ & _ & k & _ & Hlast & _).
    destruct (Project.originalNames p) as [|k1 names]; [done |]. simpl.
    split.
    + intros [Hc ?]. split; [| done]. by exists k1.
    + intros [(k' & [= <-] & Hc) ?]. done.
  - intros output' Hlen Hspec.
    apply (positionwise_unique
             (λ p earlier,
                Project.mk (Project.name p) (Project.duration p)
                  (if wantsFallback userMappings p then
                     match firstFree (colorsOf before ∪ colorsOf earlier) with
                     | Some c => c
                     | None => "#808080"
                     end
                   else Project.color p)
                  (Project.originalNames p))
             before);
      [done | apply assignFallbackColors_length | done | done].
  - apply firstFree_spec.
  - intros i j p q' c. apply assignFallbackColors_assigned_unique.
Qed.

(** The theorem at three projects, the second of which has the first color
    of the palette: the first one takes the second color of the palette. *)
Lemma fallback_colors_witness :
  [ Project.mk "a" 1%float "#00C49F" ["a"]; Project.mk "b" 1%float "#0088FE" ["b"];
    Project.mk "c" 1%float "#FFBB28" ["c"] ] !! 0%nat
  = Some (Project.mk "a" 1%float "#00C49F" ["a"]).
Proof.
  refine (proj2 (proj1 (proj2
    (fallback_colors
       (image [ev "a" 1 "#808080"; ev "b" 1 "#0088FE"; ev "c" 1 "#808080"])
       ∅ [] []
       [ Project.mk "a" 1%float "#808080" ["a"]; Project.mk "b" 1%float "#0088FE" ["b"];
         Project.mk "c" 1%float "#808080" ["c"] ]
       [ Project.mk "a" 1%float "#00C49F" ["a"]; Project.mk "b" 1%float "#0088FE" ["b"];
         Project.mk "c" 1%float "#FFBB28" ["c"] ]
       _ _))
    0%nat (Project.mk "a" 1%float "#808080" ["a"]) _)).
  - vm_compute. reflexivity.
  - vm_compute. reflexivity.
  - reflexivity.
Defined.

(** ** C1: conservation of durations *)

(** C1, as stated, fails.  An event whose label names a member of
    [Object.prototype] is neither ignored nor counted: the output is empty
    and its durations add up to [0], not to the duration of the event.  And
    the durations are added in floating point, project by project: the
    durations of the output of three events of 0.1, 0.2 and 0.4 hours add
    up to 0.7, the durations of the events to 0.7000000000000001. *)
Lemma duration_conservation_counterexample :
  (∃ output,
     displayProjects (image [ev "constructor" 1 "#808080"]) ∅ [] [] = Some output
     ∧ total (map Project.duration output)
       ≠ total (map AnalyzedEvent.durationHours [ev "constructor" 1 "#808080"]))
  ∧ (∃ output,
       displayProjects
         (image [ev "Gym" 0.1 "#808080"; ev "Lunch" 0.2 "#808080";
                 ev "Gym" 0.4 "#808080"])
         ∅ [] []
       = Some output
       ∧ total (map Project.duration output)
         ≠ total (map AnalyzedEvent.durationHours
                    [ev "Gym" 0.1 "#808080"; ev "Lunch" 0.2 "#808080";
                     ev "Gym" 0.4 "#808080"])).
Proof.
  split.
  - eexists. split; [vm_compute; reflexivity |].
    intros Heq. apply (f_equal Prim2SF) in Heq. vm_compute in Heq.
    discriminate Heq.
  - eexists. split; [vm_compute; reflexivity |].
    intros Heq. apply (f_equal Prim2SF) in Heq. vm_compute in Heq.
    discriminate Heq.
Qed.

(** C1 (amended): when the engine returns, the duration of each project of
    the output is a running sum, from [0] on: of the durations of its
    original names, in their order, each of which is the running sum of the
    durations of the events with that label, in their order.  The events
    added up in this way, over all projects, are the rule-resolved events
    whose label is neither ignored nor the name of a member of
    [Object.prototype], each of them once; their durations are the
    durations of the raw events.  (So the total of the output and the total of
    these events add the same numbers, grouped and ordered differently.) *)
Theorem duration_conservation {num : Type} `{!JsNumber num} `{!JsCase}
    (calendarImages : list (CalendarImage.t num))
    (userMappings : gmap string Mapping.t) (ignoredProjects : list string)
    (projectRules : jsobj string) (output : list (Project.t num)) :
  displayProjects calendarImages userMappings ignoredProjects projectRules
  = Some output →
  let processed := processedEvents calendarImages projectRules in
  (∀ p, p ∈ output →
     Project.duration p
     = total
         (map (λ k, total (map AnalyzedEvent.durationHours
                             (eventsLabelled k processed)))
              (Project.originalNames p)))
  ∧ flat_map
      (λ p, flat_map (λ k, eventsLabelled k processed) (Project.originalNames p))
      output
    ≡ₚ filter (λ e, (AnalyzedEvent.title e ∉ ignoredProjects)
                    ∧ ¬ inherited (AnalyzedEvent.title e))
              processed
  ∧ map AnalyzedEvent.durationHours processed
    = map AnalyzedEvent.durationHours
        (flat_map CalendarImage.events calendarImages).
Proof.
  intros Hout processed. split; [| split].
  - intros q Hq.
    destruct (elem_of_displayProjects _ _ _ _ _ _ Hout Hq)
      as (before & p & Hfinal & Hp & _ & Hdur & Hnames).
    destruct (finalProjects_project _ _ _ _ _ _ Hfinal Hp) as (_ & Hsum & _).
    by rewrite Hdur, Hnames.
  - apply displayProjects_Some in Hout as (before & Hfinal & ->).
    etrans; [| exact (finalProjects_contributions _ _ _ _ _ Hfinal)].
    by rewrite (flat_map_originalNames userMappings before
                  (flat_map (λ k, eventsLabelled k processed))).
  - unfold processed, processedEvents. rewrite map_map. apply map_ext.
    intros e. apply applyRules_durationHours.
Qed.

(** The theorem at the fractions of an hour of the counterexample. *)
Lemma duration_conservation_witness :
  0.5%float
  = total
      (map (λ k, total (map AnalyzedEvent.durationHours
                          (eventsLabelled k
                             (processedEvents
                                (image [ev "Gym" 0.1 "#808080";
                                        ev "Lunch" 0.2 "#808080";
                                        ev "Gym" 0.4 "#808080"])
                                []))))
           ["Gym"]).
Proof.
  refine (proj1
    (duration_conservation
       (image [ev "Gym" 0.1 "#808080"; ev "Lunch" 0.2 "#808080";
               ev "Gym" 0.4 "#808080"])
       ∅ [] []
       [ Project.mk "Gym" 0.5%float "#0088FE" ["Gym"];
         Project.mk "Lunch" 0.2%float "#00C49F" ["Lunch"] ] _)
    (Project.mk "Gym" 0.5%float "#0088FE" ["Gym"]) _).
  - vm_compute. reflexivity.
  - left.
Defined.

(** ** C8: recoloring a merged project *)

(** C8, as stated, fails for the empty display name: an entry with an empty
    [name] stands for the key itself, so recoloring "A" under the name [""]
    is no recoloring of a merged project, and the entry of "B" keeps its
    color. *)
Lemma recolor_propagation_counterexample :
  let userMappings : gmap string Mapping.t :=
    {["A" := Mapping.mk "" "#111111"; "B" := Mapping.mk "" "#111111"]} in
  Mapping.name <$> userMappings !! "A" = Some ""
  ∧ Mapping.name <$> userMappings !! "B" = Some ""
  ∧ ¬ (∀ k mapping,
         handleUpdateProject userMappings ["A"] "" "#222222" userMappings !! k
         = Some mapping →
         Mapping.name mapping = "" → Mapping.color mapping = "#222222").
Proof.
  split; [vm_compute; reflexivity | split; [vm_compute; reflexivity |]].
  intros H. specialize (H "B" (Mapping.mk "" "#111111")).
  assert ("#111111" = "#222222") as Heq; [| discriminate Heq].
  apply H; [vm_compute |]; reflexivity.
Qed.

(** C8 (amended): in a mapping state in which the original keys [A] and [B]
    both map to the same non-empty display name [X], calling the mutator
    with a set of original keys that contains [A] (in particular with [A]
    alone), the display name [X] and a new color [C2] gives a mapping state
    in which every entry whose display name is [X], the entry of [B]
    included, has the color [C2]. *)
Theorem recolor_propagation (userMappings : gmap string Mapping.t)
    (originalNames : list string) (A B X C2 : string) (mappingA mappingB : Mapping.t) :
  X ≠ "" →
  userMappings !! A = Some mappingA → Mapping.name mappingA = X →
  userMappings !! B = Some mappingB → Mapping.name mappingB = X →
  A ∈ originalNames →
  let newMappings :=
    handleUpdateProject userMappings originalNames X C2 userMappings in
  (∀ k mapping, newMappings !! k = Some mapping → Mapping.name mapping = X →
                Mapping.color mapping = C2)
  ∧ ∃ mapping, newMappings !! B = Some mapping
               ∧ Mapping.name mapping = X ∧ Mapping.color mapping = C2.
Proof.
  intros HX HA HnameA HB HnameB Hin newMappings.
  assert (displayNameOf userMappings A = X) as Hdn.
  { unfold displayNameOf, or_else. rewrite HA, HnameA. by rewrite decide_False. }
  assert (∀ k mapping, newMappings !! k = Some mapping →
                       Mapping.name mapping = X → Mapping.color mapping = C2)
    as Hall by by eapply handleUpdateProject_recolors.
  split; [done |].
  destruct (handleUpdateProject_keeps_name userMappings originalNames X C2
              userMappings B) as (mapping & Hm & Hname); [by eauto |].
  exists mapping. split; [done | split; [done |]]. by eapply Hall.
Qed.

(** The theorem at the two keys "A" and "B" merged into "X". *)
Lemma recolor_propagation_witness :
  ∃ mapping,
    handleUpdateProject
      {["A" := Mapping.mk "X" "#111111"; "B" := Mapping.mk "X" "#111111"]}
      ["A"] "X" "#222222"
      {["A" := Mapping.mk "X" "#111111"; "B" := Mapping.mk "X" "#111111"]}
    !! "B" = Some mapping
    ∧ Mapping.name mapping = "X" ∧ Mapping.color mapping = "#222222".
Proof.
  refine (proj2 (recolor_propagation
    {["A" := Mapping.mk "X" "#111111"; "B" := Mapping.mk "X" "#111111"]}
    ["A"] "A" "B" "X" "#222222"
    (Mapping.mk "X" "#111111") (Mapping.mk "X" "#111111") _ _ _ _ _ _)).
  - discriminate.
  - vm_compute. reflexivity.
  - reflexivity.
  - vm_compute. reflexivity.
  - reflexivity.
  - left.
Defined.

(** * Further properties of the engine and of the handlers *)

(** ** Strings *)

Lemma startsWith_spec s sub :
  startsWith s sub = true ↔ ∃ post, s = (sub +:+ post)%string.
Proof.
  revert s. induction sub as [|c sub IH]; intros [|d s]; simpl.
  - split; [intros _; by exists "" | done].
  - split; [intros _; by exists (String d s) | done].
  - split; [done | by intros [post ?]].
  - destruct (Ascii.eqb_spec c d) as [-> | Hne].
    + rewrite IH. split; intros [post Hpost]; exists post.
      * by rewrite Hpost.
      * by injection Hpost.
    + split; [done | intros [post [= ? _]]; done].
Qed.

Lemma String_includes_unfold s sub :
  String_includes s sub
  = startsWith s sub
    || match s with
       | EmptyString => false
       | String _ s' => String_includes s' sub
       end.
Proof. by destruct s. Qed.

Lemma String_includes_spec s sub :
  String_includes s sub = true
  ↔ ∃ pre post, s = (pre +:+ sub +:+ post)%string.
Proof.
  induction s as [|d s IH];
    rewrite String_includes_unfold, orb_true_iff, startsWith_spec.
  - split.
    + intros [[post ->] | ?]; [by exists "", post | done].
    + intros ([|? ?] & post & Heq); [left; by exists post | done].
  - rewrite IH. split.
    + intros [[post ->] | (pre & post & ->)]; [by exists "", post |].
      by exists (String d pre), post.
    + intros ([|d' pre] & post & Heq); [left; by exists post |].
      right. injection Heq as -> ->. by exists pre, post.
Qed.

(** ** The ignore list *)

Lemma filter_none {A : Type} (P : A → Prop) `{!∀ x, Decision (P x)} (l : list A) :
  (∀ x, x ∈ l → ¬ P x) → filter P l = [].
Proof.
  induction l as [|a l IH]; intros Hnone; [done |].
  rewrite filter_cons_False by (apply Hnone; left).
  apply IH. intros x Hx. apply Hnone. by right.
Qed.

Lemma firstOccurrences_NoDup l : NoDup l → firstOccurrences l = l.
Proof.
  induction 1 as [|a l Ha Hl IH]; simpl; [done |].
  rewrite IH. f_equal. apply filter_all. by intros x Hx ->.
Qed.

Lemma firstOccurrences_app l l' :
  firstOccurrences (l ++ l')
  = firstOccurrences l ++ filter (λ x, x ∉ l) (firstOccurrences l').
Proof.
  induction l' as [|x l' IH] using rev_ind.
  - by rewrite !app_nil_r.
  - rewrite app_assoc, !firstOccurrences_snoc, IH.
    destruct (decide (x ∈ l')) as [Hl' | Hl'].
    + by rewrite decide_True by (apply elem_of_app; by right).
    + rewrite filter_app. destruct (decide (x ∈ l)) as [Hl | Hl].
      * rewrite decide_True by (apply elem_of_app; by left).
        rewrite filter_cons_False by auto. by rewrite app_nil_r.
      * rewrite decide_False by (rewrite elem_of_app; tauto).
        rewrite filter_cons_True by done. by rewrite app_assoc.
Qed.

Lemma elem_of_handleDeleteProject originalNames prev x :
  x ∈ handleDeleteProject originalNames prev ↔ x ∈ prev ∨ x ∈ originalNames.
Proof.
  unfold handleDeleteProject. by rewrite elem_of_firstOccurrences, elem_of_app.
Qed.

Lemma handleDeleteProject_known originalNames prev :
  NoDup prev → (∀ x, x ∈ originalNames → x ∈ prev) →
  handleDeleteProject originalNames prev = prev.
Proof.
  intros Hnd Hsub. unfold handleDeleteProject.
  rewrite firstOccurrences_app, firstOccurrences_NoDup by done.
  rewrite filter_none.
  - apply app_nil_r.
  - intros x Hx Hnot. apply (proj1 (elem_of_firstOccurrences _ _)) in Hx.
    by apply Hnot, Hsub.
Qed.

(** X1: deleting a project is a union of sets that keeps the order of the
    list: the result is the old ignore list without its repetitions, followed
    by the new names that were not ignored yet, each once, in order of first
    occurrence. *)
Theorem delete_project_union (originalNames prev : list string) :
  handleDeleteProject originalNames prev
  = firstOccurrences prev
    ++ filter (λ x, x ∉ prev) (firstOccurrences originalNames)
  ∧ NoDup (handleDeleteProject originalNames prev)
  ∧ (∀ x, x ∈ handleDeleteProject originalNames prev
          ↔ x ∈ prev ∨ x ∈ originalNames)
  ∧ (NoDup prev → prev `prefix_of` handleDeleteProject originalNames prev).
Proof.
  split; [apply firstOccurrences_app | split; [apply NoDup_firstOccurrences |]].
  split; [apply elem_of_handleDeleteProject |].
  intros Hnd. unfold handleDeleteProject.
  rewrite firstOccurrences_app, firstOccurrences_NoDup by done.
  by eexists.
Qed.

(** X2: deleting is idempotent, and deleting names that are all ignored
    already leaves a list without repetitions as it is. *)
Theorem delete_project_idempotent (originalNames prev : list string) :
  handleDeleteProject originalNames (handleDeleteProject originalNames prev)
  = handleDeleteProject originalNames prev
  ∧ (NoDup prev → (∀ x, x ∈ originalNames → x ∈ prev) →
     handleDeleteProject originalNames prev = prev).
Proof.
  split; [| apply handleDeleteProject_known].
  apply handleDeleteProject_known; [apply NoDup_firstOccurrences |].
  intros x Hx. apply elem_of_handleDeleteProject. by right.
Qed.

(** ** The engine and the ignore list as a set *)

Section ignore_set.
Context {num : Type} `{!JsNumber num} `{!JsCase}.

Lemma aggregatedByOriginal_ignored_set ign ign' (P : list (AnalyzedEvent.t num)) :
  (∀ k, k ∈ ign ↔ k ∈ ign') →
  aggregatedByOriginal ign P = aggregatedByOriginal ign' P.
Proof.
  intros Hsame. unfold aggregatedByOriginal. generalize (@nil (string * ByOriginal.t num)).
  induction P as [|e P IH]; intros agg; [done |]. cbn [fold_left].
  rewrite IH. f_equal. unfold addOriginal, Array_includes.
  by rewrite (bool_decide_ext _ _ (Hsame (AnalyzedEvent.title e))).
Qed.

Lemma displayProjects_ignored_set calendarImages userMappings ign ign'
    projectRules :
  (∀ k, k ∈ ign ↔ k ∈ ign') →
  displayProjects (num := num) calendarImages userMappings ign projectRules
  = displayProjects calendarImages userMappings ign' projectRules.
Proof.
  intros Hsame. unfold displayProjects, finalProjects.
  by rewrite (aggregatedByOriginal_ignored_set ign ign').
Qed.

End ignore_set.

(** X3: the engine reads the ignore list as a set: two lists with the same
    elements, in any order and with any repetitions, give the same output. *)
Theorem ignore_list_as_set {num : Type} `{!JsNumber num} `{!JsCase}
    (calendarImages : list (CalendarImage.t num))
    (userMappings : gmap string Mapping.t) (ign ign' : list string)
    (projectRules : jsobj string) :
  (∀ k, k ∈ ign ↔ k ∈ ign') →
  displayProjects calendarImages userMappings ign projectRules
  = displayProjects calendarImages userMappings ign' projectRules.
Proof. apply displayProjects_ignored_set. Qed.

(** The theorem at two lists that differ in order and repetition. *)
Lemma ignore_list_as_set_witness :
  displayProjects
    (image [ev "Gym" 1 "#808080"; ev "Nap" 2 "#808080"; ev "Lunch" 1 "#808080"])
    ∅ ["Gym"; "Nap"] []
  = displayProjects
      (image [ev "Gym" 1 "#808080"; ev "Nap" 2 "#808080"; ev "Lunch" 1 "#808080"])
      ∅ ["Nap"; "Gym"; "Nap"] [].
Proof.
  apply (ignore_list_as_set
           (image [ev "Gym" 1 "#808080"; ev "Nap" 2 "#808080";
                   ev "Lunch" 1 "#808080"]) ∅ ["Gym"; "Nap"] ["Nap"; "Gym"; "Nap"] []).
  intros k. rewrite !elem_of_cons, !elem_of_nil. tauto.
Defined.

(** ** The names of the output *)

Section output_names.
Context {num : Type} `{!JsNumber num} `{!JsCase}.
Implicit Types (calendarImages : list (CalendarImage.t num)).
Implicit Types (userMappings : gmap string Mapping.t).
Implicit Types (output : list (Project.t num)).

Lemma displayProjects_names calendarImages userMappings ignoredProjects
    projectRules output :
  displayProjects calendarImages userMappings ignoredProjects projectRules
  = Some output →
  map Project.name output
  = keysOf
      (map (displayNameOf userMappings)
         (keysOf
            (map AnalyzedEvent.title
               (survivingEvents ignoredProjects
                  (processedEvents calendarImages projectRules))))).
Proof.
  intros (before & Hfinal & ->)%displayProjects_Some.
  rewrite assignFallbackColors_specFallback, specFallback_name.
  by rewrite (finalProjects_names _ _ _ _ _ Hfinal),
    Object_keys_aggregatedByOriginal.
Qed.

Lemma elem_of_displayProjects_names calendarImages userMappings ignoredProjects
    projectRules output n :
  displayProjects calendarImages userMappings ignoredProjects projectRules
  = Some output →
  n ∈ map Project.name output
  ↔ ∃ e, e ∈ processedEvents calendarImages projectRules
         ∧ (AnalyzedEvent.title e ∉ ignoredProjects)
         ∧ (¬ inherited (AnalyzedEvent.title e))
         ∧ displayNameOf userMappings (AnalyzedEvent.title e) = n.
Proof.
  intros Hout.
  rewrite (displayProjects_names _ _ _ _ _ Hout), elem_of_keysOf,
    list_elem_of_fmap.
  split.
  - intros (k & -> & Hk). rewrite elem_of_keysOf, elem_of_survivingEvents in Hk.
    destruct Hk as (Hign & Hinh & (e & -> & He)%list_elem_of_fmap). by exists e.
  - intros (e & He & Hign & Hinh & <-). exists (AnalyzedEvent.title e).
    split; [done |].
    apply elem_of_keysOf, elem_of_survivingEvents. split; [done | split; [done |]].
    by apply list_elem_of_fmap_2.
Qed.

(** The engine throws exactly when a counted label displays under the name
    of a member of [Object.prototype]. *)
Lemma displayProjects_None calendarImages userMappings ignoredProjects
    projectRules :
  displayProjects calendarImages userMappings ignoredProjects projectRules = None
  ↔ ∃ e, e ∈ processedEvents calendarImages projectRules
         ∧ (AnalyzedEvent.title e ∉ ignoredProjects)
         ∧ (¬ inherited (AnalyzedEvent.title e))
         ∧ inherited (displayNameOf userMappings (AnalyzedEvent.title e)).
Proof.
  rewrite eq_None_not_Some, displayProjects_is_Some, finalProjects_is_Some.
  split.
  - rewrite <- Forall_forall. intros Hnot.
    apply not_Forall_Exists in Hnot; [| apply _].
    apply Exists_exists in Hnot as (k & Hk & Hdn). simpl in Hdn.
    apply elem_of_Object_keys_aggregatedByOriginal in Hk
      as (Hign & Hinh & (e & -> & He)%list_elem_of_fmap).
    exists e. split; [done | split; [done | split; [done |]]].
    by apply dec_stable.
  - intros (e & He & Hign & Hinh & Hdn) Hall.
    apply (Hall (AnalyzedEvent.title e)); [| done].
    apply elem_of_Object_keys_aggregatedByOriginal.
    split; [done | split; [done |]]. by apply list_elem_of_fmap_2.
Qed.

End output_names.

(** X4: when the engine returns, the projects of the output have pairwise
    distinct names (the panels use the name as React key); the names are the
    display names of the effective labels that Stage 3 counts, those that are
    neither ignored nor the name of a member of [Object.prototype]; no project
    is named after such a member, and none has one among its original names;
    and the output is empty exactly when no event is counted.  The engine throws exactly when a counted label
    displays under the name of a member of [Object.prototype]. *)
Theorem output_names {num : Type} `{!JsNumber num} `{!JsCase}
    (calendarImages : list (CalendarImage.t num))
    (userMappings : gmap string Mapping.t) (ignoredProjects : list string)
    (projectRules : jsobj string) :
  let processed := processedEvents calendarImages projectRules in
  match displayProjects calendarImages userMappings ignoredProjects
          projectRules with
  | Some output =>
      NoDup (map Project.name output)
      ∧ (∀ n, n ∈ map Project.name output
              ↔ ∃ e, e ∈ processed
                     ∧ (AnalyzedEvent.title e ∉ ignoredProjects)
                     ∧ (¬ inherited (AnalyzedEvent.title e))
                     ∧ displayNameOf userMappings (AnalyzedEvent.title e) = n)
      ∧ (∀ n, n ∈ map Project.name output → ¬ inherited n)
      ∧ (∀ p k, p ∈ output → k ∈ Project.originalNames p → ¬ inherited k)
      ∧ (output = []
         ↔ ∀ e, e ∈ processed →
                AnalyzedEvent.title e ∈ ignoredProjects
                ∨ inherited (AnalyzedEvent.title e))
  | None =>
      ∃ e, e ∈ processed
           ∧ (AnalyzedEvent.title e ∉ ignoredProjects)
           ∧ (¬ inherited (AnalyzedEvent.title e))
           ∧ inherited (displayNameOf userMappings (AnalyzedEvent.title e))
  end.
Proof.
  intros processed.
  destruct (displayProjects calendarImages userMappings ignoredProjects
              projectRules) as [output|] eqn:Hout;
    [| by apply displayProjects_None].
  split; [| split; [| split; [| split]]].
  - rewrite (displayProjects_names _ _ _ _ _ Hout). apply NoDup_keysOf.
  - intros n. by apply elem_of_displayProjects_names.
  - intros n Hn Hinh.
    apply (elem_of_displayProjects_names _ _ _ _ _ _ Hout) in Hn
      as (e & He & Hign & Hown & <-).
    assert (displayProjects calendarImages userMappings ignoredProjects
              projectRules = None) as Hnone
      by (apply displayProjects_None; by exists e).
    congruence.
  - intros q k Hq Hk.
    destruct (elem_of_displayProjects _ _ _ _ _ _ Hout Hq)
      as (before & p & Hfinal & Hp & _ & _ & Hnames).
    destruct (finalProjects_project _ _ _ _ _ _ Hfinal Hp) as (Hfilter & _).
    rewrite Hnames, Hfilter in Hk. apply list_elem_of_filter in Hk as [_ Hk].
    by apply elem_of_Object_keys_aggregatedByOriginal in Hk as (_ & ? & _).
  - split.
    + intros Hnil e He.
      destruct (decide (AnalyzedEvent.title e ∈ ignoredProjects)); [by left |].
      right. apply dec_stable. intros Hinh.
      assert (displayNameOf userMappings (AnalyzedEvent.title e)
              ∈ map Project.name output) as Hin
        by (apply (elem_of_displayProjects_names _ _ _ _ _ _ Hout); by exists e).
      rewrite Hnil in Hin. by apply elem_of_nil in Hin.
    + intros Hall. destruct output as [|p rest] eqn:Houtput; [done |].
      assert (Project.name p ∈ map Project.name (p :: rest)) as Hin by left.
      apply (elem_of_displayProjects_names _ _ _ _ _ _ Hout) in Hin
        as (e & He & Hign & Hinh & _).
      by destruct (Hall e He).
Qed.
(** ** The rules *)

Section rules.
Context {V : Type}.
Implicit Types (o : jsobj V) (k : string) (v : V).

Lemma obj_get_delete o k k' :
  obj_get (obj_delete k o) k' = if decide (k = k') then None else obj_get o k'.
Proof.
  unfold obj_delete. induction o as [|[k0 v0] o IH]; [by case_decide |].
  destruct (decide (k0 = k)) as [-> | Hne].
  - rewrite filter_cons_False by (simpl; auto). rewrite IH.
    cbn [obj_get]. by destruct (decide (k = k')).
  - rewrite filter_cons_True by done. cbn [obj_get]. rewrite IH.
    destruct (decide (k0 = k')) as [<- | ?]; [by rewrite decide_False | done].
Qed.

Lemma Object_keys_delete o k :
  Object_keys (obj_delete k o) = filter (λ k', k' ≠ k) (Object_keys o).
Proof. unfold obj_delete, Object_keys. by apply fmap_fst_filter. Qed.

Lemma obj_delete_absent o k : k ∉ Object_keys o → obj_delete k o = o.
Proof.
  intros Hk. apply filter_all. intros [k' v'] Hin Heq. simpl in Heq. subst k'.
  apply Hk. by apply (list_elem_of_fmap_2 fst) in Hin.
Qed.

Lemma obj_delete_insert o k v : obj_delete k (obj_insert k v o) = obj_delete k o.
Proof.
  unfold obj_delete. induction o as [|[k0 v0] o IH]; simpl.
  - by rewrite filter_cons_False by (simpl; auto).
  - destruct (key_before k k0).
    + by rewrite (filter_cons_False _ (k, v)) by (simpl; auto).
    + rewrite !(filter_cons _ (k0, v0)). by rewrite IH.
Qed.

Lemma obj_delete_set_new o k v :
  k ∉ Object_keys o → obj_delete k (obj_set k v o) = o.
Proof.
  intros Hk. unfold obj_set. rewrite (proj2 (obj_get_None o k) Hk).
  rewrite obj_delete_insert. by apply obj_delete_absent.
Qed.

End rules.

Lemma key_insert_index_split k n ks :
  array_index k = Some n →
  ∃ l1 l2, ks = l1 ++ l2 ∧ key_insert k ks = l1 ++ k :: l2
           ∧ Forall (λ x, isArrayIndex x) l1.
Proof.
  intros Hk. induction ks as [|k' ks (l1 & l2 & -> & Hins & Hall)]; simpl.
  - by exists [], [].
  - destruct (key_before k k') eqn:Hb.
    + by exists [], (k' :: l1 ++ l2).
    + exists (k' :: l1), l2. rewrite Hins. split; [done | split; [done |]].
      constructor; [| done]. apply isArrayIndex_true.
      unfold key_before in Hb. rewrite Hk in Hb.
      by destruct (array_index k').
Qed.

(** X5: adding a rule writes its target and decides its rank in the order
    in which Stage 1 tries the keywords.  A keyword the rules have already
    keeps its rank; a new keyword that is no array index is tried last; a
    new keyword that is an array index (a numeral such as "5") is tried
    before every keyword that is none, whenever those were added. *)
Theorem add_rule_rank (keyword targetProject : string) (prev : jsobj string) :
  (∀ k, obj_get (handleAddRule keyword targetProject prev) k
        = if decide (keyword = k) then Some targetProject else obj_get prev k)
  ∧ (keyword ∈ Object_keys prev →
     Object_keys (handleAddRule keyword targetProject prev) = Object_keys prev)
  ∧ (keyword ∉ Object_keys prev → array_index keyword = None →
     Object_keys (handleAddRule keyword targetProject prev)
     = Object_keys prev ++ [keyword])
  ∧ (keyword ∉ Object_keys prev → is_Some (array_index keyword) →
     ∃ l1 l2, Object_keys prev = l1 ++ l2
              ∧ Object_keys (handleAddRule keyword targetProject prev)
                = l1 ++ keyword :: l2
              ∧ Forall (λ k, isArrayIndex k) l1).
Proof.
  unfold handleAddRule. split; [intros k; apply obj_get_set | split; [| split]].
  - apply Object_keys_set_old.
  - intros Hnew Hidx. rewrite Object_keys_set_new by done.
    by apply key_insert_not_index.
  - intros Hnew [n Hidx]. rewrite Object_keys_set_new by done.
    by eapply key_insert_index_split.
Qed.

(** X6: deleting a rule removes its keyword and nothing else, keeps the
    order of the other keywords, does nothing when the keyword is absent, and
    undoes the addition of a keyword that was new. *)
Theorem delete_rule (keyword : string) (prev : jsobj string) :
  (∀ k, obj_get (handleDeleteRule keyword prev) k
        = if decide (keyword = k) then None else obj_get prev k)
  ∧ Object_keys (handleDeleteRule keyword prev)
    = filter (λ k, k ≠ keyword) (Object_keys prev)
  ∧ (keyword ∉ Object_keys prev → handleDeleteRule keyword prev = prev)
  ∧ (∀ targetProject,
       keyword ∉ Object_keys prev →
       handleDeleteRule keyword (handleAddRule keyword targetProject prev) = prev).
Proof.
  unfold handleDeleteRule, handleAddRule.
  split; [intros k; apply obj_get_delete | split; [apply Object_keys_delete |]].
  split; [apply obj_delete_absent | intros t; apply obj_delete_set_new].
Qed.

(** ** Rules and resolution *)

Lemma find_key_insert (pred : string → bool) k ks :
  pred k = false → List.find pred (key_insert k ks) = List.find pred ks.
Proof.
  intros Hk. induction ks as [|k' ks IH]; simpl; [by rewrite Hk |].
  destruct (key_before k k'); simpl; [by rewrite Hk |]. by rewrite IH.
Qed.

Lemma find_filter_ne (pred : string → bool) k ks :
  pred k = false →
  List.find pred (filter (λ k', k' ≠ k) ks) = List.find pred ks.
Proof.
  intros Hk. induction ks as [|k' ks IH]; [done |].
  destruct (decide (k' = k)) as [-> | Hne].
  - rewrite filter_cons_False by auto. simpl. by rewrite Hk.
  - rewrite filter_cons_True by done. simpl. by rewrite IH.
Qed.

Lemma find_app {A : Type} (pred : A → bool) l1 l2 :
  List.find pred (l1 ++ l2)
  = match List.find pred l1 with
    | Some x => Some x
    | None => List.find pred l2
    end.
Proof. induction l1 as [|a l1 IH]; simpl; [done |]. by destruct (pred a). Qed.

Lemma find_all_false {A : Type} (pred : A → bool) l :
  (∀ x, x ∈ l → pred x = false) → List.find pred l = None.
Proof.
  induction l as [|a l IH]; intros Hall; simpl; [done |].
  rewrite Hall by left. apply IH. intros x Hx. apply Hall. by right.
Qed.

Section rule_effects.
Context {num : Type} `{!JsNumber num} `{!JsCase}.
Implicit Types (e : AnalyzedEvent.t num) (R : jsobj string).

Lemma matchingRuleKey_find R e :
  matchingRuleKey R e
  = List.find (λ keyword, occursIn keyword (AnalyzedEvent.title e)) (Object_keys R).
Proof. done. Qed.

Lemma applyRules_set_unused R k t e :
  occursIn k (AnalyzedEvent.title e) = false →
  applyRules (obj_set k t R) e = applyRules R e.
Proof.
  intros Hk.
  assert (matchingRuleKey (obj_set k t R) e = matchingRuleKey R e) as Hsame.
  { rewrite !matchingRuleKey_find.
    destruct (decide (k ∈ Object_keys R)).
    - by rewrite Object_keys_set_old.
    - rewrite Object_keys_set_new by done. by apply find_key_insert. }
  unfold applyRules. rewrite Hsame.
  destruct (matchingRuleKey R e) as [k1|] eqn:Hk1; [| done].
  apply matchingRuleKey_occursIn in Hk1 as [_ Hocc].
  rewrite obj_get_set_ne; [done |]. intros ->. congruence.
Qed.

Lemma applyRules_delete_unused R k e :
  occursIn k (AnalyzedEvent.title e) = false →
  applyRules (obj_delete k R) e = applyRules R e.
Proof.
  intros Hk.
  assert (matchingRuleKey (obj_delete k R) e = matchingRuleKey R e) as Hsame.
  { rewrite !matchingRuleKey_find, Object_keys_delete. by apply find_filter_ne. }
  unfold applyRules. rewrite Hsame.
  destruct (matchingRuleKey R e) as [k1|] eqn:Hk1; [| done].
  apply matchingRuleKey_occursIn in Hk1 as [_ Hocc].
  rewrite obj_get_delete, (decide_False (P := k = k1)); [done |].
  intros ->. congruence.
Qed.

Lemma displayProjects_rules_ext calendarImages userMappings ignoredProjects R R' :
  (∀ e, e ∈ flat_map CalendarImage.events calendarImages →
        applyRules R e = applyRules R' e) →
  displayProjects (num := num) calendarImages userMappings ignoredProjects R
  = displayProjects calendarImages userMappings ignoredProjects R'.
Proof.
  intros Hext. unfold displayProjects, finalProjects, processedEvents.
  replace (map (applyRules R) _) with
    (map (applyRules R') (flat_map CalendarImage.events calendarImages)); [done |].
  apply map_ext_in. intros e He. symmetry. apply Hext. by apply list_elem_of_In.
Qed.

End rule_effects.

(** X7: a rule whose keyword occurs in no title is without effect: adding
    it, with any target, or deleting it leaves the output as it is. *)
Theorem unused_rule {num : Type} `{!JsNumber num} `{!JsCase}
    (calendarImages : list (CalendarImage.t num))
    (userMappings : gmap string Mapping.t) (ignoredProjects : list string)
    (projectRules : jsobj string) (keyword targetProject : string) :
  (∀ e, e ∈ flat_map CalendarImage.events calendarImages →
        occursIn keyword (AnalyzedEvent.title e) = false) →
  displayProjects calendarImages userMappings ignoredProjects
    (handleAddRule keyword targetProject projectRules)
  = displayProjects calendarImages userMappings ignoredProjects projectRules
  ∧ displayProjects calendarImages userMappings ignoredProjects
      (handleDeleteRule keyword projectRules)
    = displayProjects calendarImages userMappings ignoredProjects projectRules.
Proof.
  intros Hunused. split; apply displayProjects_rules_ext; intros e He.
  - apply applyRules_set_unused. by apply Hunused.
  - apply applyRules_delete_unused. by apply Hunused.
Qed.

(** The theorem at a rule for "yoga" and events without that word. *)
Lemma unused_rule_witness :
  displayProjects
    (image [ev "Gym" 1 "#808080"; ev "Portugues Class" 2 "#808080"]) ∅ []
    (handleAddRule "yoga" "Sport" [("Portugues", "Idiomas")])
  = displayProjects
      (image [ev "Gym" 1 "#808080"; ev "Portugues Class" 2 "#808080"]) ∅ []
      [("Portugues", "Idiomas")].
Proof.
  refine (proj1 (unused_rule
           (image [ev "Gym" 1 "#808080"; ev "Portugues Class" 2 "#808080"])
           ∅ [] [("Portugues", "Idiomas")] "yoga" "Sport" _)).
  intros e He. simpl in He.
  repeat (apply elem_of_cons in He as [-> | He]); [| | by apply elem_of_nil in He];
    vm_compute; reflexivity.
Defined.

(** X8: which rule wins after an addition.  A new keyword that is no array
    index never displaces a rule that matched before: it decides only the
    titles no older keyword occurs in.  A new keyword that is an array index
    wins on every title it occurs in, unless an older array-index keyword
    occurs in the title too. *)
Theorem new_rule_priority {num : Type} `{!JsNumber num} `{!JsCase}
    (projectRules : jsobj string) (keyword targetProject : string)
    (event : AnalyzedEvent.t num) :
  keyword ∉ Object_keys projectRules →
  (array_index keyword = None →
   matchingRuleKey (handleAddRule keyword targetProject projectRules) event
   = match matchingRuleKey projectRules event with
     | Some older => Some older
     | None =>
         if occursIn keyword (AnalyzedEvent.title event) then Some keyword
         else None
     end)
  ∧ (is_Some (array_index keyword) →
     occursIn keyword (AnalyzedEvent.title event) = true →
     (∀ k, k ∈ Object_keys projectRules → isArrayIndex k →
           occursIn k (AnalyzedEvent.title event) = false) →
     matchingRuleKey (handleAddRule keyword targetProject projectRules) event
     = Some keyword).
Proof.
  intros Hnew. unfold handleAddRule. rewrite !matchingRuleKey_find.
  rewrite Object_keys_set_new by done. split.
  - intros Hidx. rewrite key_insert_not_index by done.
    rewrite find_app. simpl. by destruct (List.find _ (Object_keys projectRules)).
  - intros [n Hidx] Hocc Holder.
    destruct (key_insert_index_split keyword n (Object_keys projectRules) Hidx)
      as (l1 & l2 & Hkeys & -> & Hall).
    rewrite find_app, find_all_false; [simpl; by rewrite Hocc |].
    intros k Hk. apply Holder.
    + rewrite Hkeys. apply elem_of_app. by left.
    + by eapply Forall_forall in Hall.
Qed.

(** The theorem at the rule "5", added after the rule "run": the title
    "5k run" now resolves by the newer rule. *)
Lemma new_rule_priority_witness :
  matchingRuleKey (handleAddRule "5" "Races" [("run", "Sport")])
    (ev "5k run" 1 "#808080")
  = Some "5".
Proof.
  refine (proj2 (new_rule_priority [("run", "Sport")] "5" "Races"
                   (ev "5k run" 1 "#808080") _) _ _ _).
  - by_evaluation.
  - by eexists.
  - vm_compute. reflexivity.
  - intros k Hk Hidx. apply list_elem_of_singleton in Hk as ->.
    vm_compute in Hidx. done.
Defined.

(** ** The rename / recolor mutator, entry by entry *)

Section mutator_entries.
Implicit Types (um prev m : gmap string Mapping.t) (k : string).

Lemma updateOne_keeps_new um newName newColor m originalName k :
  m !! k = Some (Mapping.mk newName newColor) →
  updateOne um newName newColor m originalName !! k
  = Some (Mapping.mk newName newColor).
Proof.
  intros Hk. unfold updateOne.
  destruct (decide (originalName = k)) as [-> | Hne];
    [by rewrite lookup_insert_eq |].
  rewrite lookup_insert_ne by done. case_decide; [| done].
  rewrite recolorAll_lookup, Hk. simpl. by case_decide.
Qed.

Lemma handleUpdateProject_keeps_new um originalNames newName newColor prev k :
  prev !! k = Some (Mapping.mk newName newColor) →
  handleUpdateProject um originalNames newName newColor prev !! k
  = Some (Mapping.mk newName newColor).
Proof.
  unfold handleUpdateProject. revert prev.
  induction originalNames as [|o names IH]; intros prev Hk; [done |].
  cbn [fold_left]. by apply IH, updateOne_keeps_new.
Qed.

Lemma handleUpdateProject_selected um originalNames newName newColor prev k :
  k ∈ originalNames →
  handleUpdateProject um originalNames newName newColor prev !! k
  = Some (Mapping.mk newName newColor).
Proof.
  unfold handleUpdateProject. revert prev.
  induction originalNames as [|o names IH]; intros prev Hk;
    [by apply elem_of_nil in Hk |].
  cbn [fold_left]. destruct (decide (k = o)) as [-> | Hne].
  - apply (handleUpdateProject_keeps_new um names).
    unfold updateOne. by rewrite lookup_insert_eq.
  - apply IH. apply elem_of_cons in Hk as [? | ?]; done.
Qed.

Lemma updateOne_other um newName newColor m originalName k :
  originalName ≠ k →
  updateOne um newName newColor m originalName !! k
  = (λ mapping,
       if decide (displayNameOf um originalName = newName
                  ∧ Mapping.name mapping = newName)
       then Mapping.mk (Mapping.name mapping) newColor
       else mapping) <$> m !! k.
Proof.
  intros Hne. unfold updateOne. rewrite lookup_insert_ne by done.
  destruct (decide (displayNameOf um originalName = newName)) as [Hdn | Hdn].
  - rewrite recolorAll_lookup. destruct (m !! k) as [e|]; [| done]. simpl.
    rewrite Hdn. f_equal. repeat case_decide; tauto || done.
  - destruct (m !! k) as [e|]; [| done]. simpl. by rewrite decide_False by tauto.
Qed.

Lemma handleUpdateProject_other_name um originalNames newName newColor prev k :
  k ∉ originalNames →
  Mapping.name <$> handleUpdateProject um originalNames newName newColor prev !! k
  = Mapping.name <$> prev !! k.
Proof.
  unfold handleUpdateProject. revert prev.
  induction originalNames as [|o names IH]; intros prev Hk; [done |].
  apply not_elem_of_cons in Hk as [Hne Hk]. cbn [fold_left].
  rewrite IH by done. rewrite updateOne_other by done.
  destruct (prev !! k) as [e|]; [| done]. simpl. by case_decide.
Qed.

Lemma handleUpdateProject_other_entry um originalNames newName newColor prev k :
  k ∉ originalNames →
  (∀ mapping, prev !! k = Some mapping → Mapping.name mapping ≠ newName) →
  handleUpdateProject um originalNames newName newColor prev !! k = prev !! k.
Proof.
  unfold handleUpdateProject. revert prev.
  induction originalNames as [|o names IH]; intros prev Hk Hname; [done |].
  apply not_elem_of_cons in Hk as [Hne Hk]. cbn [fold_left].
  assert (updateOne um newName newColor prev o !! k = prev !! k) as Hstep.
  { rewrite updateOne_other by done.
    destruct (prev !! k) as [e|] eqn:He; [| done]. simpl.
    rewrite decide_False; [done |]. intros [_ ?]. by eapply Hname. }
  rewrite IH; [done | done |]. intros mapping. rewrite Hstep. apply Hname.
Qed.

Lemma displayNameOf_renamed um originalNames newName newColor prev k :
  newName ≠ "" →
  displayNameOf (handleUpdateProject um originalNames newName newColor prev) k
  = if decide (k ∈ originalNames) then newName else displayNameOf prev k.
Proof.
  intros Hnew. unfold displayNameOf. case_decide as Hk.
  - rewrite handleUpdateProject_selected by done. unfold or_else. simpl.
    by rewrite decide_False.
  - pose proof (handleUpdateProject_other_name um originalNames newName newColor
                  prev k Hk) as Hname.
    destruct (handleUpdateProject _ _ _ _ _ !! k) as [e'|],
      (prev !! k) as [e|]; simpl in Hname; try done.
    by injection Hname as ->.
Qed.

Lemma handleUpdateProject_names_nonempty um originalNames newName newColor prev :
  newName ≠ "" →
  (∀ k mapping, prev !! k = Some mapping → Mapping.name mapping ≠ "") →
  ∀ k mapping,
    handleUpdateProject um originalNames newName newColor prev !! k = Some mapping →
    Mapping.name mapping ≠ "".
Proof.
  intros Hnew Hprev k mapping Hk.
  destruct (decide (k ∈ originalNames)) as [Hin | Hin].
  - rewrite handleUpdateProject_selected in Hk by done. by injection Hk as <-.
  - pose proof (handleUpdateProject_other_name um originalNames newName newColor
                  prev k Hin) as Hname.
    rewrite Hk in Hname. simpl in Hname.
    destruct (prev !! k) as [e|] eqn:He; [| done]. injection Hname as ->.
    by eapply Hprev.
Qed.

End mutator_entries.

(** X9: what the rename / recolor mutator writes.  Every selected key gets
    exactly the entry of the new name and color.  A key that is not selected
    keeps its entry when its name is not the new name, and in every case
    keeps its name (or stays unmapped): only its color can change. *)
Theorem update_project_entries (userMappings prev : gmap string Mapping.t)
    (originalNames : list string) (newName newColor : string) :
  let newMappings :=
    handleUpdateProject userMappings originalNames newName newColor prev in
  (∀ k, k ∈ originalNames →
        newMappings !! k = Some (Mapping.mk newName newColor))
  ∧ (∀ k, k ∉ originalNames →
          Mapping.name <$> newMappings !! k = Mapping.name <$> prev !! k)
  ∧ (∀ k, k ∉ originalNames →
          (∀ mapping, prev !! k = Some mapping → Mapping.name mapping ≠ newName) →
          newMappings !! k = prev !! k).
Proof.
  intros newMappings. split; [| split].
  - intros k. apply handleUpdateProject_selected.
  - intros k. apply handleUpdateProject_other_name.
  - intros k. apply handleUpdateProject_other_entry.
Qed.

(** X10: renaming with a non-empty name changes the display name of the
    selected keys, which becomes the new name, and of no other key. *)
Theorem rename_display_names (userMappings prev : gmap string Mapping.t)
    (originalNames : list string) (newName newColor : string) (k : string) :
  newName ≠ "" →
  displayNameOf
    (handleUpdateProject userMappings originalNames newName newColor prev) k
  = if decide (k ∈ originalNames) then newName else displayNameOf prev k.
Proof. apply displayNameOf_renamed. Qed.

(** The theorem at the renaming of "Gym" to "Sport", seen from "Gym". *)
Lemma rename_display_names_witness :
  displayNameOf (handleUpdateProject ∅ ["Gym"; "Run"] "Sport" "#00ff00" ∅) "Gym"
  = "Sport".
Proof.
  refine (eq_trans (rename_display_names ∅ ∅ ["Gym"; "Run"] "Sport" "#00ff00"
                      "Gym" _) _).
  - discriminate.
  - vm_compute. reflexivity.
Defined.

(** ** Sessions *)

Section sessions.
Context {num : Type} `{!JsNumber num} `{!JsCase} `{!JsTrim}.
Implicit Types (actions : list (Action num)) (R : jsobj string).

Lemma truthy_true s : truthy s = true ↔ s ≠ "".
Proof. unfold truthy. apply bool_decide_eq_true. Qed.

Lemma handleAdd_keeps_rules_sound keyword targetProject R :
  ("" ∉ Object_keys R) ∧ (∀ k t, obj_get R k = Some t → t ≠ "") →
  ("" ∉ Object_keys (ProjectRulesManager_handleAdd keyword targetProject R).1)
  ∧ (∀ k t, obj_get (ProjectRulesManager_handleAdd keyword targetProject R).1 k
            = Some t → t ≠ "").
Proof.
  intros [Hkeys Htargets]. unfold ProjectRulesManager_handleAdd, handleAddRule.
  destruct (truthy (trim keyword)) eqn:Hk; [| done].
  destruct (truthy (trim targetProject)) eqn:Ht; [| done]. simpl.
  apply truthy_true in Hk, Ht. split.
  - destruct (decide (trim keyword ∈ Object_keys R)).
    + by rewrite Object_keys_set_old.
    + rewrite Object_keys_set_new by done.
      intros [? | ?]%elem_of_key_insert; [by apply Hk | done].
  - intros k t. rewrite obj_get_set. case_decide; [by intros [= <-] | apply Htargets].
Qed.

Lemma handleDeleteRule_keeps_rules_sound keyword R :
  ("" ∉ Object_keys R) ∧ (∀ k t, obj_get R k = Some t → t ≠ "") →
  ("" ∉ Object_keys (handleDeleteRule keyword R))
  ∧ (∀ k t, obj_get (handleDeleteRule keyword R) k = Some t → t ≠ "").
Proof.
  intros [Hkeys Htargets]. unfold handleDeleteRule. split.
  - rewrite Object_keys_delete. by intros [_ ?]%list_elem_of_filter.
  - intros k t. rewrite obj_get_delete. case_decide; [done | apply Htargets].
Qed.

Lemma handleSave_keeps_names_nonempty (editingProject : option (Project.t num))
    newName newColor (m : gmap string Mapping.t) :
  (∀ k mapping, m !! k = Some mapping → Mapping.name mapping ≠ "") →
  ∀ k mapping,
    (ProjectRanking_handleSave editingProject newName newColor m).1 !! k
    = Some mapping →
    Mapping.name mapping ≠ "".
Proof.
  intros Hm. unfold ProjectRanking_handleSave. simpl.
  destruct editingProject as [project|]; [| done].
  destruct (truthy (trim newName)) eqn:Hname; [| done].
  apply truthy_true in Hname. by apply handleUpdateProject_names_nonempty.
Qed.

Lemma session_snoc actions a :
  session (actions ++ [a]) = dispatch (session actions) a.
Proof. unfold session. by rewrite fold_left_app. Qed.

Lemma session_rules_sound actions :
  ("" ∉ Object_keys (AppState.projectRules (session actions)))
  ∧ (∀ k t, obj_get (AppState.projectRules (session actions)) k = Some t → t ≠ "").
Proof.
  induction actions as [|a actions IH] using rev_ind.
  - split; [apply not_elem_of_nil | done].
  - rewrite session_snoc. destruct a; simpl; try done.
    + by apply handleAdd_keeps_rules_sound.
    + by apply handleDeleteRule_keeps_rules_sound.
Qed.

Lemma session_names_nonempty actions k mapping :
  AppState.userMappings (session actions) !! k = Some mapping →
  Mapping.name mapping ≠ "".
Proof.
  revert k mapping. induction actions as [|a actions IH] using rev_ind.
  - intros k mapping. unfold session. simpl. by rewrite lookup_empty.
  - rewrite session_snoc. destruct a; simpl; try done.
    by apply handleSave_keeps_names_nonempty.
Qed.

Lemma session_ignored_NoDup actions :
  NoDup (AppState.ignoredProjects (session actions)).
Proof.
  induction actions as [|a actions IH] using rev_ind.
  - constructor.
  - rewrite session_snoc. destruct a; simpl; try done.
    apply NoDup_firstOccurrences.
Qed.

End sessions.

(** X11: in the state of every session that starts with the empty state,
    whatever the handlers are called with, no rule has an empty keyword or an
    empty target, no mapping entry has an empty name, and the ignore list has
    no key twice. *)
Theorem session_invariants {num : Type} `{!JsNumber num} `{!JsCase} `{!JsTrim}
    (actions : list (Action num)) :
  let s := session actions in
  ("" ∉ Object_keys (AppState.projectRules s))
  ∧ (∀ k t, obj_get (AppState.projectRules s) k = Some t → t ≠ "")
  ∧ (∀ k mapping, AppState.userMappings s !! k = Some mapping →
                  Mapping.name mapping ≠ "")
  ∧ NoDup (AppState.ignoredProjects s).
Proof.
  intros s. destruct (session_rules_sound actions) as [Hkeys Htargets].
  split; [done | split; [done | split]].
  - intros k mapping. apply session_names_nonempty.
  - apply session_ignored_NoDup.
Qed.

(** X12: in every session Stage 1 is the first-match rule without
    exception: the effective label of an event is the target of the first
    rule whose keyword occurs in its title, and its title when there is
    none. *)
Theorem session_rule_resolution {num : Type} `{!JsNumber num} `{!JsCase}
    `{!JsTrim} (actions : list (Action num)) (event : AnalyzedEvent.t num) :
  AnalyzedEvent.title
    (applyRules (AppState.projectRules (session actions)) event)
  = specLabel (AppState.projectRules (session actions))
              (AnalyzedEvent.title event).
Proof. apply applyRules_specLabel, session_rules_sound. Qed.

(** X13: in every session a mapped key displays under the name of its
    entry, and recoloring one key of a merged project recolors the project:
    when [A] and [B] both map to the name [X], saving a set of keys that
    contains [A] under the name [X] with the color [C2] leaves every entry of
    name [X], the entry of [B] included, with the color [C2]. *)
Theorem session_recolor_propagation {num : Type} `{!JsNumber num} `{!JsCase}
    `{!JsTrim} (actions : list (Action num)) (originalNames : list string)
    (A B X C2 : string) (mappingA mappingB : Mapping.t) :
  let userMappings := AppState.userMappings (session actions) in
  userMappings !! A = Some mappingA → Mapping.name mappingA = X →
  userMappings !! B = Some mappingB → Mapping.name mappingB = X →
  A ∈ originalNames →
  displayNameOf userMappings A = X
  ∧ (∀ k mapping,
       handleUpdateProject userMappings originalNames X C2 userMappings !! k
       = Some mapping →
       Mapping.name mapping = X → Mapping.color mapping = C2)
  ∧ ∃ mapping,
      handleUpdateProject userMappings originalNames X C2 userMappings !! B
      = Some mapping
      ∧ Mapping.name mapping = X ∧ Mapping.color mapping = C2.
Proof.
  intros userMappings HA HnameA HB HnameB Hin.
  assert (X ≠ "") as HX
    by (rewrite <- HnameA; by eapply session_names_nonempty).
  assert (displayNameOf userMappings A = X) as Hdn.
  { unfold displayNameOf, or_else. rewrite HA, HnameA. by rewrite decide_False. }
  assert (∀ k mapping,
            handleUpdateProject userMappings originalNames X C2 userMappings !! k
            = Some mapping →
            Mapping.name mapping = X → Mapping.color mapping = C2)
    as Hall by by eapply handleUpdateProject_recolors.
  split; [done | split; [done |]].
  destruct (handleUpdateProject_keeps_name userMappings originalNames X C2
              userMappings B) as (mapping & Hm & Hname); [by eauto |].
  exists mapping. split; [done | split; [done |]]. by eapply Hall.
Qed.

(** A session with one merged project, "A" and "B" saved under "X" *)
Lemma session_recolor_propagation_witness :
  ∃ mapping,
    handleUpdateProject
      (AppState.userMappings
         (session [SaveProject (Some (Project.mk "A" 1%float "#808080" ["A"; "B"]))
                               " X " "#111111"]))
      ["A"] "X" "#222222"
      (AppState.userMappings
         (session [SaveProject (Some (Project.mk "A" 1%float "#808080" ["A"; "B"]))
                               " X " "#111111"]))
    !! "B" = Some mapping
    ∧ Mapping.name mapping = "X" ∧ Mapping.color mapping = "#222222".
Proof.
  refine (proj2 (proj2 (session_recolor_propagation (num := float)
    [SaveProject (Some (Project.mk "A" 1%float "#808080" ["A"; "B"])) " X " "#111111"]
    ["A"] "A" "B" "X" "#222222"
    (Mapping.mk "X" "#111111") (Mapping.mk "X" "#111111") _ _ _ _ _))).
  - vm_compute. reflexivity.
  - reflexivity.
  - vm_compute. reflexivity.
  - reflexivity.
  - left.
Defined.

(** ** Renaming and the engine *)

Section rename_engine.
Context {num : Type} `{!JsNumber num} `{!JsCase}.
Implicit Types (calendarImages : list (CalendarImage.t num)).
Implicit Types (m : gmap string Mapping.t) (p q : Project.t num).
Implicit Types (output : list (Project.t num)).

Lemma elem_of_originalNames calendarImages m ign R output q k :
  displayProjects calendarImages m ign R = Some output → q ∈ output →
  k ∈ Project.originalNames q
  ↔ k ∈ Object_keys (aggregatedByOriginal ign (processedEvents calendarImages R))
    ∧ displayNameOf m k = Project.name q.
Proof.
  intros Hout Hq.
  destruct (elem_of_displayProjects _ _ _ _ _ _ Hout Hq)
    as (before & p & Hfinal & Hp & Hname & _ & Hnames).
  destruct (finalProjects_project _ _ _ _ _ _ Hfinal Hp) as [Hfilter _].
  rewrite Hnames, Hname, Hfilter, list_elem_of_filter. tauto.
Qed.

Lemma key_in_output calendarImages m ign R output k :
  displayProjects calendarImages m ign R = Some output →
  k ∈ Object_keys (aggregatedByOriginal ign (processedEvents calendarImages R)) →
  ∃ q, q ∈ output
       ∧ Project.name q = displayNameOf m k
       ∧ k ∈ Project.originalNames q.
Proof.
  intros (before & Hfinal & ->)%displayProjects_Some Hk.
  destruct (finalProjects_of_key calendarImages m ign R before k Hfinal Hk)
    as (p & Hp & Hname & Hin).
  destruct (assignFallbackColors_of_final m before p Hp)
    as (q & Hq & Hqname & _ & Hqnames).
  exists q. by rewrite Hqname, Hqnames.
Qed.

Lemma originalNames_nonempty calendarImages m ign R output q :
  displayProjects calendarImages m ign R = Some output → q ∈ output →
  ∃ k, k ∈ Project.originalNames q.
Proof.
  intros Hout Hq.
  destruct (elem_of_displayProjects _ _ _ _ _ _ Hout Hq)
    as (before & p & Hfinal & Hp & _ & _ & Hnames).
  destruct (finalProjects_project _ _ _ _ _ _ Hfinal Hp)
    as (_ & _ & k & _ & Hlast & _).
  exists k. rewrite Hnames. by eapply last_Some_elem_of.
Qed.

(** The engine returns exactly when no key of [aggregatedByOriginal]
    displays under the name of a member of [Object.prototype]. *)
Lemma displayProjects_returns calendarImages m ign R :
  is_Some (displayProjects calendarImages m ign R)
  ↔ ∀ k, k ∈ Object_keys
               (aggregatedByOriginal ign (processedEvents calendarImages R)) →
         ¬ inherited (displayNameOf m k).
Proof. by rewrite displayProjects_is_Some, finalProjects_is_Some. Qed.

End rename_engine.

(** X14: renaming a project of the output merges it into the project that
    has the new name.  After [handleUpdateProject] on the original names of a
    project [p] of the output, with a non-empty new name, the engine throws
    exactly when the new name names a member of [Object.prototype] (such as
    "constructor").  When it returns, the output has a project of the new
    name; its original names are those of [p] together with those of the
    project that had the new name before, if there was one; and every other
    project of the new output has the name and the original names of a project
    of the old output. *)
Theorem rename_merges {num : Type} `{!JsNumber num} `{!JsCase}
    (calendarImages : list (CalendarImage.t num))
    (userMappings : gmap string Mapping.t) (ignoredProjects : list string)
    (projectRules : jsobj string) (old : list (Project.t num))
    (p : Project.t num) (newName newColor : string) :
  let renamed :=
    displayProjects calendarImages
      (handleUpdateProject userMappings (Project.originalNames p) newName
         newColor userMappings)
      ignoredProjects projectRules in
  displayProjects calendarImages userMappings ignoredProjects projectRules
  = Some old →
  p ∈ old → newName ≠ "" →
  (renamed = None ↔ inherited newName)
  ∧ ∀ new, renamed = Some new →
      (∃ q, q ∈ new ∧ Project.name q = newName)
      ∧ (∀ q, q ∈ new → Project.name q = newName →
              ∀ k, k ∈ Project.originalNames q
                   ↔ k ∈ Project.originalNames p
                     ∨ ∃ p2, p2 ∈ old ∧ Project.name p2 = newName
                             ∧ k ∈ Project.originalNames p2)
      ∧ (∀ q, q ∈ new → Project.name q ≠ newName →
              ∃ p2, p2 ∈ old ∧ Project.name p2 = Project.name q
                    ∧ ∀ k, k ∈ Project.originalNames p2
                           ↔ k ∈ Project.originalNames q).
Proof.
  intros renamed Hold Hp Hnew.
  pose proof (λ k, elem_of_originalNames calendarImages userMappings
                     ignoredProjects projectRules old p k Hold Hp) as Hnames.
  destruct (originalNames_nonempty _ _ _ _ _ _ Hold Hp) as [k0 Hk0].
  split.
  { rewrite eq_None_not_Some. unfold renamed. rewrite displayProjects_returns.
    split.
    - intros Hnot. apply dec_stable. intros Hinh. apply Hnot. intros k Hk.
      rewrite displayNameOf_renamed by done. case_decide; [done |].
      apply (proj1 (displayProjects_returns calendarImages userMappings
                      ignoredProjects projectRules)); [by eexists | done].
    - intros Hinh Hall. apply (Hall k0); [by apply Hnames |].
      rewrite displayNameOf_renamed by done. by rewrite decide_True. }
  intros new Hrenamed. unfold renamed in Hrenamed.
  assert (∀ q k, q ∈ new →
            k ∈ Project.originalNames q
            ↔ k ∈ Object_keys
                    (aggregatedByOriginal ignoredProjects
                       (processedEvents calendarImages projectRules))
              ∧ (if decide (k ∈ Project.originalNames p) then newName
                 else displayNameOf userMappings k) = Project.name q) as Hq.
  { intros q k Hin.
    rewrite (elem_of_originalNames _ _ _ _ _ _ k Hrenamed Hin).
    by rewrite displayNameOf_renamed. }
  split; [| split].
  - destruct (key_in_output calendarImages
                (handleUpdateProject userMappings (Project.originalNames p)
                   newName newColor userMappings)
                ignoredProjects projectRules new k0 Hrenamed)
      as (q & Hin & Hname & _); [by apply Hnames |].
    exists q. split; [done |].
    rewrite Hname, displayNameOf_renamed by done. by rewrite decide_True.
  - intros q Hin Hname k. rewrite (Hq q k Hin), Hname. split.
    + intros [Hk Hdn]. case_decide; [by left |]. right.
      destruct (key_in_output calendarImages userMappings ignoredProjects
                  projectRules old k Hold Hk) as (p2 & Hp2 & Hp2name & Hkp2).
      exists p2. by rewrite Hp2name.
    + intros [Hk | (p2 & Hp2 & Hp2name & Hk)].
      * rewrite decide_True by done. split; [by apply Hnames | done].
      * apply (elem_of_originalNames _ _ _ _ _ _ k Hold Hp2) in Hk as [Hk Hdn].
        split; [done |]. case_decide; [done | by rewrite Hdn].
  - intros q Hin Hname.
    destruct (originalNames_nonempty _ _ _ _ _ _ Hrenamed Hin) as [k1 Hk1].
    apply (Hq q k1 Hin) in Hk1 as [Hk1 Hdn1].
    destruct (decide (k1 ∈ Project.originalNames p)) as [? | Hout]; [done |].
    destruct (key_in_output calendarImages userMappings ignoredProjects
                projectRules old k1 Hold Hk1) as (p2 & Hp2 & Hp2name & _).
    exists p2. split; [done | split; [by rewrite Hp2name |]].
    intros k. rewrite (elem_of_originalNames _ _ _ _ _ _ k Hold Hp2), (Hq q k Hin).
    rewrite Hp2name, Hdn1. split; intros [Hk Hdn]; (split; [done |]).
    + rewrite decide_False; [done |]. intros [_ Hp']%Hnames.
      apply Hout. apply Hnames. split; [done |]. congruence.
    + case_decide; [| done]. by subst.
Qed.

(** The theorem at the renaming of "A" to "X", where a key "X" exists. *)
Lemma rename_merges_witness :
  ∃ q : Project.t float,
    q ∈ [Project.mk "X" 3%float "#222222" ["A"; "X"]] ∧ Project.name q = "X".
Proof.
  refine (proj1 (proj2 (rename_merges
    (image [ev "A" 1 "#111111"; ev "X" 2 "#222222"]) ∅ [] []
    [Project.mk "A" 1%float "#111111" ["A"]; Project.mk "X" 2%float "#222222" ["X"]]
    (Project.mk "A" 1%float "#111111" ["A"]) "X" "#00ff00" _ _ _)
    [Project.mk "X" 3%float "#222222" ["A"; "X"]] _)).
  - vm_compute. reflexivity.
  - left.
  - discriminate.
  - vm_compute. reflexivity.
Defined.

(** ** Objects without some of their keys *)

Lemma key_before_later k k' x :
  key_before k k' = true → may_precede k' x → key_before k x = true.
Proof.
  unfold key_before, may_precede.
  destruct (array_index k), (array_index k'), (array_index x); try done.
  intros ?%N.ltb_lt ?. apply N.ltb_lt. by etrans.
Qed.

Lemma key_insert_front k ks :
  (∀ x, x ∈ ks → key_before k x = true) → key_insert k ks = k :: ks.
Proof.
  destruct ks as [|k' ks]; [done |]. intros Hall. simpl.
  by rewrite Hall by left.
Qed.

Lemma key_insert_filter_out (Q : string → Prop) `{!∀ k, Decision (Q k)} k ks :
  ¬ Q k → filter Q (key_insert k ks) = filter Q ks.
Proof.
  intros HQ. induction ks as [|k' ks IH]; simpl.
  - by rewrite filter_cons_False.
  - destruct (key_before k k').
    + by rewrite (filter_cons_False _ k).
    + rewrite !(filter_cons _ k'). by rewrite IH.
Qed.

Lemma key_insert_filter_in (Q : string → Prop) `{!∀ k, Decision (Q k)} k ks :
  StronglySorted may_precede ks → Q k →
  filter Q (key_insert k ks) = key_insert k (filter Q ks).
Proof.
  intros Hs HQ. induction Hs as [|k' ks Hs IH Hall]; simpl.
  - by rewrite filter_cons_True.
  - destruct (key_before k k') eqn:Hb.
    + rewrite (filter_cons_True _ k) by done.
      rewrite key_insert_front; [done |].
      intros x [_ Hx]%list_elem_of_filter.
      apply elem_of_cons in Hx as [-> | Hx]; [done |].
      eapply key_before_later; [done |]. by eapply Forall_forall in Hall.
    + destruct (decide (Q k')).
      * rewrite !(filter_cons_True _ k') by done. simpl. by rewrite Hb, IH.
      * by rewrite !(filter_cons_False _ k') by done.
Qed.

Lemma keysOf_filter (Q : string → Prop) `{!∀ k, Decision (Q k)} l :
  keysOf (filter Q l) = filter Q (keysOf l).
Proof.
  induction l as [|k l IH] using rev_ind; [done |].
  rewrite filter_app, keysOf_snoc. unfold addKey.
  destruct (decide (Q k)) as [HQ | HQ].
  - rewrite (filter_cons_True _ k) by done. rewrite filter_nil, keysOf_snoc, IH.
    unfold addKey. destruct (decide (k ∈ keysOf l)) as [Hk | Hk].
    + by rewrite decide_True by by apply list_elem_of_filter.
    + rewrite decide_False by by intros [_ ?]%list_elem_of_filter.
      symmetry. apply key_insert_filter_in; [| done].
      apply keysOf_ownKeyOrder.
  - rewrite (filter_cons_False _ k) by done. rewrite filter_nil, app_nil_r, IH.
    case_decide; [done |]. by rewrite key_insert_filter_out.
Qed.

Lemma filter_equiv_on {A : Type} (P Q : A → Prop) `{!∀ x, Decision (P x)}
    `{!∀ x, Decision (Q x)} (l : list A) :
  (∀ x, x ∈ l → P x ↔ Q x) → filter P l = filter Q l.
Proof.
  induction l as [|a l IH]; intros Hext; [done |].
  rewrite !(filter_cons _ a), IH by (intros x Hx; apply Hext; by right).
  destruct (decide (P a)) as [HP | HP].
  - by rewrite decide_True by (by apply (Hext a); [left |]).
  - rewrite decide_False; [done |]. intros HQ. apply HP. by apply (Hext a); [left |].
Qed.

Lemma filter_map_comm {A B : Type} (f : A → B) (P : B → Prop) (Q : A → Prop)
    `{!∀ y, Decision (P y)} `{!∀ x, Decision (Q x)} (l : list A) :
  (∀ x, P (f x) ↔ Q x) → filter P (map f l) = map f (filter Q l).
Proof.
  intros HPQ. induction l as [|a l IH]; [done |]. cbn [map].
  destruct (decide (Q a)) as [HQ | HQ].
  - rewrite !filter_cons_True by (done || by apply HPQ). cbn [map]. by rewrite IH.
  - rewrite (filter_cons_False Q) by done.
    rewrite (filter_cons_False P); [done |]. by intros ?%HPQ.
Qed.

Section without_keys.
Context {V : Type}.
Implicit Types (o : jsobj V) (k : string).

Lemma obj_get_filter (Q : string → Prop) (Q' : string * V → Prop)
    `{!∀ k, Decision (Q k)} `{!∀ entry, Decision (Q' entry)} o k :
  (∀ entry, Q' entry ↔ Q entry.1) →
  obj_get (filter Q' o) k = if decide (Q k) then obj_get o k else None.
Proof.
  intros HQ. induction o as [|[k0 v0] o IH]; [by case_decide |].
  destruct (decide (Q k0)) as [HQ0 | HQ0].
  - rewrite filter_cons_True by by apply HQ. cbn [obj_get]. rewrite IH.
    destruct (decide (k0 = k)) as [<- | ?]; [| done].
    by destruct (decide (Q k0)).
  - rewrite filter_cons_False by by intros ?%HQ. rewrite IH. cbn [obj_get].
    destruct (decide (k0 = k)) as [<- | ?]; [| done].
    by destruct (decide (Q k0)).
Qed.

(** Two objects with the same keys, in the same order, and the same values
    are the same object. *)
Lemma obj_ext o1 o2 :
  NoDup (Object_keys o1) → Object_keys o1 = Object_keys o2 →
  (∀ k, obj_get o1 k = obj_get o2 k) → o1 = o2.
Proof.
  unfold Object_keys. revert o2.
  induction o1 as [|[k1 v1] o1 IH]; intros [|[k2 v2] o2]; simpl; try done.
  rewrite NoDup_cons. intros [Hk1 Hnd] [= <- Hkeys] Hget.
  pose proof (Hget k1) as Hv. rewrite !decide_True in Hv by done.
  injection Hv as <-. f_equal. apply IH; [done | done |].
  intros k. specialize (Hget k).
  destruct (decide (k1 = k)) as [<- | ?]; [| done].
  rewrite (proj2 (obj_get_None o1 k1)) by done.
  symmetry. apply obj_get_None. unfold Object_keys.
  exact (eq_ind _ (λ l, k1 ∉ l) Hk1 _ Hkeys).
Qed.

End without_keys.

(** ** Deleting a project and the engine *)

Section delete_engine.
Context {num : Type} `{!JsNumber num} `{!JsCase}.
Implicit Types (P : list (AnalyzedEvent.t num)) (m : gmap string Mapping.t).
Implicit Types (ign names : list string).

Lemma surviving_titles_more ign ign' names P :
  (∀ x, x ∈ ign' ↔ x ∈ ign ∨ x ∈ names) →
  map AnalyzedEvent.title (survivingEvents ign' P)
  = filter (λ k, k ∉ names) (map AnalyzedEvent.title (survivingEvents ign P)).
Proof.
  intros Hmore. unfold survivingEvents.
  induction P as [|e P IH]; [done |]. rewrite !(filter_cons _ e).
  destruct (decide ((AnalyzedEvent.title e ∉ ign)
                    ∧ ¬ inherited (AnalyzedEvent.title e))) as [[Hign Hinh] | Hnot].
  - cbn [map]. rewrite (filter_cons _ (AnalyzedEvent.title e)).
    destruct (decide (AnalyzedEvent.title e ∉ names)) as [Hn | Hn].
    + rewrite decide_True by (rewrite Hmore; tauto). cbn [map]. by rewrite IH.
    + rewrite decide_False; [exact IH |].
      intros [Hnot _]. apply Hnot, Hmore. right. by apply dec_stable.
  - rewrite decide_False; [exact IH |].
    intros [Hnot' Hinh]. apply Hnot. split; [| done].
    intros Hin. apply Hnot', Hmore. by left.
Qed.

Lemma obj_get_fold_addOriginal_more ign ign' names P
    (agg agg' : jsobj (ByOriginal.t num)) :
  (∀ x, x ∈ ign' ↔ x ∈ ign ∨ x ∈ names) →
  (∀ k, obj_get agg' k = if decide (k ∉ names) then obj_get agg k else None) →
  ∀ k, obj_get (fold_left (addOriginal ign') P agg') k
       = if decide (k ∉ names)
         then obj_get (fold_left (addOriginal ign) P agg) k else None.
Proof.
  intros Hmore. revert agg agg'.
  induction P as [|e P IH]; intros agg agg' Hagg; [done |].
  cbn [fold_left]. apply IH. intros k.
  destruct (decide (AnalyzedEvent.title e ∈ ign)) as [Hign | Hign].
  { rewrite !addOriginal_ignored; [done | done |]. apply Hmore. by left. }
  destruct (decide (AnalyzedEvent.title e ∈ names)) as [Hn | Hn].
  - rewrite (addOriginal_ignored ign') by (apply Hmore; by right).
    rewrite Hagg. case_decide; [| done].
    rewrite addOriginal_get_ne; [done |]. by intros <-.
  - destruct (decide (AnalyzedEvent.title e = k)) as [<- | ?].
    + rewrite !addOriginal_get_title; [| done | rewrite Hmore; tauto].
      by rewrite Hagg, !decide_True.
    + rewrite !addOriginal_get_ne by done. apply Hagg.
Qed.

Lemma aggregatedByOriginal_more ign ign' names P :
  (∀ x, x ∈ ign' ↔ x ∈ ign ∨ x ∈ names) →
  aggregatedByOriginal ign' P
  = filter (λ entry, entry.1 ∉ names) (aggregatedByOriginal ign P).
Proof.
  intros Hmore. apply obj_ext.
  - apply NoDup_Object_keys_aggregatedByOriginal.
  - rewrite !Object_keys_aggregatedByOriginal.
    rewrite (surviving_titles_more ign ign' names) by done.
    rewrite keysOf_filter, <- Object_keys_aggregatedByOriginal.
    unfold Object_keys. symmetry. by apply fmap_fst_filter.
  - intros k.
    rewrite (obj_get_filter (λ k, k ∉ names) (λ entry, entry.1 ∉ names)) by done.
    apply (obj_get_fold_addOriginal_more ign ign' names); [done |].
    intros k'. by case_decide.
Qed.

Lemma forEach_addDisplay_without m n (L : jsobj (ByOriginal.t num))
    (agg agg' aggL : jsobj (ByDisplay.t num)) :
  forEach (addDisplay m) L agg = Some aggL →
  (∀ n', obj_get agg' n' = if decide (n' ≠ n) then obj_get agg n' else None) →
  ∃ aggF,
    forEach (addDisplay m) (filter (λ entry, displayNameOf m entry.1 ≠ n) L) agg'
    = Some aggF
    ∧ ∀ n', obj_get aggF n' = if decide (n' ≠ n) then obj_get aggL n' else None.
Proof.
  revert agg agg'. induction L as [|[k data] L IH]; intros agg agg' HL Hagg.
  { injection HL as <-. by exists agg'. }
  cbn [forEach] in HL.
  destruct (addDisplay m agg (k, data)) as [agg1|] eqn:H1; [| done].
  apply addDisplay_Some in H1 as (Hok & _ & Hget1).
  destruct (decide (displayNameOf m k = n)) as [Hn | Hn].
  - rewrite filter_cons_False by (simpl; auto).
    apply (IH agg1 agg' HL). intros n'. rewrite Hagg, Hget1.
    case_decide; [| done]. rewrite decide_False; [done | congruence].
  - rewrite filter_cons_True by done. cbn [forEach].
    destruct (addDisplay_is_Some m agg' k data) as [agg1' H1'].
    { destruct Hok as [Hk | ?]; [left | by right].
      apply obj_get_is_Some. rewrite Hagg, decide_True by done.
      by apply obj_get_is_Some. }
    rewrite H1'. apply addDisplay_Some in H1' as (_ & _ & Hget1').
    apply (IH agg1 agg1' HL). intros n'. rewrite Hget1', Hget1.
    destruct (decide (displayNameOf m k = n')) as [<- | ?]; [| apply Hagg].
    rewrite decide_True by done. by rewrite Hagg, decide_True.
Qed.

Lemma aggregatedByDisplay_without m n (L : jsobj (ByOriginal.t num))
    (agg : jsobj (ByDisplay.t num)) :
  aggregatedByDisplay m L = Some agg →
  aggregatedByDisplay m (filter (λ entry, displayNameOf m entry.1 ≠ n) L)
  = Some (filter (λ entry, entry.1 ≠ n) agg).
Proof.
  intros Hagg.
  destruct (forEach_addDisplay_without m n L [] [] agg Hagg)
    as (aggF & HF & Hget); [intros n'; by case_decide |].
  unfold aggregatedByDisplay, Object_entries. rewrite HF. f_equal.
  apply obj_ext.
  - by apply (NoDup_Object_keys_aggregatedByDisplay m
                (filter (λ entry, displayNameOf m entry.1 ≠ n) L)).
  - rewrite (aggregatedByDisplay_keys m _ _ HF).
    replace (Object_keys (filter (λ entry, displayNameOf m entry.1 ≠ n) L))
      with (filter (λ k, displayNameOf m k ≠ n) (Object_keys L))
      by (unfold Object_keys; symmetry; by apply fmap_fst_filter).
    rewrite <- (filter_map_comm (displayNameOf m) (λ n', n' ≠ n)
                  (λ k, displayNameOf m k ≠ n)) by done.
    rewrite keysOf_filter, <- (aggregatedByDisplay_keys m _ _ Hagg).
    unfold Object_keys. symmetry. by apply fmap_fst_filter.
  - intros n'.
    rewrite (obj_get_filter (λ n', n' ≠ n) (λ entry, entry.1 ≠ n)) by done.
    apply Hget.
Qed.

Lemma finalProjects_without calendarImages m ign ign' R
    (before output : list (Project.t num)) (p : Project.t num) :
  finalProjects calendarImages m ign R = Some before →
  displayProjects calendarImages m ign R = Some output →
  p ∈ output →
  (∀ x, x ∈ ign' ↔ x ∈ ign ∨ x ∈ Project.originalNames p) →
  finalProjects calendarImages m ign' R
  = Some (filter (λ q, Project.name q ≠ Project.name p) before).
Proof.
  intros (agg & Hagg & ->)%finalProjects_Some Hout Hp Hmore.
  unfold finalProjects, Object_entries.
  rewrite (aggregatedByOriginal_more ign ign' (Project.originalNames p)) by done.
  rewrite (filter_equiv_on _ (λ entry, displayNameOf m entry.1 ≠ Project.name p)).
  - rewrite (aggregatedByDisplay_without _ _ _ _ Hagg). simpl. f_equal.
    symmetry. apply filter_map_comm. by intros [n d].
  - intros [k data] Hin. simpl.
    rewrite (elem_of_originalNames _ _ _ _ _ _ k Hout Hp).
    apply (list_elem_of_fmap_2 fst) in Hin. simpl in Hin.
    unfold Object_keys. tauto.
Qed.

Lemma specFallback_filter_fields m used (ps : list (Project.t num))
    (Q : string → Prop) `{!∀ n, Decision (Q n)} :
  map (λ q, (Project.name q, Project.duration q, Project.originalNames q))
      (filter (λ q, Q (Project.name q)) (specFallback m used ps))
  = map (λ q, (Project.name q, Project.duration q, Project.originalNames q))
        (filter (λ q, Q (Project.name q)) ps).
Proof.
  revert used. induction ps as [|p ps IH]; intros used; [done |].
  cbn [specFallback]. rewrite (filter_cons _ p).
  destruct (wantsFallback m p); [destruct (firstFree used) as [c|] |].
  - rewrite (filter_cons _ (withColor p c)).
    change (Project.name (withColor p c)) with (Project.name p).
    destruct (decide (Q (Project.name p))); [| apply IH].
    rewrite !map_cons. f_equal. apply IH.
  - rewrite (filter_cons _ p).
    destruct (decide (Q (Project.name p))); [| apply IH].
    rewrite !map_cons. f_equal. apply IH.
  - rewrite (filter_cons _ p).
    destruct (decide (Q (Project.name p))); [| apply IH].
    rewrite !map_cons. f_equal. apply IH.
Qed.

End delete_engine.

(** X15: deleting a project of the output removes exactly that project.
    With the ignore list that [handleDeleteProject] returns for the original
    names of a project [p] of the output, the engine returns again; the
    projects before the fallback pass are the former ones without [p], in the
    same order and with the same durations, colors and original names; the
    output is the fallback pass on them, so it lists the names, durations and
    original names of the former output without those of [p], while fallback
    colors can be assigned anew. *)
Theorem delete_project_removes {num : Type} `{!JsNumber num} `{!JsCase}
    (calendarImages : list (CalendarImage.t num))
    (userMappings : gmap string Mapping.t) (ignoredProjects : list string)
    (projectRules : jsobj string) (before old : list (Project.t num))
    (p : Project.t num) :
  let ignoredProjects' :=
    handleDeleteProject (Project.originalNames p) ignoredProjects in
  finalProjects calendarImages userMappings ignoredProjects projectRules
  = Some before →
  displayProjects calendarImages userMappings ignoredProjects projectRules
  = Some old →
  p ∈ old →
  finalProjects calendarImages userMappings ignoredProjects' projectRules
  = Some (filter (λ q, Project.name q ≠ Project.name p) before)
  ∧ ∃ new,
      displayProjects calendarImages userMappings ignoredProjects' projectRules
      = Some new
      ∧ map (λ q, (Project.name q, Project.duration q, Project.originalNames q))
            new
        = map (λ q, (Project.name q, Project.duration q, Project.originalNames q))
              (filter (λ q, Project.name q ≠ Project.name p) old).
Proof.
  intros ignoredProjects' Hbefore Hold Hp.
  assert (finalProjects calendarImages userMappings ignoredProjects' projectRules
          = Some (filter (λ q, Project.name q ≠ Project.name p) before))
    as Hfinal.
  { apply (finalProjects_without calendarImages userMappings ignoredProjects
             ignoredProjects' projectRules before old p); [done | done | done |].
    intros x. apply elem_of_handleDeleteProject. }
  split; [done |]. eexists. split.
  { apply displayProjects_Some. eexists. split; [exact Hfinal | done]. }
  apply displayProjects_Some in Hold as (before' & Hbefore' & ->).
  assert (before' = before) as -> by congruence.
  rewrite !assignFallbackColors_specFallback.
  etrans;
    [| symmetry;
       exact (specFallback_filter_fields userMappings (colorsOf before) before
                (λ n, n ≠ Project.name p))].
  generalize (colorsOf (filter (λ q, Project.name q ≠ Project.name p) before)).
  intros used.
  pose proof (specFallback_filter_fields userMappings used
    (filter (λ q, Project.name q ≠ Project.name p) before) (λ _, True)) as Hall.
  rewrite !(filter_all (λ _, True)) in Hall by done. exact Hall.
Qed.

(** The theorem at the deletion of "Gym" from the first scenario. *)
Lemma delete_project_removes_witness :
  finalProjects
    (image [ev "Gym" 1 "#808080"; ev "Portugues Class" 2 "#808080"]) ∅
    (handleDeleteProject ["Gym"] []) [("Portugues", "Idiomas")]
  = Some (filter (λ q, Project.name q ≠ "Gym")
            [ Project.mk "Gym" 1%float "#808080" ["Gym"];
              Project.mk "Idiomas" 2%float "#808080" ["Idiomas"] ]).
Proof.
  refine (proj1 (delete_project_removes
    (image [ev "Gym" 1 "#808080"; ev "Portugues Class" 2 "#808080"]) ∅ []
    [("Portugues", "Idiomas")]
    [ Project.mk "Gym" 1%float "#808080" ["Gym"];
      Project.mk "Idiomas" 2%float "#808080" ["Idiomas"] ]
    [ Project.mk "Gym" 1%float "#0088FE" ["Gym"];
      Project.mk "Idiomas" 2%float "#00C49F" ["Idiomas"] ]
    (Project.mk "Gym" 1%float "#0088FE" ["Gym"]) _ _ _)).
  - vm_compute. reflexivity.
  - vm_compute. reflexivity.
  - left.
Defined.

(** ** The duration of each project *)

(** X16: the duration of a project of the output, from the inputs and the
    name of the project alone.  It is the running sum, from [0] on, over the
    labels that display under the name of the project, in the order in which
    [Object.keys] lists the labels that Stage 3 counts, of the running sum of
    the durations of the events with that label, in their order.  No law of
    addition is used: the equation holds for IEEE doubles with their
    rounding. *)
Theorem project_duration {num : Type} `{!JsNumber num} `{!JsCase}
    (calendarImages : list (CalendarImage.t num))
    (userMappings : gmap string Mapping.t) (ignoredProjects : list string)
    (projectRules : jsobj string) (output : list (Project.t num))
    (p : Project.t num) :
  displayProjects calendarImages userMappings ignoredProjects projectRules
  = Some output →
  p ∈ output →
  let processed := processedEvents calendarImages projectRules in
  let labels :=
    keysOf
      (map AnalyzedEvent.title
         (filter (λ e, (AnalyzedEvent.title e ∉ ignoredProjects)
                       ∧ ¬ inherited (AnalyzedEvent.title e))
                 processed)) in
  Project.duration p
  = total
      (map (λ k, total (map AnalyzedEvent.durationHours
                          (eventsLabelled k processed)))
           (filter (λ k, displayNameOf userMappings k = Project.name p) labels)).
Proof.
  intros Hout Hp processed labels.
  destruct (elem_of_displayProjects _ _ _ _ _ _ Hout Hp)
    as (before & p0 & Hfinal & Hp0 & Hname & Hdur & Hnames).
  destruct (finalProjects_project _ _ _ _ _ _ Hfinal Hp0) as (Hfilter & Hsum & _).
  rewrite Hdur, Hsum, Hfilter, Hname.
  by rewrite Object_keys_aggregatedByOriginal.
Qed.

(** The theorem at durations in fractions of an hour: 0.1 + 0.4 hours of
    "Gym" around 0.2 hours of "Lunch". *)
Lemma project_duration_witness :
  0.5%float
  = total
      (map (λ k, total (map AnalyzedEvent.durationHours
                          (eventsLabelled k
                             (processedEvents
                                (image [ev "Gym" 0.1 "#808080";
                                        ev "Lunch" 0.2 "#808080";
                                        ev "Gym" 0.4 "#808080"])
                                []))))
           (filter (λ k, displayNameOf ∅ k = "Gym")
              (keysOf
                 (map AnalyzedEvent.title
                    (filter (λ e, (AnalyzedEvent.title e ∉ @nil string)
                                  ∧ ¬ inherited (AnalyzedEvent.title e))
                       (processedEvents
                          (image [ev "Gym" 0.1 "#808080";
                                  ev "Lunch" 0.2 "#808080";
                                  ev "Gym" 0.4 "#808080"])
                          [])))))).
Proof.
  refine (project_duration
    (image [ev "Gym" 0.1 "#808080"; ev "Lunch" 0.2 "#808080";
            ev "Gym" 0.4 "#808080"])
    ∅ [] []
    [ Project.mk "Gym" 0.5%float "#0088FE" ["Gym"];
      Project.mk "Lunch" 0.2%float "#00C49F" ["Lunch"] ]
    (Project.mk "Gym" 0.5%float "#0088FE" ["Gym"]) _ _).
  - vm_compute. reflexivity.
  - left.
Defined.

(** ** Uploads and deletions of images *)

Lemma processedEvents_app {num : Type} `{!JsCase}
    (l1 l2 : list (CalendarImage.t num)) (R : jsobj string) :
  processedEvents (l1 ++ l2) R = processedEvents l1 R ++ processedEvents l2 R.
Proof. unfold processedEvents. by rewrite flat_map_app, map_app. Qed.

(** X17: an upload followed by the deletion of the uploaded image gives back
    the former list of images, when no former image has the identifier of the
    new one.  (Identifiers are [Date.now().toString()]: two uploads that end in
    the same millisecond share one, and the deletion then removes both.) *)
Theorem upload_delete_round_trip {num : Type} (newImage : CalendarImage.t num)
    (prev : list (CalendarImage.t num)) :
  (∀ img, img ∈ prev → CalendarImage.id img ≠ CalendarImage.id newImage) →
  handleDeleteImage (CalendarImage.id newImage)
    (handleImageUpload (Some newImage) prev)
  = prev.
Proof.
  intros Hfresh. unfold handleDeleteImage, handleImageUpload.
  rewrite filter_app, (filter_cons _ newImage).
  destruct (decide (CalendarImage.id newImage ≠ CalendarImage.id newImage))
    as [Hne | _]; [done |].
  rewrite filter_nil, app_nil_r. by apply filter_all.
Qed.

(** The theorem at an upload after one image. *)
Lemma upload_delete_round_trip_witness :
  handleDeleteImage "2"
    (handleImageUpload (Some (CalendarImage.mk "2" "" [ev "Gym" 1 "#808080"]))
       (image [ev "Yoga" 2 "#808080"]))
  = image [ev "Yoga" 2 "#808080"].
Proof.
  refine (upload_delete_round_trip
    (CalendarImage.mk "2" "" [ev "Gym" 1 "#808080"])
    (image [ev "Yoga" 2 "#808080"]) _).
  intros img Himg. apply list_elem_of_singleton in Himg. by subst img.
Defined.

(** X18: an upload that fails, and an upload whose analysis finds no event,
    leave the projects of the dashboard as they are. *)
Theorem upload_without_events {num : Type} `{!JsNumber num} `{!JsCase}
    (id base64 : string) (prev : list (CalendarImage.t num))
    (userMappings : gmap string Mapping.t) (ignoredProjects : list string)
    (projectRules : jsobj string) :
  displayProjects (handleImageUpload None prev) userMappings ignoredProjects
    projectRules
  = displayProjects prev userMappings ignoredProjects projectRules
  ∧ displayProjects
      (handleImageUpload (Some (CalendarImage.mk id base64 [])) prev)
      userMappings ignoredProjects projectRules
    = displayProjects prev userMappings ignoredProjects projectRules.
Proof.
  split; [done |].
  unfold displayProjects, finalProjects, handleImageUpload.
  rewrite processedEvents_app.
  change (processedEvents [CalendarImage.mk id base64 []] projectRules)
    with (@nil (AnalyzedEvent.t num)).
  by rewrite app_nil_r.
Qed.
